(** * Whiteboard: geometry kernel, bounds, eraser and undo history

    A shallow embedding of the whiteboard's core, with the properties of
    its specification:
    - the geometry utilities ([screenToWorld] ... [isElementRoughlyIntersecting]),
      the module that follows the toolbar in src/components/MiniToolbar.tsx;
    - src/utils/BoundsUtils.ts;
    - the hook [useHistory] (src/unnamed/part_000);
    - [performErase] and the zoom, pinch, drag, draw and image handlers of
      the Whiteboard component (src/unnamed/part_003).

    JavaScript numbers are IEEE-754 binary64 values.  The source functions
    are written once, over an interface [JsNumber] of the operators and
    [Math] functions they use, and read at two instances:
    - [float], the primitive binary64 numbers, where the code runs as it
      does in a JavaScript engine;
    - [xreal], exact real arithmetic extended with [+Infinity],
      [-Infinity] and [NaN], where rounding and overflow are abstracted
      away and the algebraic laws are proved.  A property stated there
      says so; the last section runs the code in binary64 where the two
      differ. *)

From Stdlib Require Import List Bool ZArith String Lia.
From Stdlib Require Import Reals Lra R_Ifp.
From Stdlib Require Import Floats.
Import ListNotations.

Set Implicit Arguments.

(** ** The number interface *)

Class JsNumber (N : Type) := {
  lit : Z -> N;                  (* an integer literal *)
  Infinity : N;
  js_add : N -> N -> N;
  js_sub : N -> N -> N;
  js_mul : N -> N -> N;
  js_div : N -> N -> N;
  js_neg : N -> N;
  js_lt : N -> N -> bool;        (* a < b;  a > b is  js_lt b a *)
  js_le : N -> N -> bool;        (* a <= b; a >= b is js_le b a *)
  strict_eq : N -> N -> bool;    (* a === b *)
  Math_sqrt : N -> N;
  Math_abs : N -> N;
  Math_ceil : N -> N;
  Math_min : N -> N -> N;
  Math_max : N -> N -> N
}.

(** The host functions the ECMAScript standard leaves
    implementation-approximated. *)
Class JsMath (N : Type) := {
  Math_PI : N;
  Math_acos : N -> N;
  Math_cos : N -> N;
  Math_sin : N -> N
}.

Declare Scope js_scope.
Delimit Scope js_scope with js.
Notation "a + b" := (js_add a b) : js_scope.
Notation "a - b" := (js_sub a b) : js_scope.
Notation "a * b" := (js_mul a b) : js_scope.
Notation "a / b" := (js_div a b) : js_scope.
Notation "- a" := (js_neg a) : js_scope.
Notation "a < b" := (js_lt a b) : js_scope.
Notation "a <= b" := (js_le a b) : js_scope.
Notation "a > b" := (js_lt b a) : js_scope.
Notation "a >= b" := (js_le b a) : js_scope.
Notation "a === b" := (strict_eq a b) (at level 70) : js_scope.

Section NumberHelpers.
Context {N : Type} `{JsNumber N}.
Local Open Scope js_scope.

(** [isNaN x]: NaN is the only number that is not [===] to itself. *)
Definition isNaN (x : N) : bool := negb (x === x).

(** ToBoolean on a number: [0], [-0] and [NaN] are falsy. *)
Definition truthy (x : N) : bool := negb (x === lit 0) && negb (isNaN x).

(** [x || d] on numbers. *)
Definition num_or (x d : N) : N := if truthy x then x else d.

(** [Math.pow(x, 2)]: the square, correctly rounded in binary64. *)
Definition Math_pow2 (x : N) : N := x * x.

(** [Math.min(...xs)] and [Math.max(...xs)]: the fold from the neutral
    infinity, which is also what the empty spread returns. *)
Definition Math_min_spread (xs : list N) : N := fold_left Math_min xs Infinity.
Definition Math_max_spread (xs : list N) : N := fold_left Math_max xs (- Infinity).
End NumberHelpers.

(** ** Instance 1: binary64 *)

Module F64.
Local Open Scope float_scope.

Definition of_Z (z : Z) : float :=
  match z with
  | Z0 => 0
  | Zpos _ => PrimFloat.of_uint63 (Uint63.of_Z z)
  | Zneg p => - PrimFloat.of_uint63 (Uint63.of_Z (Zpos p))
  end.

Definition two52 : float := 0x1p52.

(** [Math.ceil]: below 2^52 in magnitude, adding and removing 2^52
    rounds to an integer, one below the ceiling at most; larger numbers,
    infinities and NaN are returned as they are.  A result of zero has the
    sign of the argument: [Math.ceil(-0.5)] and [Math.ceil(-0)] are [-0]. *)
Definition ceil (x : float) : float :=
  if PrimFloat.is_nan x then x
  else if two52 <=? PrimFloat.abs x then x
  else
    let r := if 0 <=? x then (x + two52) - two52 else (x - two52) + two52 in
    let c := if r <? x then r + 1 else r in
    if c =? 0 then x * 0 else c.

(** [Math.min] and [Math.max]: NaN if an argument is NaN, and -0 below +0
    (the signs of two equal arguments are told apart by their inverses). *)
Definition min (a b : float) : float :=
  if PrimFloat.is_nan a || PrimFloat.is_nan b then nan
  else if a <? b then a else if b <? a then b
  else if 1 / a <? 1 / b then a else b.

Definition max (a b : float) : float :=
  if PrimFloat.is_nan a || PrimFloat.is_nan b then nan
  else if a <? b then b else if b <? a then a
  else if 1 / a <? 1 / b then b else a.
End F64.

#[export] Instance float_JsNumber : JsNumber float := {
  lit := F64.of_Z;
  Infinity := PrimFloat.infinity;
  js_add := PrimFloat.add;
  js_sub := PrimFloat.sub;
  js_mul := PrimFloat.mul;
  js_div := PrimFloat.div;
  js_neg := PrimFloat.opp;
  js_lt := PrimFloat.ltb;
  js_le := PrimFloat.leb;
  strict_eq := PrimFloat.eqb;
  Math_sqrt := PrimFloat.sqrt;
  Math_abs := PrimFloat.abs;
  Math_ceil := F64.ceil;
  Math_min := F64.min;
  Math_max := F64.max
}.

(** ** Instance 2: exact reals with the IEEE special values *)

Inductive xreal : Type :=
| Fin (r : R)
| PInf
| NInf
| NaN.

Module XR.
Local Open Scope R_scope.

Definition Rltb (a b : R) : bool := if Rlt_dec a b then true else false.
Definition Rleb (a b : R) : bool := if Rle_dec a b then true else false.
Definition Reqb (a b : R) : bool := if Req_dec_T a b then true else false.

(** The least integer not below [r]. *)
Definition Rceil (r : R) : Z := (- Int_part (- r))%Z.

Definition neg (a : xreal) : xreal :=
  match a with
  | Fin r => Fin (- r)
  | PInf => NInf
  | NInf => PInf
  | NaN => NaN
  end.

Definition add (a b : xreal) : xreal :=
  match a, b with
  | NaN, _ | _, NaN => NaN
  | Fin x, Fin y => Fin (x + y)
  | PInf, NInf | NInf, PInf => NaN
  | PInf, _ | _, PInf => PInf
  | NInf, _ | _, NInf => NInf
  end.

Definition sub (a b : xreal) : xreal := add a (neg b).

(** The sign of an infinite product or quotient; a zero is unsigned here
    and counts as positive. *)
Definition signed_inf (positive : bool) : xreal := if positive then PInf else NInf.

Definition mul (a b : xreal) : xreal :=
  match a, b with
  | NaN, _ | _, NaN => NaN
  | Fin x, Fin y => Fin (x * y)
  | Fin x, PInf | PInf, Fin x => if Reqb x 0 then NaN else signed_inf (Rltb 0 x)
  | Fin x, NInf | NInf, Fin x => if Reqb x 0 then NaN else signed_inf (Rltb x 0)
  | PInf, PInf | NInf, NInf => PInf
  | PInf, NInf | NInf, PInf => NInf
  end.

Definition div (a b : xreal) : xreal :=
  match a, b with
  | NaN, _ | _, NaN => NaN
  | Fin x, Fin y =>
      if Reqb y 0
      then (if Reqb x 0 then NaN else signed_inf (Rltb 0 x))
      else Fin (x / y)
  | Fin _, (PInf | NInf) => Fin 0
  | (PInf | NInf), (PInf | NInf) => NaN
  | PInf, Fin y => signed_inf (Rleb 0 y)
  | NInf, Fin y => signed_inf (Rltb y 0)
  end.

Definition lt (a b : xreal) : bool :=
  match a, b with
  | NaN, _ | _, NaN => false
  | Fin x, Fin y => Rltb x y
  | NInf, (Fin _ | PInf) => true
  | Fin _, PInf => true
  | _, _ => false
  end.

Definition eq (a b : xreal) : bool :=
  match a, b with
  | Fin x, Fin y => Reqb x y
  | PInf, PInf | NInf, NInf => true
  | _, _ => false
  end.

Definition le (a b : xreal) : bool := lt a b || eq a b.

Definition sqrt (a : xreal) : xreal :=
  match a with
  | Fin x => if Rltb x 0 then NaN else Fin (R_sqrt.sqrt x)
  | PInf => PInf
  | NInf | NaN => NaN
  end.

Definition abs (a : xreal) : xreal :=
  match a with
  | Fin x => Fin (Rabs x)
  | PInf | NInf => PInf
  | NaN => NaN
  end.

Definition ceil (a : xreal) : xreal :=
  match a with
  | Fin x => Fin (IZR (Rceil x))
  | _ => a
  end.

Definition min (a b : xreal) : xreal :=
  match a, b with
  | NaN, _ | _, NaN => NaN
  | _, _ => if lt b a then b else a
  end.

Definition max (a b : xreal) : xreal :=
  match a, b with
  | NaN, _ | _, NaN => NaN
  | _, _ => if lt a b then b else a
  end.

(** [Math.acos], [Math.cos], [Math.sin]: NaN outside the domain. *)
Definition acos (a : xreal) : xreal :=
  match a with
  | Fin x => if Rltb x (-1) || Rltb 1 x then NaN else Fin (Ratan.acos x)
  | _ => NaN
  end.

Definition cos (a : xreal) : xreal :=
  match a with Fin x => Fin (Rtrigo_def.cos x) | _ => NaN end.

Definition sin (a : xreal) : xreal :=
  match a with Fin x => Fin (Rtrigo_def.sin x) | _ => NaN end.
End XR.

(* These operations are rewritten with their lemmas on finite numbers. *)
Arguments XR.div : simpl never.
Arguments XR.sqrt : simpl never.
Arguments XR.le : simpl never.
Arguments XR.min : simpl never.
Arguments XR.max : simpl never.

#[export] Instance xreal_JsNumber : JsNumber xreal := {
  lit := fun z => Fin (IZR z);
  Infinity := PInf;
  js_add := XR.add;
  js_sub := XR.sub;
  js_mul := XR.mul;
  js_div := XR.div;
  js_neg := XR.neg;
  js_lt := XR.lt;
  js_le := XR.le;
  strict_eq := XR.eq;
  Math_sqrt := XR.sqrt;
  Math_abs := XR.abs;
  Math_ceil := XR.ceil;
  Math_min := XR.min;
  Math_max := XR.max
}.

#[export] Instance xreal_JsMath : JsMath xreal := {
  Math_PI := Fin PI;
  Math_acos := XR.acos;
  Math_cos := XR.cos;
  Math_sin := XR.sin
}.

(** ** src/types.ts

    [x] and [y] are the fields of a [Point]; the [x] and [y] of a
    [ViewState] are [view_x] and [view_y] here, those of a [BaseElement]
    [el_x] and [el_y]. *)

Record Point (N : Type) : Type := mkPoint { x : N; y : N }.

Record ViewState (N : Type) : Type := mkView { view_x : N; view_y : N; scale : N }.

(** The fields of [BaseElement] but [type], which is the constructor of
    [WhiteboardElement]; an optional field that is absent is [None]. *)
Record BaseElement (N : Type) : Type := mkBase {
  id : string;
  el_x : N;
  el_y : N;
  rotation : option N;
  strokeColor : option string;
  fillColor : option string;
  strokeWidth : option N
}.

Inductive WhiteboardElement (N : Type) : Type :=
| Rectangle (base : BaseElement N) (width height : N)
| Circle (base : BaseElement N) (radius : N)
| Triangle (base : BaseElement N) (p1 p2 p3 : Point N)
| Arrow (base : BaseElement N) (endX endY : N)
| Pencil (base : BaseElement N) (points : list (Point N))
| Image (base : BaseElement N) (src : string) (width height : N).

Definition base_of {N : Type} (el : WhiteboardElement N) : BaseElement N :=
  match el with
  | Rectangle b _ _ | Circle b _ | Triangle b _ _ _ | Arrow b _ _
  | Pencil b _ | Image b _ _ _ => b
  end.

(** ** src/utils.ts *)

Record TriangleAngles (N : Type) : Type := mkAngles {
  ang_A : N; ang_B : N; ang_C : N;
  side_a : N; side_b : N; side_c : N
}.

(** A computation that may run out of fuel (a loop of the source that has
    not ended yet) or throw. *)
Inductive outcome (T : Type) : Type :=
| Returned (v : T)
| TypeError
| OutOfFuel.
Arguments TypeError {T}.
Arguments OutOfFuel {T}.

Definition bind {T U : Type} (m : outcome T) (k : T -> outcome U) : outcome U :=
  match m with
  | Returned v => k v
  | TypeError => TypeError
  | OutOfFuel => OutOfFuel
  end.

Notation "'do' v <- m ; k" := (bind m (fun v => k))
  (at level 10, v name, m at level 100, k at level 200).

Section Utils.
Context {N : Type} `{JsNumber N}.
Local Open Scope js_scope.

Definition screenToWorld (point : Point N) (view : ViewState N) : Point N :=
  {| x := (point.(x) - view.(view_x)) / view.(scale);
     y := (point.(y) - view.(view_y)) / view.(scale) |}.

Definition worldToScreen (point : Point N) (view : ViewState N) : Point N :=
  {| x := point.(x) * view.(scale) + view.(view_x);
     y := point.(y) * view.(scale) + view.(view_y) |}.

Definition distance (a b : Point N) : N :=
  Math_sqrt (Math_pow2 (a.(x) - b.(x)) + Math_pow2 (a.(y) - b.(y))).

(** The [dist] of [isPointNearLine]: the distance of [p] to the line
    through [a] and [b], whose length is [len]. *)
Definition lineDistance (p a b : Point N) (len : N) : N :=
  Math_abs ((b.(y) - a.(y)) * p.(x) - (b.(x) - a.(x)) * p.(y)
            + b.(x) * a.(y) - b.(y) * a.(x)) / len.

Definition isPointNearLine (p a b : Point N) (threshold : N) : bool :=
  let len := distance a b in
  if len === lit 0 then distance p a < threshold
  else
    let dist := lineDistance p a b len in
    let minX := Math_min a.(x) b.(x) - threshold in
    let maxX := Math_max a.(x) b.(x) + threshold in
    let minY := Math_min a.(y) b.(y) - threshold in
    let maxY := Math_max a.(y) b.(y) + threshold in
    (dist < threshold) && (p.(x) >= minX) && (p.(x) <= maxX)
    && (p.(y) >= minY) && (p.(y) <= maxY).

(** The literal [0.5]. *)
Definition half : N := lit 1 / lit 2.

Definition getTriangleArea (p1 p2 p3 : Point N) : N :=
  half * Math_abs (p1.(x) * (p2.(y) - p3.(y)) + p2.(x) * (p3.(y) - p1.(y))
                   + p3.(x) * (p1.(y) - p2.(y))).

Definition isPointInTriangle (p p1 p2 p3 : Point N) : bool :=
  let areaOrig := getTriangleArea p1 p2 p3 in
  let area1 := getTriangleArea p p2 p3 in
  let area2 := getTriangleArea p1 p p3 in
  let area3 := getTriangleArea p1 p2 p in
  Math_abs (areaOrig - (area1 + area2 + area3)) < lit 1.

(** The loop of [interpolatePoints]; every test of [i < steps] takes one
    unit of fuel. *)
Fixpoint interpolate_loop (fuel : nat) (p1 p2 : Point N) (steps i : N)
    (points : list (Point N)) : outcome (list (Point N)) :=
  match fuel with
  | O => OutOfFuel
  | S fuel' =>
      if i < steps then
        let t := i / steps in
        interpolate_loop fuel' p1 p2 steps (i + lit 1)
          (points ++ [ {| x := p1.(x) + (p2.(x) - p1.(x)) * t;
                          y := p1.(y) + (p2.(y) - p1.(y)) * t |} ])
      else Returned points
  end.

Definition interpolatePoints (fuel : nat) (p1 p2 : Point N) (spacing : N)
    : outcome (list (Point N)) :=
  let dist := distance p1 p2 in
  let steps := Math_ceil (dist / spacing) in
  interpolate_loop fuel p1 p2 steps (lit 0) [].

(** The bounds that [isElementRoughlyIntersecting] accumulates in its
    four mutable variables. *)
Record RoughBounds : Type := mkRough { rminX : N; rminY : N; rmaxX : N; rmaxY : N }.

Definition updateBounds (bd : RoughBounds) (px py : N) : RoughBounds :=
  let minX := if px < bd.(rminX) then px else bd.(rminX) in
  let maxX := if px > bd.(rmaxX) then px else bd.(rmaxX) in
  let minY := if py < bd.(rminY) then py else bd.(rminY) in
  let maxY := if py > bd.(rmaxY) then py else bd.(rmaxY) in
  {| rminX := minX; rminY := minY; rmaxX := maxX; rmaxY := maxY |}.

Definition roughBounds (el : WhiteboardElement N) : RoughBounds :=
  let start := {| rminX := Infinity; rminY := Infinity;
                  rmaxX := - Infinity; rmaxY := - Infinity |} in
  match el with
  | Pencil _ points =>
      fold_left (fun bd p => updateBounds bd p.(x) p.(y)) points start
  | Rectangle r width height | Image r _ width height =>
      updateBounds (updateBounds start r.(el_x) r.(el_y))
        (r.(el_x) + width) (r.(el_y) + height)
  | Circle c radius =>
      updateBounds (updateBounds start (c.(el_x) - radius) (c.(el_y) - radius))
        (c.(el_x) + radius) (c.(el_y) + radius)
  | Triangle _ p1 p2 p3 =>
      updateBounds (updateBounds (updateBounds start p1.(x) p1.(y)) p2.(x) p2.(y))
        p3.(x) p3.(y)
  | Arrow a endX endY =>
      updateBounds (updateBounds start a.(el_x) a.(el_y)) endX endY
  end.

(** [el.strokeWidth || d]. *)
Definition strokeWidth_or (el : WhiteboardElement N) (d : N) : N :=
  match (base_of el).(strokeWidth) with
  | Some w => num_or w d
  | None => d
  end.

Definition isElementRoughlyIntersecting (el : WhiteboardElement N)
    (eraser : Point N) (radius : N) : bool :=
  let bd := roughBounds el in
  let padding := strokeWidth_or el (lit 2) + radius in
  (eraser.(x) >= bd.(rminX) - padding) && (eraser.(x) <= bd.(rmaxX) + padding)
  && (eraser.(y) >= bd.(rminY) - padding) && (eraser.(y) <= bd.(rmaxY) + padding).
End Utils.

Section UtilsMath.
Context {N : Type} `{JsNumber N} `{JsMath N}.
Local Open Scope js_scope.

Definition radToDeg (rad : N) : N := rad * (lit 180 / Math_PI).

(** The law of cosines: the argument of [Math.acos] for the angle opposite
    the side of square [o2], between the sides [s] and [t] of squares [s2]
    and [t2]; for the angle A it is [(b2 + c2 - a2) / (2 * b * c)]. *)
Definition cosineArg (o2 s2 t2 s t : N) : N := (s2 + t2 - o2) / (lit 2 * s * t).

(** The cosine argument is undefined (NaN) or outside [-1, 1]. *)
Definition undefined_or_outside (v : N) : bool :=
  isNaN v || (v < lit (-1)) || (lit 1 < v).

Definition getTriangleAngles (p1 p2 p3 : Point N) : TriangleAngles N :=
  let a2 := Math_pow2 (distance p2 p3) in
  let b2 := Math_pow2 (distance p1 p3) in
  let c2 := Math_pow2 (distance p1 p2) in
  let a := Math_sqrt a2 in
  let b := Math_sqrt b2 in
  let c := Math_sqrt c2 in
  let A := num_or (radToDeg (Math_acos (cosineArg a2 b2 c2 b c))) (lit 0) in
  let B := num_or (radToDeg (Math_acos (cosineArg b2 a2 c2 a c))) (lit 0) in
  let C := num_or (radToDeg (Math_acos (cosineArg c2 a2 b2 a b))) (lit 0) in
  {| ang_A := A; ang_B := B; ang_C := C; side_a := a; side_b := b; side_c := c |}.

(** The pencil loop of [convertShapeToPoints]: one interpolation per pair
    of consecutive points. *)
Fixpoint pencil_runs (fuel : nat) (pts : list (Point N)) (spacing : N)
    : outcome (list (Point N)) :=
  match pts with
  | p :: ((q :: _) as rest) =>
      do s <- interpolatePoints fuel p q spacing;
      do r <- pencil_runs fuel rest spacing;
      Returned (s ++ r)
  | _ => Returned []
  end.

(** The circle loop of [convertShapeToPoints], [for (i = 0; i <= steps; i++)]. *)
Fixpoint circle_loop (fuel : nat) (c : BaseElement N) (radius steps i : N)
    (points : list (Point N)) : outcome (list (Point N)) :=
  match fuel with
  | O => OutOfFuel
  | S fuel' =>
      if i <= steps then
        let angle := (i / steps) * lit 2 * Math_PI in
        circle_loop fuel' c radius steps (i + lit 1)
          (points ++ [ {| x := c.(el_x) + radius * Math_cos angle;
                          y := c.(el_y) + radius * Math_sin angle |} ])
      else Returned points
  end.

(** An entry of the returned array is [None] where the source pushes
    [undefined]: the last point of a pencil that has no points. *)
Definition convertShapeToPoints (fuel : nat) (el : WhiteboardElement N) (spacing : N)
    : outcome (list (option (Point N))) :=
  match el with
  | Pencil _ points =>
      do s <- pencil_runs fuel points spacing;
      Returned (map Some s ++ [nth_error points (List.length points - 1)%nat])
  | Rectangle r width height | Image r _ width height =>
      let p1 := {| x := r.(el_x); y := r.(el_y) |} in
      let p2 := {| x := r.(el_x) + width; y := r.(el_y) |} in
      let p3 := {| x := r.(el_x) + width; y := r.(el_y) + height |} in
      let p4 := {| x := r.(el_x); y := r.(el_y) + height |} in
      do s1 <- interpolatePoints fuel p1 p2 spacing;
      do s2 <- interpolatePoints fuel p2 p3 spacing;
      do s3 <- interpolatePoints fuel p3 p4 spacing;
      do s4 <- interpolatePoints fuel p4 p1 spacing;
      Returned (map Some (s1 ++ s2 ++ s3 ++ s4 ++ [p1]))
  | Triangle _ p1 p2 p3 =>
      do s1 <- interpolatePoints fuel p1 p2 spacing;
      do s2 <- interpolatePoints fuel p2 p3 spacing;
      do s3 <- interpolatePoints fuel p3 p1 spacing;
      Returned (map Some (s1 ++ s2 ++ s3 ++ [p1]))
  | Circle c radius =>
      let steps := Math_ceil ((lit 2 * Math_PI * radius) / spacing) in
      do s <- circle_loop fuel c radius steps (lit 0) [];
      Returned (map Some s)
  | Arrow a endX endY =>
      do s <- interpolatePoints fuel {| x := a.(el_x); y := a.(el_y) |}
                {| x := endX; y := endY |} spacing;
      Returned (map Some (s ++ [ {| x := endX; y := endY |} ]))
  end.
End UtilsMath.

(** ** src/utils/BoundsUtils.ts *)

Record Bounds (N : Type) : Type := mkBounds { minX : N; minY : N; maxX : N; maxY : N }.

Section BoundsUtils.
Context {N : Type} `{JsNumber N}.
Local Open Scope js_scope.

Definition getElementBounds (el : WhiteboardElement N) : Bounds N :=
  match el with
  | Rectangle r width height | Image r _ width height =>
      let x := Math_min r.(el_x) (r.(el_x) + width) in
      let y := Math_min r.(el_y) (r.(el_y) + height) in
      let w := Math_abs width in
      let h := Math_abs height in
      {| minX := x; minY := y; maxX := x + w; maxY := y + h |}
  | Circle c radius =>
      {| minX := c.(el_x) - radius; minY := c.(el_y) - radius;
         maxX := c.(el_x) + radius; maxY := c.(el_y) + radius |}
  | Triangle _ p1 p2 p3 =>
      let xs := [p1.(x); p2.(x); p3.(x)] in
      let ys := [p1.(y); p2.(y); p3.(y)] in
      {| minX := Math_min_spread xs; minY := Math_min_spread ys;
         maxX := Math_max_spread xs; maxY := Math_max_spread ys |}
  | Arrow a endX endY =>
      {| minX := Math_min a.(el_x) endX; minY := Math_min a.(el_y) endY;
         maxX := Math_max a.(el_x) endX; maxY := Math_max a.(el_y) endY |}
  | Pencil _ points =>
      match points with
      | [] => {| minX := lit 0; minY := lit 0; maxX := lit 0; maxY := lit 0 |}
      | _ =>
          let xs := map (fun pt => pt.(x)) points in
          let ys := map (fun pt => pt.(y)) points in
          {| minX := Math_min_spread xs; minY := Math_min_spread ys;
             maxX := Math_max_spread xs; maxY := Math_max_spread ys |}
      end
  end.

Definition getCommonBounds (elements : list (WhiteboardElement N)) : option (Bounds N) :=
  match elements with
  | [] => None
  | _ =>
      Some (fold_left
              (fun acc el =>
                 let b := getElementBounds el in
                 {| minX := Math_min acc.(minX) b.(minX);
                    minY := Math_min acc.(minY) b.(minY);
                    maxX := Math_max acc.(maxX) b.(maxX);
                    maxY := Math_max acc.(maxY) b.(maxY) |})
              elements
              {| minX := Infinity; minY := Infinity;
                 maxX := - Infinity; maxY := - Infinity |})
  end.

Definition isPointInBounds (p : Point N) (b : Bounds N) (padding : N) : bool :=
  (p.(x) >= b.(minX) - padding) && (p.(x) <= b.(maxX) + padding)
  && (p.(y) >= b.(minY) - padding) && (p.(y) <= b.(maxY) + padding).

Definition doBoundsIntersect (b1 b2 : Bounds N) : bool :=
  negb ((b2.(minX) > b1.(maxX)) || (b2.(maxX) < b1.(minX))
        || (b2.(minY) > b1.(maxY)) || (b2.(maxY) < b1.(minY))).

(** The pencil loop of [hitTestElement]: the consecutive pairs
    [points[k], points[k+1]] for [k < points.length - 1], in order. *)
Fixpoint pencil_hit (pos : Point N) (points : list (Point N)) (threshold : N) : bool :=
  match points with
  | a :: ((b :: _) as rest) =>
      if isPointNearLine pos a b threshold then true
      else pencil_hit pos rest threshold
  | _ => false
  end.

Definition hitTestElement (el : WhiteboardElement N) (pos : Point N) (zoom : N) : bool :=
  let threshold := lit 10 / zoom in
  match el with
  | Rectangle r width height | Image r _ width height =>
      let x' := Math_min r.(el_x) (r.(el_x) + width) in
      let y' := Math_min r.(el_y) (r.(el_y) + height) in
      let w := Math_abs width in
      let h := Math_abs height in
      (pos.(x) >= x') && (pos.(x) <= x' + w) && (pos.(y) >= y') && (pos.(y) <= y' + h)
  | Circle c radius =>
      distance pos {| x := c.(el_x); y := c.(el_y) |} <= radius
  | Triangle _ p1 p2 p3 => isPointInTriangle pos p1 p2 p3
  | Arrow a endX endY =>
      isPointNearLine pos {| x := a.(el_x); y := a.(el_y) |}
        {| x := endX; y := endY |} threshold
  | Pencil _ points =>
      let bounds := getElementBounds el in
      if negb (isPointInBounds pos bounds threshold) then false
      else pencil_hit pos points threshold
  end.
End BoundsUtils.

(** ** src/hooks/useHistory.ts *)

Section UseHistory.
(** A snapshot is a list of elements; the hook never looks inside one. *)
Variable Snapshot : Type.

(** The two state cells of the hook. *)
Record HistoryState : Type := mkHistory {
  history : list Snapshot;
  currentIndex : Z
}.

(** [arr.slice(0, e)]: a negative end counts from the end of the array. *)
Definition slice0 (arr : list Snapshot) (e : Z) : list Snapshot :=
  let len := Z.of_nat (List.length arr) in
  firstn (Z.to_nat (if (e <? 0)%Z then Z.max (len + e) 0 else Z.min e len)) arr.

(** [arr[i]]: [None] is [undefined]. *)
Definition index (arr : list Snapshot) (i : Z) : option Snapshot :=
  if (i <? 0)%Z then None else nth_error arr (Z.to_nat i).

Definition useHistory (initialElements : Snapshot) : HistoryState :=
  {| history := [initialElements]; currentIndex := 0 |}.

(** The callbacks close over the state [r] of the render that made them
    and update the pending state [s]: [setHistory] and [setCurrentIndex]
    with a value overwrite a cell, [setCurrentIndex(prev => ...)] maps
    it. *)
Definition pushToHistory (r : HistoryState) (elements : Snapshot) (s : HistoryState)
    : HistoryState :=
  let newHistory := slice0 r.(history) (r.(currentIndex) + 1) ++ [elements] in
  let newHistory :=
    if (50 <? List.length newHistory)%nat then tl newHistory else newHistory in
  {| history := newHistory;
     currentIndex := Z.of_nat (List.length newHistory) - 1 |}.

(** The returned snapshot is [None] for [null] (and for [undefined]). *)
Definition undo (r : HistoryState) (s : HistoryState) : HistoryState * option Snapshot :=
  if (0 <? r.(currentIndex))%Z
  then ({| history := s.(history); currentIndex := s.(currentIndex) - 1 |},
        index r.(history) (r.(currentIndex) - 1))
  else (s, None).

Definition redo (r : HistoryState) (s : HistoryState) : HistoryState * option Snapshot :=
  if (r.(currentIndex) <? Z.of_nat (List.length r.(history)) - 1)%Z
  then ({| history := s.(history); currentIndex := s.(currentIndex) + 1 |},
        index r.(history) (r.(currentIndex) + 1))
  else (s, None).

Definition elements (r : HistoryState) : option Snapshot :=
  index r.(history) r.(currentIndex).
Definition canUndo (r : HistoryState) : bool := (0 <? r.(currentIndex))%Z.
Definition canRedo (r : HistoryState) : bool :=
  (r.(currentIndex) <? Z.of_nat (List.length r.(history)) - 1)%Z.

(** One user action per render: the callback that runs is the one of the
    latest render, so the state it closes over is the current one. *)
Definition push (elements : Snapshot) (s : HistoryState) : HistoryState :=
  pushToHistory s elements s.
Definition do_undo (s : HistoryState) : HistoryState := fst (undo s s).
Definition do_redo (s : HistoryState) : HistoryState := fst (redo s s).

Definition push_all (xs : list Snapshot) (s : HistoryState) : HistoryState :=
  fold_left (fun st e => push e st) xs s.

(** The last [k] entries of a list. *)
Definition lastn (k : nat) (h : list Snapshot) : list Snapshot :=
  skipn (List.length h - k) h.

(** The state is at the tail of a stack within the cap. *)
Definition at_tail (s : HistoryState) : Prop :=
  (1 <= List.length s.(history) <= 50)%nat
  /\ s.(currentIndex) = (Z.of_nat (List.length s.(history)) - 1)%Z.
End UseHistory.

(** ** [performErase] of the Whiteboard component (src/unnamed/part_003)

    The other copies of the component differ in the fields of the pencils
    that replace an erased shape and in how they tell that nothing was
    erased; the path of a shape that the rough test rejects is the same in
    all of them. *)

Section PerformErase.
Context {N : Type} `{JsNumber N} `{JsMath N}.
Local Open Scope js_scope.

(** [generateId] draws from [Math.random]: the generator state is
    threaded through. *)
Variable G : Type.
Variable generateId : G -> string * G.

(** The component state that [performErase] reads. *)
Variable view : ViewState N.
Variable activeColor : string.
Variable activeStrokeWidth : N.

Definition ERASER_RADIUS : N := lit 20.

(** [el.strokeColor || activeColor]: the empty string is falsy. *)
Definition strokeColor_or (el : WhiteboardElement N) (d : string) : string :=
  match (base_of el).(strokeColor) with
  | Some EmptyString | None => d
  | Some s => s
  end.

(** The walk over the points: the state is [newSegments] and
    [currentSegment]; [distance] reads [p.x], which throws on
    [undefined]. *)
Fixpoint walk_points (worldPos : Point N) (radius : N)
    (points : list (option (Point N)))
    (newSegments : list (list (Point N))) (currentSegment : list (Point N))
    : outcome (list (list (Point N)) * list (Point N)) :=
  match points with
  | [] => Returned (newSegments, currentSegment)
  | None :: _ => TypeError
  | Some p :: rest =>
      if distance p worldPos > radius
      then walk_points worldPos radius rest newSegments (currentSegment ++ [p])
      else if (0 <? List.length currentSegment)%nat
           then walk_points worldPos radius rest (newSegments ++ [currentSegment]) []
           else walk_points worldPos radius rest newSegments currentSegment
  end.

(** [newSegments.forEach]: a pencil for every segment of two points or
    more. *)
Fixpoint push_segments (el : WhiteboardElement N) (segs : list (list (Point N)))
    (newList : list (WhiteboardElement N)) (g : G)
    : list (WhiteboardElement N) * G :=
  match segs with
  | [] => (newList, g)
  | seg :: segs' =>
      match seg with
      | p0 :: _ :: _ =>
          let (newId, g') := generateId g in
          push_segments el segs'
            (newList ++ [Pencil {| id := newId; el_x := p0.(x); el_y := p0.(y);
                                   rotation := None;
                                   strokeColor := Some (strokeColor_or el activeColor);
                                   fillColor := None;
                                   strokeWidth := Some (strokeWidth_or el activeStrokeWidth) |}
                                seg]) g'
      | _ => push_segments el segs' newList g
      end
  end.

(** The loop over [currentList], with [newList] and [hasChanges]. *)
Fixpoint erase_loop (fuel : nat) (worldPos : Point N) (radius : N)
    (rest : list (WhiteboardElement N))
    (newList : list (WhiteboardElement N)) (hasChanges : bool) (g : G)
    : outcome (list (WhiteboardElement N) * bool * G) :=
  match rest with
  | [] => Returned (newList, hasChanges, g)
  | el :: rest' =>
      if negb (isElementRoughlyIntersecting el worldPos radius)
      then erase_loop fuel worldPos radius rest' (newList ++ [el]) hasChanges g
      else
        do points <- convertShapeToPoints fuel el (lit 5 / view.(scale));
        do walked <- walk_points worldPos radius points [] [];
        let (newSegments0, currentSegment) := walked in
        let newSegments :=
          if (0 <? List.length currentSegment)%nat
          then newSegments0 ++ [currentSegment] else newSegments0 in
        match newSegments with
        | [seg] =>
            if (List.length seg =? List.length points)%nat
            then erase_loop fuel worldPos radius rest' (newList ++ [el]) hasChanges g
            else
              let (newList', g') := push_segments el newSegments newList g in
              erase_loop fuel worldPos radius rest' newList' true g'
        | _ =>
            let (newList', g') := push_segments el newSegments newList g in
            erase_loop fuel worldPos radius rest' newList' true g'
        end
  end.

Definition performErase (fuel : nat) (worldPos : Point N)
    (currentList : list (WhiteboardElement N)) (g : G)
    : outcome (list (WhiteboardElement N) * G) :=
  let radius := ERASER_RADIUS / view.(scale) in
  do r <- erase_loop fuel worldPos radius currentList [] false g;
  let '(newList, hasChanges, g') := r in
  Returned (if hasChanges then newList else currentList, g').
End PerformErase.

(** ** The view and pointer handlers of the Whiteboard component
    (src/unnamed/part_003)

    The handlers read the component state of the render they run in and
    set new state; each is given here as the function from what it reads
    to what it sets. *)

Section WhiteboardHandlers.
Context {N : Type} `{JsNumber N}.
Local Open Scope js_scope.

(** The literals [0.1], [10] and [1.2]. *)
Definition ZOOM_MIN : N := lit 1 / lit 10.
Definition ZOOM_MAX : N := lit 10.
Definition ZOOM_STEP : N := lit 12 / lit 10.

(** The loop runs from the last element down to the first: [find] on the
    reversed list.  [tempElements || elements]: an array, even empty, is
    truthy. *)
Definition getElementAtPosition (tempElements : option (list (WhiteboardElement N)))
    (elements : list (WhiteboardElement N)) (view : ViewState N) (worldPos : Point N)
    : option string :=
  let targetElements := match tempElements with Some t => t | None => elements end in
  match find (fun el => hitTestElement el worldPos view.(scale)) (rev targetElements) with
  | Some el => Some (base_of el).(id)
  | None => None
  end.

(** The view that [updateZoom] sets. *)
Definition updateZoom (view : ViewState N) (newScale centerX centerY : N) : ViewState N :=
  let scale := Math_min (Math_max newScale ZOOM_MIN) ZOOM_MAX in
  let worldPoint := screenToWorld {| x := centerX; y := centerY |} view in
  let newX := centerX - worldPoint.(x) * scale in
  let newY := centerY - worldPoint.(y) * scale in
  {| view_x := newX; view_y := newY; scale := scale |}.

(** [innerWidth] and [innerHeight] are those of the window. *)
Definition handleZoomIn (view : ViewState N) (innerWidth innerHeight : N) : ViewState N :=
  updateZoom view (view.(scale) * ZOOM_STEP) (innerWidth / lit 2) (innerHeight / lit 2).

Definition handleZoomOut (view : ViewState N) (innerWidth innerHeight : N) : ViewState N :=
  updateZoom view (view.(scale) / ZOOM_STEP) (innerWidth / lit 2) (innerHeight / lit 2).

(** The view after [handleZoomToFit]; [Math.min(scaleX, scaleY, 1.0)] is
    the fold of [Math.min]. *)
Definition handleZoomToFit (view : ViewState N) (elements : list (WhiteboardElement N))
    (innerWidth innerHeight : N) : ViewState N :=
  match elements with
  | [] => {| view_x := lit 0; view_y := lit 0; scale := lit 1 |}
  | _ =>
      match getCommonBounds elements with
      | None => view
      | Some bounds =>
          let padding := lit 60 in
          let availableWidth := innerWidth - padding * lit 2 in
          let availableHeight := innerHeight - padding * lit 2 in
          let boundsWidth := bounds.(maxX) - bounds.(minX) in
          let boundsHeight := bounds.(maxY) - bounds.(minY) in
          if (boundsWidth === lit 0) || (boundsHeight === lit 0)
          then {| view_x := innerWidth / lit 2 - bounds.(minX);
                  view_y := innerHeight / lit 2 - bounds.(minY);
                  scale := lit 1 |}
          else
            let scaleX := availableWidth / boundsWidth in
            let scaleY := availableHeight / boundsHeight in
            let nextScale := Math_min_spread [scaleX; scaleY; lit 1] in
            let finalScale := Math_max nextScale ZOOM_MIN in
            let centerX := (bounds.(minX) + bounds.(maxX)) / lit 2 in
            let centerY := (bounds.(minY) + bounds.(maxY)) / lit 2 in
            {| view_x := innerWidth / lit 2 - centerX * finalScale;
               view_y := innerHeight / lit 2 - centerY * finalScale;
               scale := finalScale |}
      end
  end.

(** The pinch gesture: what the second pointer down records, and the view
    that a move of the two pointers sets. *)
Record PinchState : Type := mkPinch {
  initialDist : N;
  initialScale : N;
  worldMid : Point N
}.

Definition pinchStart (view : ViewState N) (pointer0 pointer1 : Point N) : PinchState :=
  let dist := distance pointer0 pointer1 in
  let midPoint := {| x := (pointer0.(x) + pointer1.(x)) / lit 2;
                     y := (pointer0.(y) + pointer1.(y)) / lit 2 |} in
  {| initialDist := dist; initialScale := view.(scale);
     worldMid := screenToWorld midPoint view |}.

Definition pinchMove (pinch : PinchState) (pointer0 pointer1 : Point N) : ViewState N :=
  let newDist := distance pointer0 pointer1 in
  let midPoint := {| x := (pointer0.(x) + pointer1.(x)) / lit 2;
                     y := (pointer0.(y) + pointer1.(y)) / lit 2 |} in
  let scaleChange := newDist / pinch.(initialDist) in
  let newScale := Math_min (Math_max (pinch.(initialScale) * scaleChange) ZOOM_MIN) ZOOM_MAX in
  {| view_x := midPoint.(x) - pinch.(worldMid).(x) * newScale;
     view_y := midPoint.(y) - pinch.(worldMid).(y) * newScale;
     scale := newScale |}.

(** [{ ...el, x: nx, y: ny }]. *)
Definition with_xy (b : BaseElement N) (nx ny : N) : BaseElement N :=
  {| id := b.(id); el_x := nx; el_y := ny; rotation := b.(rotation);
     strokeColor := b.(strokeColor); fillColor := b.(fillColor);
     strokeWidth := b.(strokeWidth) |}.

(** The drag of the selected elements: the map of [handlePointerMoveV2]
    over [elements], with [selectedIds] as the list of its members. *)
Definition dragElement (dx dy : N) (el : WhiteboardElement N) : WhiteboardElement N :=
  match el with
  | Triangle t p1 p2 p3 =>
      Triangle t {| x := p1.(x) + dx; y := p1.(y) + dy |}
        {| x := p2.(x) + dx; y := p2.(y) + dy |}
        {| x := p3.(x) + dx; y := p3.(y) + dy |}
  | Pencil p points =>
      Pencil p (map (fun pt => {| x := pt.(x) + dx; y := pt.(y) + dy |}) points)
  | Arrow a endX endY =>
      Arrow (with_xy a (a.(el_x) + dx) (a.(el_y) + dy)) (endX + dx) (endY + dy)
  | Rectangle b width height => Rectangle (with_xy b (b.(el_x) + dx) (b.(el_y) + dy)) width height
  | Circle b radius => Circle (with_xy b (b.(el_x) + dx) (b.(el_y) + dy)) radius
  | Image b src width height =>
      Image (with_xy b (b.(el_x) + dx) (b.(el_y) + dy)) src width height
  end.

Definition dragSelected (elements : list (WhiteboardElement N)) (selectedIds : list string)
    (dragOrigin worldPos : Point N) : list (WhiteboardElement N) :=
  let dx := worldPos.(x) - dragOrigin.(x) in
  let dy := worldPos.(y) - dragOrigin.(y) in
  map (fun el =>
         if negb (existsb (String.eqb (base_of el).(id)) selectedIds) then el
         else dragElement dx dy el)
      elements.

(** The rectangle being drawn, after a pointer move: the update of
    [currentElement] under the RECTANGLE tool. *)
Definition drawRectangle (currentElement : BaseElement N) (dragOrigin worldPos : Point N)
    : WhiteboardElement N :=
  Rectangle (with_xy currentElement (Math_min dragOrigin.(x) worldPos.(x))
               (Math_min dragOrigin.(y) worldPos.(y)))
    (Math_abs (dragOrigin.(x) - worldPos.(x)))
    (Math_abs (dragOrigin.(y) - worldPos.(y))).

(** [handleImageInput]: the size of the image, scaled down to the footprint
    [600 / view.scale], and the image element, centered in the window. *)
Definition imageSize (view : ViewState N) (imgWidth imgHeight : N) : N * N :=
  let w := imgWidth in
  let h := imgHeight in
  let maxDim := lit 600 / view.(scale) in
  if (w > maxDim) || (h > maxDim)
  then let ratio := Math_min (maxDim / w) (maxDim / h) in (w * ratio, h * ratio)
  else (w, h).

Definition newImage (view : ViewState N) (innerWidth innerHeight : N)
    (newId src : string) (imgWidth imgHeight : N) : WhiteboardElement N :=
  let worldCenter :=
    screenToWorld {| x := innerWidth / lit 2; y := innerHeight / lit 2 |} view in
  let (w, h) := imageSize view imgWidth imgHeight in
  Image {| id := newId; el_x := worldCenter.(x) - w / lit 2;
           el_y := worldCenter.(y) - h / lit 2; rotation := None;
           strokeColor := None; fillColor := None; strokeWidth := None |}
        src w h.
End WhiteboardHandlers.

(** ** The vocabulary of the statements *)

Definition is_finite (a : xreal) : bool :=
  match a with Fin _ => true | _ => false end.

Definition finite_point (p : Point xreal) : bool :=
  is_finite p.(x) && is_finite p.(y).

(** The numbers that the geometry of a shape is made of are finite. *)
Definition finite_element (el : WhiteboardElement xreal) : bool :=
  match el with
  | Rectangle b width height | Image b _ width height =>
      is_finite b.(el_x) && is_finite b.(el_y) && is_finite width && is_finite height
  | Circle b radius => is_finite b.(el_x) && is_finite b.(el_y) && is_finite radius
  | Triangle _ p1 p2 p3 => finite_point p1 && finite_point p2 && finite_point p3
  | Arrow b endX endY =>
      is_finite b.(el_x) && is_finite b.(el_y) && is_finite endX && is_finite endY
  | Pencil _ points => forallb finite_point points
  end.

(** The radius of a circle is not negative (the whiteboard sets it to 0 or
    to a [distance]). *)
Definition radius_nonneg (el : WhiteboardElement xreal) : bool :=
  match el with
  | Circle _ radius => (lit 0 <= radius)%js
  | _ => true
  end.

(** The squared length of the segment and the cross product that
    [isPointNearLine] computes, on reals. *)
Definition seg_len2 (ax ay bx by_ : R) : R :=
  ((ax - bx) * (ax - bx) + (ay - by_) * (ay - by_))%R.

Definition seg_cross (px py ax ay bx by_ : R) : R :=
  ((by_ - ay) * px - (bx - ax) * py + bx * ay - by_ * ax)%R.

(** The invariant of the history: between 1 and 50 snapshots, and the
    current index inside the stack. *)
Definition wf_history {Snapshot : Type} (s : HistoryState Snapshot) : Prop :=
  (1 <= List.length s.(history) <= 50)%nat
  /\ (0 <= s.(currentIndex) < Z.of_nat (List.length s.(history)))%Z.

(** The user actions on the history, one per render. *)
Inductive HistoryAction (Snapshot : Type) : Type :=
| ActPush (elements : Snapshot)
| ActUndo
| ActRedo.
Arguments ActUndo {Snapshot}.
Arguments ActRedo {Snapshot}.

Definition act {Snapshot : Type} (s : HistoryState Snapshot) (a : HistoryAction Snapshot)
    : HistoryState Snapshot :=
  match a with
  | ActPush e => push e s
  | ActUndo => do_undo s
  | ActRedo => do_redo s
  end.

(** The doubled signed area [p1.x (p2.y - p3.y) + p2.x (p3.y - p1.y) +
    p3.x (p1.y - p2.y)] of [getTriangleArea], on reals. *)
Definition tri_cross (x1 y1 x2 y2 x3 y3 : R) : R :=
  (x1 * (y2 - y3) + x2 * (y3 - y1) + x3 * (y1 - y2))%R.

(** A pencil stroke of two points or more. *)
Definition is_stroke {N : Type} (el : WhiteboardElement N) : bool :=
  match el with
  | Pencil _ (_ :: _ :: _) => true
  | _ => false
  end.

(** One step of the fold of [getCommonBounds]. *)
Definition common_step (acc : Bounds xreal) (el : WhiteboardElement xreal) : Bounds xreal :=
  let b := getElementBounds el in
  {| minX := Math_min acc.(minX) b.(minX); minY := Math_min acc.(minY) b.(minY);
     maxX := Math_max acc.(maxX) b.(maxX); maxY := Math_max acc.(maxY) b.(maxY) |}.

(** The point at the fraction [t] of the way from [(x1, y1)] to
    [(x2, y2)]. *)
Definition point_at (x1 y1 x2 y2 t : R) : Point xreal :=
  {| x := Fin (x1 + (x2 - x1) * t); y := Fin (y1 + (y2 - y1) * t) |}.

(** A binary64 point, and a base element at the origin with no style. *)
Definition pt64 (px py : float) : Point float := {| x := px; y := py |}.
Definition base64 : BaseElement float :=
  {| id := "e"%string; el_x := 0%float; el_y := 0%float; rotation := None;
     strokeColor := None; fillColor := None; strokeWidth := None |}.



(** The finite point of two real coordinates. *)
Definition fin_point (q : R * R) : Point xreal := {| x := Fin (fst q); y := Fin (snd q) |}.

(** An element of the list that was given, or a new stroke. *)
Definition kept_or_stroke {N : Type} (currentList : list (WhiteboardElement N))
    (el : WhiteboardElement N) : Prop :=
  In el currentList \/ is_stroke el = true.

(** A shape is out of reach of the eraser: the rough test rejects it, or
    none of the points of its outline is within the radius. *)
Definition out_of_reach {N : Type} `{JsNumber N} `{JsMath N} (view : ViewState N)
    (fuel : nat) (worldPos : Point N) (el : WhiteboardElement N) : Prop :=
  isElementRoughlyIntersecting el worldPos (js_div ERASER_RADIUS view.(scale)) = false
  \/ exists pts,
       convertShapeToPoints fuel el (js_div (lit 5) view.(scale)) = Returned (map Some pts)
       /\ pts <> []
       /\ forallb (fun p => js_lt (js_div ERASER_RADIUS view.(scale)) (distance p worldPos))
            pts = true.

(** * Properties *)

(** ** The undo history *)

Section HistoryFacts.
Variable Snapshot : Type.
Implicit Types (h xs : list Snapshot) (s : HistoryState Snapshot).

Lemma slice0_all h : slice0 h (Z.of_nat (List.length h) - 1 + 1) = h.
Proof.
  unfold slice0.
  replace (Z.of_nat (List.length h) - 1 + 1)%Z with (Z.of_nat (List.length h)) by lia.
  destruct (Z.ltb_spec (Z.of_nat (List.length h)) 0); [lia|].
  rewrite Z.min_id, Nat2Z.id. apply firstn_all.
Qed.

Lemma lastn_short k h : (List.length h <= k)%nat -> lastn k h = h.
Proof.
  intros Hle. unfold lastn.
  replace (List.length h - k)%nat with 0%nat by lia. reflexivity.
Qed.

Lemma lastn_length k h : List.length (lastn k h) = Nat.min k (List.length h).
Proof. unfold lastn. rewrite length_skipn. lia. Qed.

Lemma lastn_app_lastn k h xs : lastn k (lastn k h ++ xs) = lastn k (h ++ xs).
Proof.
  unfold lastn at 1 3.
  rewrite !length_app, lastn_length.
  destruct (Nat.le_gt_cases (List.length h) k) as [Hle|Hgt].
  - rewrite lastn_short by assumption.
    replace (Nat.min k (List.length h)) with (List.length h) by lia. reflexivity.
  - replace (Nat.min k (List.length h)) with k by lia.
    unfold lastn.
    replace (List.length h + List.length xs - k)%nat
      with ((k + List.length xs - k) + (List.length h - k))%nat by lia.
    rewrite <- (skipn_skipn (k + List.length xs - k) (List.length h - k) (h ++ xs)).
    f_equal.
    rewrite skipn_app.
    replace (List.length h - k - List.length h)%nat with 0%nat by lia.
    reflexivity.
Qed.

(** A push at the tail appends and keeps the last 50 entries. *)
Lemma push_at_tail e s :
  at_tail s ->
  push e s = {| history := lastn 50 (s.(history) ++ [e]);
                currentIndex := Z.of_nat (List.length (lastn 50 (s.(history) ++ [e]))) - 1 |}
  /\ at_tail (push e s).
Proof.
  intros [Hlen Hidx].
  assert (Hpush : push e s
            = {| history := lastn 50 (s.(history) ++ [e]);
                 currentIndex :=
                   Z.of_nat (List.length (lastn 50 (s.(history) ++ [e]))) - 1 |}).
  { unfold push, pushToHistory. rewrite Hidx, slice0_all.
    destruct (Nat.ltb_spec 50 (List.length (s.(history) ++ [e]))) as [Hover|Hfit].
    - rewrite length_app in Hover; simpl in Hover.
      assert (Hcut : lastn 50 (s.(history) ++ [e]) = tl (s.(history) ++ [e])).
      { unfold lastn. rewrite length_app; simpl.
        replace (List.length s.(history) + 1 - 50)%nat with 1%nat by lia.
        reflexivity. }
      rewrite Hcut. reflexivity.
    - rewrite lastn_short by assumption. reflexivity. }
  split; [exact Hpush|].
  rewrite Hpush. unfold at_tail. cbn [history currentIndex].
  rewrite lastn_length, length_app. cbn [List.length]. split; [lia|reflexivity].
Qed.

(** Any run of pushes from the tail leaves the last 50 of all entries. *)
Lemma push_all_at_tail xs : forall s,
  at_tail s ->
  (push_all xs s).(history) = lastn 50 (s.(history) ++ xs)
  /\ at_tail (push_all xs s).
Proof.
  induction xs as [|e xs IH]; intros s Hs.
  - simpl. rewrite app_nil_r. split; [|exact Hs].
    symmetry. apply lastn_short. destruct Hs as [Hlen _]. lia.
  - simpl. destruct (push_at_tail e Hs) as [Hpush Htail].
    destruct (IH _ Htail) as [Hhist Htail']. split; [|exact Htail'].
    rewrite Hhist, Hpush. simpl.
    rewrite lastn_app_lastn, <- app_assoc. reflexivity.
Qed.

Lemma useHistory_at_tail (initialElements : Snapshot) :
  at_tail (useHistory initialElements).
Proof. unfold at_tail; simpl. split; [lia|reflexivity]. Qed.

(** C1, as amended: from the stack [s0; s1; s2; s3; s4] at index 4, two
    undos and a push of [X] leave the four entries [s0; s1; s2; X] at
    index 3, with nothing to redo: the push keeps the entries up to and
    including the current one, which is [s2] after two undos. *)
Theorem undo_undo_push_discards_branch (s0 s1 s2 s3 s4 X : Snapshot) :
  let start := {| history := [s0; s1; s2; s3; s4]; currentIndex := 4 |} in
  let final := push X (do_undo (do_undo start)) in
  final = {| history := [s0; s1; s2; X]; currentIndex := 3 |}
  /\ canRedo final = false.
Proof. split; reflexivity. Qed.

(** The same three calls made from one render, whose callbacks all close
    over the state at index 4: the undos still step the index down, and
    the push keeps all five entries. *)
Lemma undo_undo_push_same_render (s0 s1 s2 s3 s4 X : Snapshot) :
  let r := {| history := [s0; s1; s2; s3; s4]; currentIndex := 4 |} in
  pushToHistory r X (fst (undo r (fst (undo r r))))
  = {| history := [s0; s1; s2; s3; s4; X]; currentIndex := 5 |}.
Proof. reflexivity. Qed.

(** C4: sixty pushes onto the initial history leave exactly 50 entries,
    the last 50 snapshots pushed, in the order of the pushes, and the
    current index is that of the last one, which is the snapshot just
    pushed. *)
Theorem history_cap_sixty_pushes (initialElements : Snapshot) xs :
  List.length xs = 60%nat ->
  let final := push_all xs (useHistory initialElements) in
  final.(history) = skipn 10 xs
  /\ List.length final.(history) = 50%nat
  /\ final.(currentIndex) = 49%Z
  /\ elements final = nth_error xs 59.
Proof.
  intros Hlen final.
  destruct (push_all_at_tail xs (useHistory_at_tail initialElements))
    as [Hhist [_ Hidx]].
  fold final in Hhist, Hidx.
  assert (Hskip : final.(history) = skipn 10 xs).
  { rewrite Hhist. unfold lastn. simpl history.
    change ([initialElements] ++ xs) with (initialElements :: xs).
    simpl List.length. rewrite Hlen. reflexivity. }
  assert (Hfifty : List.length final.(history) = 50%nat).
  { rewrite Hskip, length_skipn. lia. }
  assert (Hcur : final.(currentIndex) = 49%Z) by (rewrite Hidx, Hfifty; reflexivity).
  repeat split; try assumption.
  unfold elements, index. rewrite Hcur, Hskip. simpl Z.ltb. cbv iota.
  change (Z.to_nat 49) with 49%nat.
  rewrite nth_error_skipn. reflexivity.
Qed.
End HistoryFacts.

(** C1 as stated fails: the stack that results has four entries, and [s2]
    is one of them. *)
Lemma undo_undo_push_counterexample :
  let start := {| history := ["s0"; "s1"; "s2"; "s3"; "s4"]%string; currentIndex := 4 |} in
  let final := push "X"%string (do_undo (do_undo start)) in
  ~ (final.(history) = ["s0"; "s1"; "X"]%string
     /\ final.(currentIndex) = 2%Z
     /\ canRedo final = false).
Proof. intros start final [Hh _]. discriminate Hh. Qed.

Lemma history_cap_sixty_pushes_witness :
  let xs := map Z.of_nat (seq 1 60) in
  let final := push_all xs (useHistory 0%Z) in
  final.(history) = map Z.of_nat (seq 11 50)
  /\ List.length final.(history) = 50%nat
  /\ final.(currentIndex) = 49%Z
  /\ elements final = Some 60%Z.
Proof.
  exact (history_cap_sixty_pushes 0%Z (map Z.of_nat (seq 1 60)) eq_refl).
Defined.

(** ** Exact arithmetic: the operations on finite numbers *)

Module XRFacts.
Import XR.
Local Open Scope R_scope.

Lemma Rltb_true a b : a < b -> Rltb a b = true.
Proof. intros Hab. unfold Rltb. destruct (Rlt_dec a b); [reflexivity|contradiction]. Qed.
Lemma Rltb_false a b : ~ a < b -> Rltb a b = false.
Proof. intros Hab. unfold Rltb. destruct (Rlt_dec a b); [contradiction|reflexivity]. Qed.
Lemma Rleb_true a b : a <= b -> Rleb a b = true.
Proof. intros Hab. unfold Rleb. destruct (Rle_dec a b); [reflexivity|contradiction]. Qed.
Lemma Rleb_false a b : ~ a <= b -> Rleb a b = false.
Proof. intros Hab. unfold Rleb. destruct (Rle_dec a b); [contradiction|reflexivity]. Qed.
Lemma Reqb_true a b : a = b -> Reqb a b = true.
Proof. intros Hab. unfold Reqb. destruct (Req_dec_T a b); [reflexivity|contradiction]. Qed.
Lemma Reqb_false a b : a <> b -> Reqb a b = false.
Proof. intros Hab. unfold Reqb. destruct (Req_dec_T a b); [contradiction|reflexivity]. Qed.

Lemma le_Fin a b : le (Fin a) (Fin b) = Rleb a b.
Proof.
  unfold le, lt, eq.
  destruct (Rle_dec a b) as [Hle|Hnle].
  - rewrite (Rleb_true Hle). destruct (Rlt_dec a b) as [Hlt|Hnlt].
    + rewrite (Rltb_true Hlt). reflexivity.
    + rewrite (Rltb_false Hnlt), Reqb_true by lra. reflexivity.
  - rewrite (Rleb_false Hnle), Rltb_false, Reqb_false by lra. reflexivity.
Qed.

Lemma min_Fin a b : min (Fin a) (Fin b) = Fin (Rmin a b).
Proof.
  unfold min, lt, Rmin.
  destruct (Rle_dec a b) as [Hle|Hnle].
  - rewrite Rltb_false by lra. reflexivity.
  - rewrite Rltb_true by lra. reflexivity.
Qed.

Lemma max_Fin a b : max (Fin a) (Fin b) = Fin (Rmax a b).
Proof.
  unfold max, lt, Rmax.
  destruct (Rle_dec a b) as [Hle|Hnle].
  - destruct (Rlt_dec a b) as [Hlt|Hnlt].
    + rewrite (Rltb_true Hlt). reflexivity.
    + rewrite (Rltb_false Hnlt). f_equal. lra.
  - rewrite Rltb_false by lra. reflexivity.
Qed.

Lemma sqrt_Fin a : 0 <= a -> sqrt (Fin a) = Fin (R_sqrt.sqrt a).
Proof. intros Ha. unfold sqrt. rewrite Rltb_false by lra. reflexivity. Qed.

Lemma div_Fin a b : b <> 0 -> div (Fin a) (Fin b) = Fin (a / b).
Proof. intros Hb. unfold div. rewrite (Reqb_false Hb). reflexivity. Qed.


Lemma div_zero_zero : div (Fin 0) (Fin 0) = NaN.
Proof. unfold div. rewrite !Reqb_true by reflexivity. reflexivity. Qed.

(** The ceiling, through the integer part. *)
Lemma Rceil_bounds r : IZR (Rceil r) - 1 < r <= IZR (Rceil r).
Proof.
  unfold Rceil. rewrite opp_IZR.
  destruct (base_Int_part (- r)) as [Hlo Hhi]. lra.
Qed.

Lemma Rceil_nonpos r : r <= 0 -> (Rceil r <= 0)%Z.
Proof.
  intros Hr. destruct (Rceil_bounds r) as [Hlo _].
  assert (Hlt : (Rceil r < 1)%Z) by (apply lt_IZR; lra). lia.
Qed.
End XRFacts.

(** Decide the comparisons of concrete reals that an evaluation in
    [xreal] leaves. *)
Ltac xr_decide :=
  repeat match goal with
  | |- context [XR.Rltb ?a ?b] =>
      first [ rewrite (@XRFacts.Rltb_true a b) by lra
            | rewrite (@XRFacts.Rltb_false a b) by lra ]
  | |- context [XR.Rleb ?a ?b] =>
      first [ rewrite (@XRFacts.Rleb_true a b) by lra
            | rewrite (@XRFacts.Rleb_false a b) by lra ]
  | |- context [XR.Reqb ?a ?b] =>
      first [ rewrite (@XRFacts.Reqb_true a b) by lra
            | rewrite (@XRFacts.Reqb_false a b) by lra ]
  end.

(** ** The coordinate transform *)

(** C5, as amended: in exact arithmetic the round trip through screen
    space is the identity, for every finite point and every view whose
    scale is not 0.  (In binary64 the round trip is only approximate, and
    its error grows with the size of the coordinates: see the
    counterexample below.) *)
Theorem screenToWorld_worldToScreen_exact (px py vx vy s : R) :
  s <> 0%R ->
  let p : Point xreal := {| x := Fin px; y := Fin py |} in
  let v : ViewState xreal := {| view_x := Fin vx; view_y := Fin vy; scale := Fin s |} in
  screenToWorld (worldToScreen p v) v = p.
Proof.
  intros Hs p v. unfold screenToWorld, worldToScreen, p, v. cbn.
  rewrite !(XRFacts.div_Fin _ Hs).
  f_equal; f_equal; field; exact Hs.
Qed.

Lemma screenToWorld_worldToScreen_exact_witness :
  let p : Point xreal := {| x := Fin 123456789; y := Fin 0 |} in
  let v : ViewState xreal := {| view_x := Fin 17; view_y := Fin 0; scale := Fin (3 / 10) |} in
  screenToWorld (worldToScreen p v) v = p.
Proof.
  apply (@screenToWorld_worldToScreen_exact 123456789 0 17 0 (3 / 10)). lra.
Defined.

(** C5 as stated fails in binary64: the point (123456789, 0) under the
    view {x: 17, y: 0, scale: 0.3} comes back as 123456788.99999999, off by
    more than 1e-9. *)
Lemma screenToWorld_worldToScreen_binary64_counterexample :
  let p : Point float := {| x := 123456789%float; y := 0%float |} in
  let v : ViewState float :=
    {| view_x := 17%float; view_y := 0%float; scale := (3 / 10)%float |} in
  let q := screenToWorld (worldToScreen p v) v in
  PrimFloat.eqb v.(scale) 0 = false
  /\ ~ (PrimFloat.leb (PrimFloat.abs (q.(x) - p.(x))%float) (1 / 1000000000)%float = true).
Proof.
  split; [vm_compute; reflexivity|].
  vm_compute. discriminate.
Qed.

(** ** Bounds *)

(** C2, as amended: the rectangle {x:0, y:0, width:100, height:50} has the
    bounds {0, 0, 100, 50}; the rectangle {x:0, y:0, width:-100, height:50}
    lies to the left of its origin and has the normalized bounds
    {minX:-100, minY:0, maxX:0, maxY:50}. *)
Theorem getElementBounds_rectangle_scenario
    (i : string) (rot : option float) (sc fc : option string) (sw : option float) :
  let base : BaseElement float :=
    {| id := i; el_x := 0%float; el_y := 0%float; rotation := rot;
       strokeColor := sc; fillColor := fc; strokeWidth := sw |} in
  getElementBounds (Rectangle base 100%float 50%float)
  = {| minX := 0%float; minY := 0%float; maxX := 100%float; maxY := 50%float |}
  /\ getElementBounds (Rectangle base (-100)%float 50%float)
     = {| minX := (-100)%float; minY := 0%float; maxX := 0%float; maxY := 50%float |}.
Proof. split; vm_compute; reflexivity. Qed.

(** C2 as stated fails: the bounds of the negative-width rectangle are not
    {0, 0, 100, 50}; its [maxX] is 0. *)
Lemma getElementBounds_negative_width_counterexample :
  let base : BaseElement float :=
    {| id := ""%string; el_x := 0%float; el_y := 0%float; rotation := None;
       strokeColor := None; fillColor := None; strokeWidth := None |} in
  getElementBounds (Rectangle base (-100)%float 50%float)
  <> {| minX := 0%float; minY := 0%float; maxX := 100%float; maxY := 50%float |}.
Proof.
  intros base Heq.
  apply (f_equal (fun b : Bounds float => PrimFloat.eqb b.(maxX) 100%float)) in Heq.
  vm_compute in Heq. discriminate Heq.
Qed.

Section SpreadFacts.
Import XR XRFacts.
Local Open Scope R_scope.

Lemma is_finite_inv a : is_finite a = true -> exists r, a = Fin r.
Proof. destruct a; try discriminate. intros _. eexists; reflexivity. Qed.

Lemma finite_list_inv (l : list xreal) :
  forallb is_finite l = true -> exists rs, l = map Fin rs.
Proof.
  induction l as [|a l IH]; intros Hl.
  - exists []. reflexivity.
  - simpl in Hl. apply andb_true_iff in Hl as [Ha Hrest].
    destruct (is_finite_inv _ Ha) as [r ->].
    destruct (IH Hrest) as [rs ->].
    exists (r :: rs). reflexivity.
Qed.

Lemma finite_points_xs (pts : list (Point xreal)) :
  forallb finite_point pts = true ->
  forallb is_finite (map (fun pt => pt.(x)) pts) = true
  /\ forallb is_finite (map (fun pt => pt.(y)) pts) = true.
Proof.
  induction pts as [|p pts IH]; intros Hp; [split; reflexivity|].
  simpl in Hp. apply andb_true_iff in Hp as [Hhd Htl].
  apply andb_true_iff in Hhd as [Hx Hy].
  destruct (IH Htl) as [IHx IHy].
  simpl. rewrite Hx, Hy, IHx, IHy. split; reflexivity.
Qed.

Lemma fold_min_Fin rs : forall r,
  fold_left min (map Fin rs) (Fin r) = Fin (fold_left Rmin rs r).
Proof.
  induction rs as [|a rs IH]; intros r; [reflexivity|].
  simpl. rewrite min_Fin. apply IH.
Qed.

Lemma fold_max_Fin rs : forall r,
  fold_left max (map Fin rs) (Fin r) = Fin (fold_left Rmax rs r).
Proof.
  induction rs as [|a rs IH]; intros r; [reflexivity|].
  simpl. rewrite max_Fin. apply IH.
Qed.

Lemma fold_Rmin_le rs : forall r, fold_left Rmin rs r <= r.
Proof.
  induction rs as [|a rs IH]; intros r; simpl; [lra|].
  eapply Rle_trans; [apply IH|apply Rmin_l].
Qed.

Lemma fold_Rmax_ge rs : forall r, r <= fold_left Rmax rs r.
Proof.
  induction rs as [|a rs IH]; intros r; simpl; [lra|].
  eapply Rle_trans; [apply Rmax_l|apply IH].
Qed.

Lemma min_PInf_Fin r : min PInf (Fin r) = Fin r.
Proof. reflexivity. Qed.

Lemma max_NInf_Fin r : max NInf (Fin r) = Fin r.
Proof. reflexivity. Qed.

(** The spread of a non-empty list of finite numbers: the least is finite
    and not above the greatest. *)
Lemma spread_min_le_max r rs :
  (Math_min_spread (map Fin (r :: rs)) <= Math_max_spread (map Fin (r :: rs)))%js = true.
Proof.
  unfold Math_min_spread, Math_max_spread. cbn [map fold_left].
  change (@Math_min xreal _) with min. change (@Math_max xreal _) with max.
  change (@Infinity xreal _) with PInf. change (- PInf)%js with NInf.
  rewrite min_PInf_Fin, max_NInf_Fin, fold_min_Fin, fold_max_Fin.
  change (le (Fin (fold_left Rmin rs r)) (Fin (fold_left Rmax rs r)) = true).
  rewrite le_Fin. apply Rleb_true.
  eapply Rle_trans; [apply fold_Rmin_le|apply fold_Rmax_ge].
Qed.
End SpreadFacts.

(** C9, as amended: for every shape of every variant whose coordinates
    and sizes are finite numbers and, for a Circle, whose radius is not
    negative, the bounds of [getElementBounds] satisfy [minX <= maxX] and
    [minY <= maxY] (in exact arithmetic; the width and height of a
    Rectangle or Image may be negative, and a Pencil may have no
    points). *)
Theorem getElementBounds_ordered (el : WhiteboardElement xreal) :
  finite_element el = true ->
  radius_nonneg el = true ->
  let b := getElementBounds el in
  (b.(minX) <= b.(maxX))%js = true /\ (b.(minY) <= b.(maxY))%js = true.
Proof.
  intros Hfin Hrad.
  assert (Hrect : forall bx by_ w h : R,
    XR.le (XR.min (Fin bx) (Fin (bx + w))) (XR.add (XR.min (Fin bx) (Fin (bx + w))) (Fin (Rabs w)))
    = true
    /\ XR.le (XR.min (Fin by_) (Fin (by_ + h)))
         (XR.add (XR.min (Fin by_) (Fin (by_ + h))) (Fin (Rabs h))) = true).
  { intros bx by_ w h. rewrite !XRFacts.min_Fin. cbn [XR.add].
    rewrite !XRFacts.le_Fin.
    split; apply XRFacts.Rleb_true;
      [pose proof (Rabs_pos w)|pose proof (Rabs_pos h)]; lra. }
  destruct el as [b w h|b r|b p1 p2 p3|b ex ey|b pts|b src w h];
    cbn [finite_element] in Hfin.
  - repeat (apply andb_true_iff in Hfin as [Hfin ?]).
    destruct b as [i bx by_ rot sc fc sw]; cbn [el_x el_y] in *.
    destruct bx, by_, w, h; try discriminate. apply Hrect.
  - repeat (apply andb_true_iff in Hfin as [Hfin ?]).
    destruct b as [i bx by_ rot sc fc sw]; cbn [el_x el_y] in *.
    destruct bx as [bx| | |], by_ as [by_| | |], r as [r| | |]; try discriminate.
    cbn [radius_nonneg] in Hrad. change (XR.le (Fin 0) (Fin r) = true) in Hrad.
    rewrite XRFacts.le_Fin in Hrad. unfold XR.Rleb in Hrad.
    destruct (Rle_dec 0 r) as [Hr|]; [|discriminate].
    cbn. rewrite !XRFacts.le_Fin. split; apply XRFacts.Rleb_true; lra.
  - repeat (apply andb_true_iff in Hfin as [Hfin ?]).
    unfold finite_point in *.
    repeat match goal with
           | Hp : _ && _ = true |- _ => apply andb_true_iff in Hp as [? ?]
           end.
    destruct p1 as [x1 y1], p2 as [x2 y2], p3 as [x3 y3]; cbn [x y] in *.
    destruct x1, y1, x2, y2, x3, y3; try discriminate.
    cbn [getElementBounds minX minY maxX maxY x y].
    split; apply (spread_min_le_max _ [_; _]).
  - repeat (apply andb_true_iff in Hfin as [Hfin ?]).
    destruct b as [i bx by_ rot sc fc sw]; cbn [el_x el_y] in *.
    destruct bx as [bx| | |], by_ as [by_| | |], ex as [ex| | |], ey as [ey| | |];
      try discriminate.
    cbn. rewrite !XRFacts.min_Fin, !XRFacts.max_Fin, !XRFacts.le_Fin.
    split; apply XRFacts.Rleb_true.
    + eapply Rle_trans; [apply Rmin_l|apply Rmax_l].
    + eapply Rle_trans; [apply Rmin_l|apply Rmax_l].
  - destruct pts as [|p pts].
    + cbn. rewrite XRFacts.le_Fin. split; apply XRFacts.Rleb_true; lra.
    + destruct (finite_points_xs _ Hfin) as [Hxs Hys].
      destruct (finite_list_inv _ Hxs) as [rxs Hrxs].
      destruct (finite_list_inv _ Hys) as [rys Hrys].
      cbn [getElementBounds minX minY maxX maxY].
      rewrite Hrxs, Hrys.
      destruct rxs as [|rx rxs]; [discriminate|].
      destruct rys as [|ry rys]; [discriminate|].
      split; apply spread_min_le_max.
  - repeat (apply andb_true_iff in Hfin as [Hfin ?]).
    destruct b as [i bx by_ rot sc fc sw]; cbn [el_x el_y] in *.
    destruct bx, by_, w, h; try discriminate. apply Hrect.
Qed.

Lemma getElementBounds_ordered_witness :
  let base : BaseElement xreal :=
    {| id := "c"%string; el_x := Fin 10; el_y := Fin 20; rotation := None;
       strokeColor := None; fillColor := None; strokeWidth := None |} in
  let b := getElementBounds (Circle base (Fin 5)) in
  (b.(minX) <= b.(maxX))%js = true /\ (b.(minY) <= b.(maxY))%js = true.
Proof.
  intros base.
  apply (@getElementBounds_ordered (Circle base (Fin 5))).
  - reflexivity.
  - cbn. rewrite XRFacts.le_Fin. apply XRFacts.Rleb_true. lra.
Defined.

(** C9 as stated fails for a Circle whose radius is negative: the circle
    {x:0, y:0, radius:-1} gets the bounds {minX:1, minY:1, maxX:-1,
    maxY:-1}. *)
Lemma getElementBounds_negative_radius_counterexample :
  let base : BaseElement float :=
    {| id := ""%string; el_x := 0%float; el_y := 0%float; rotation := None;
       strokeColor := None; fillColor := None; strokeWidth := None |} in
  let b := getElementBounds (Circle base (-1)%float) in
  ~ ((b.(minX) <= b.(maxX))%js = true /\ (b.(minY) <= b.(maxY))%js = true).
Proof. vm_compute. intros [Hx _]. discriminate Hx. Qed.

(** *** The rough test of the eraser is a test on the bounds *)

Section RoughBoundsExact.
Import XRFacts.
Local Open Scope R_scope.

Lemma keep_min (m p : R) : (if XR.Rltb p m then Fin p else Fin m) = Fin (Rmin m p).
Proof.
  unfold Rmin. destruct (Rle_dec m p) as [Hle|Hnle].
  - rewrite Rltb_false by lra. reflexivity.
  - rewrite Rltb_true by lra. reflexivity.
Qed.

Lemma keep_max (m p : R) : (if XR.Rltb m p then Fin p else Fin m) = Fin (Rmax m p).
Proof.
  unfold Rmax. destruct (Rle_dec m p) as [Hle|Hnle].
  - destruct (Rlt_dec m p) as [Hlt|Hnlt].
    + rewrite (Rltb_true Hlt). reflexivity.
    + rewrite (Rltb_false Hnlt). f_equal. lra.
  - rewrite Rltb_false by lra. reflexivity.
Qed.

Lemma updateBounds_Fin (a b c d px py : R) :
  updateBounds {| rminX := Fin a; rminY := Fin b; rmaxX := Fin c; rmaxY := Fin d |}
    (Fin px) (Fin py)
  = {| rminX := Fin (Rmin a px); rminY := Fin (Rmin b py);
       rmaxX := Fin (Rmax c px); rmaxY := Fin (Rmax d py) |}.
Proof. unfold updateBounds. cbn. rewrite !keep_min, !keep_max. reflexivity. Qed.

Lemma updateBounds_start (px py : R) :
  updateBounds {| rminX := Infinity; rminY := Infinity;
                  rmaxX := (- Infinity)%js; rmaxY := (- Infinity)%js |} (Fin px) (Fin py)
  = {| rminX := Fin px; rminY := Fin py; rmaxX := Fin px; rmaxY := Fin py |}.
Proof. reflexivity. Qed.

Lemma Rmin_plus_Rabs (a w : R) : Rmin a (a + w) + Rabs w = Rmax a (a + w).
Proof.
  unfold Rmin, Rmax, Rabs.
  destruct (Rle_dec a (a + w)); destruct (Rcase_abs w); lra.
Qed.

(** The fold of [updateBounds] over finite points is the fold of
    [Math.min] and [Math.max] over their coordinates. *)
Lemma fold_updateBounds_Fin (pts : list (Point xreal)) :
  forallb finite_point pts = true ->
  forall a b c d : R,
    fold_left (fun bd p => updateBounds bd p.(x) p.(y)) pts
      {| rminX := Fin a; rminY := Fin b; rmaxX := Fin c; rmaxY := Fin d |}
    = {| rminX := fold_left Math_min (map (fun pt => pt.(x)) pts) (Fin a);
         rminY := fold_left Math_min (map (fun pt => pt.(y)) pts) (Fin b);
         rmaxX := fold_left Math_max (map (fun pt => pt.(x)) pts) (Fin c);
         rmaxY := fold_left Math_max (map (fun pt => pt.(y)) pts) (Fin d) |}.
Proof.
  induction pts as [|p pts IH]; intros Hfin a b c d; [reflexivity|].
  cbn [forallb] in Hfin. apply andb_true_iff in Hfin as [Hp Hrest].
  unfold finite_point in Hp. apply andb_true_iff in Hp as [Hx Hy].
  destruct p as [qx qy]; cbn [x y] in Hx, Hy.
  destruct (is_finite_inv _ Hx) as [rx ->]. destruct (is_finite_inv _ Hy) as [ry ->].
  cbn [fold_left map x y]. rewrite updateBounds_Fin, (IH Hrest).
  change (@Math_min xreal _) with XR.min. change (@Math_max xreal _) with XR.max.
  rewrite !min_Fin, !max_Fin. reflexivity.
Qed.

(** On a finite shape, a circle of negative radius and a pencil without
    points apart, the bounds that the rough test accumulates are those of
    [getElementBounds]. *)
Lemma roughBounds_getElementBounds (el : WhiteboardElement xreal) :
  finite_element el = true ->
  radius_nonneg el = true ->
  (forall b, el <> Pencil b []) ->
  let rb := roughBounds el in
  let bd := getElementBounds el in
  rb.(rminX) = bd.(minX) /\ rb.(rminY) = bd.(minY)
  /\ rb.(rmaxX) = bd.(maxX) /\ rb.(rmaxY) = bd.(maxY).
Proof.
  intros Hfin Hrad Hpts.
  assert (Hrect : forall bx by_ w h : R,
    let rb := updateBounds
                (updateBounds {| rminX := Infinity; rminY := Infinity;
                                 rmaxX := (- Infinity)%js; rmaxY := (- Infinity)%js |}
                   (Fin bx) (Fin by_)) (Fin (bx + w)) (Fin (by_ + h)) in
    rb.(rminX) = XR.min (Fin bx) (Fin (bx + w))
    /\ rb.(rminY) = XR.min (Fin by_) (Fin (by_ + h))
    /\ rb.(rmaxX) = XR.add (XR.min (Fin bx) (Fin (bx + w))) (Fin (Rabs w))
    /\ rb.(rmaxY) = XR.add (XR.min (Fin by_) (Fin (by_ + h))) (Fin (Rabs h))).
  { intros bx by_ w h. rewrite updateBounds_start, updateBounds_Fin.
    cbn [rminX rminY rmaxX rmaxY]. rewrite !min_Fin. cbn [XR.add].
    rewrite !Rmin_plus_Rabs. repeat split; reflexivity. }
  destruct el as [b w h|b r|b p1 p2 p3|b ex ey|b pts|b src w h];
    cbn [finite_element] in Hfin.
  - repeat (apply andb_true_iff in Hfin as [Hfin ?]).
    destruct b as [i bx by_ rot sc fc sw]; cbn [el_x el_y] in *.
    destruct bx, by_, w, h; try discriminate. apply Hrect.
  - repeat (apply andb_true_iff in Hfin as [Hfin ?]).
    destruct b as [i bx by_ rot sc fc sw]; cbn [el_x el_y] in *.
    destruct bx as [bx| | |], by_ as [by_| | |], r as [r| | |]; try discriminate.
    cbn [radius_nonneg] in Hrad. change (XR.le (Fin 0) (Fin r) = true) in Hrad.
    rewrite le_Fin in Hrad. unfold XR.Rleb in Hrad.
    destruct (Rle_dec 0 r) as [Hr|]; [|discriminate].
    cbn [roughBounds getElementBounds el_x el_y].
    change (Fin bx - Fin r)%js with (Fin (bx + - r)).
    change (Fin by_ - Fin r)%js with (Fin (by_ + - r)).
    change (Fin bx + Fin r)%js with (Fin (bx + r)).
    change (Fin by_ + Fin r)%js with (Fin (by_ + r)).
    rewrite updateBounds_start, updateBounds_Fin.
    cbn [rminX rminY rmaxX rmaxY minX minY maxX maxY].
    rewrite !Rmin_left, !Rmax_right by lra. repeat split; reflexivity.
  - repeat (apply andb_true_iff in Hfin as [Hfin ?]).
    unfold finite_point in *.
    repeat match goal with
           | Hp : _ && _ = true |- _ => apply andb_true_iff in Hp as [? ?]
           end.
    destruct p1 as [x1 y1], p2 as [x2 y2], p3 as [x3 y3]; cbn [x y] in *.
    destruct x1, y1, x2, y2, x3, y3; try discriminate.
    cbn [roughBounds getElementBounds x y].
    rewrite updateBounds_start, !updateBounds_Fin.
    cbn [rminX rminY rmaxX rmaxY minX minY maxX maxY].
    unfold Math_min_spread, Math_max_spread. cbn [fold_left].
    change (@Math_min xreal _) with XR.min. change (@Math_max xreal _) with XR.max.
    change (@Infinity xreal _) with PInf. change (- PInf)%js with NInf.
    rewrite !min_PInf_Fin, !max_NInf_Fin, !min_Fin, !max_Fin.
    repeat split; reflexivity.
  - repeat (apply andb_true_iff in Hfin as [Hfin ?]).
    destruct b as [i bx by_ rot sc fc sw]; cbn [el_x el_y] in *.
    destruct bx as [bx| | |], by_ as [by_| | |], ex as [ex| | |], ey as [ey| | |];
      try discriminate.
    cbn [roughBounds getElementBounds el_x el_y].
    rewrite updateBounds_start, updateBounds_Fin.
    cbn [rminX rminY rmaxX rmaxY minX minY maxX maxY].
    change (@Math_min xreal _) with XR.min. change (@Math_max xreal _) with XR.max.
    rewrite !min_Fin, !max_Fin. repeat split; reflexivity.
  - destruct pts as [|p pts]; [contradiction (Hpts b); reflexivity|].
    cbn [forallb] in Hfin. apply andb_true_iff in Hfin as [Hp Hrest].
    unfold finite_point in Hp. apply andb_true_iff in Hp as [Hx Hy].
    destruct p as [qx qy]; cbn [x y] in Hx, Hy.
    destruct (is_finite_inv _ Hx) as [rx ->]. destruct (is_finite_inv _ Hy) as [ry ->].
    cbn [roughBounds getElementBounds fold_left map x y].
    rewrite updateBounds_start, (fold_updateBounds_Fin _ Hrest).
    cbn [rminX rminY rmaxX rmaxY minX minY maxX maxY].
    unfold Math_min_spread, Math_max_spread. cbn [fold_left].
    repeat split; reflexivity.
  - repeat (apply andb_true_iff in Hfin as [Hfin ?]).
    destruct b as [i bx by_ rot sc fc sw]; cbn [el_x el_y] in *.
    destruct bx, by_, w, h; try discriminate. apply Hrect.
Qed.

(** A pencil without points is never roughly intersecting: its bounds
    stay at the infinities. *)
Lemma empty_pencil_never_intersecting (b : BaseElement xreal) (eraser : Point xreal)
    (radius : xreal) :
  isElementRoughlyIntersecting (Pencil b []) eraser radius = false.
Proof.
  unfold isElementRoughlyIntersecting. cbn [roughBounds fold_left rminX rminY rmaxX rmaxY].
  change (@Infinity xreal _) with PInf. change (- PInf)%js with NInf.
  destruct (strokeWidth_or (Pencil b []) (lit 2) + radius)%js as [pad| | |];
    destruct eraser as [[ex| | |] ey]; reflexivity.
Qed.

(** The rough test of the eraser, read on the bounds of the shape: the
    eraser position is within the bounds of [getElementBounds] widened by
    [(el.strokeWidth || 2) + radius]. *)
Lemma isElementRoughlyIntersecting_bounds (el : WhiteboardElement xreal)
    (eraser : Point xreal) (radius : xreal) :
  finite_element el = true ->
  radius_nonneg el = true ->
  isElementRoughlyIntersecting el eraser radius
  = match el with
    | Pencil _ [] => false
    | _ => isPointInBounds eraser (getElementBounds el)
             (strokeWidth_or el (lit 2) + radius)%js
    end.
Proof.
  intros Hfin Hrad.
  assert (Hgen : (forall b, el <> Pencil b []) ->
                 isElementRoughlyIntersecting el eraser radius
                 = isPointInBounds eraser (getElementBounds el)
                     (strokeWidth_or el (lit 2) + radius)%js).
  { intros Hpts.
    destruct (roughBounds_getElementBounds Hfin Hrad Hpts) as [H1 [H2 [H3 H4]]].
    unfold isElementRoughlyIntersecting, isPointInBounds.
    rewrite H1, H2, H3, H4. reflexivity. }
  destruct el as [b w h|b r|b p1 p2 p3|b ex ey|b pts|b src w h];
    try (apply Hgen; intros b' Hb'; discriminate Hb').
  destruct pts as [|p pts].
  - apply empty_pencil_never_intersecting.
  - apply Hgen. intros b' Hb'. discriminate Hb'.
Qed.
End RoughBoundsExact.

(** ** Hit testing *)

(** C10: a Pencil with fewer than two points is never hit, whatever the
    query point and the zoom, in every number model: the loop over the
    pairs of consecutive points has no pair to test. *)
Theorem hitTestElement_short_pencil {N : Type} `{JsNumber N}
    (base : BaseElement N) (points : list (Point N)) (pos : Point N) (zoom : N) :
  (List.length points < 2)%nat ->
  hitTestElement (Pencil base points) pos zoom = false.
Proof.
  intros Hlen. unfold hitTestElement.
  destruct (negb (isPointInBounds pos (getElementBounds (Pencil base points))
                    (lit 10 / zoom)%js)); [reflexivity|].
  destruct points as [|a [|b rest]]; [reflexivity|reflexivity|].
  simpl in Hlen. lia.
Qed.

(** The query point is the one recorded point of the pencil, which passes
    the bounds check, and is still not hit. *)
Lemma hitTestElement_short_pencil_witness :
  let base : BaseElement float :=
    {| id := "p"%string; el_x := 3%float; el_y := 4%float; rotation := None;
       strokeColor := None; fillColor := None; strokeWidth := Some 2%float |} in
  let pt : Point float := {| x := 3%float; y := 4%float |} in
  isPointInBounds pt (getElementBounds (Pencil base [pt])) (10 / 1)%float = true
  /\ hitTestElement (Pencil base [pt]) pt 1%float = false.
Proof.
  intros base pt. split; [vm_compute; reflexivity|].
  apply (@hitTestElement_short_pencil float _ base [pt] pt 1%float).
  simpl. lia.
Defined.

Section NearLineExact.
Import XR XRFacts.
Local Open Scope R_scope.

Lemma seg_len2_pos ax ay bx by_ : (ax, ay) <> (bx, by_) -> 0 < seg_len2 ax ay bx by_.
Proof.
  intros Hne. unfold seg_len2.
  destruct (Req_dec_T ax bx) as [Hx|Hx]; destruct (Req_dec_T ay by_) as [Hy|Hy].
  - subst. contradiction Hne. reflexivity.
  - assert (0 < (ay - by_) * (ay - by_)) by nra. nra.
  - assert (0 < (ax - bx) * (ax - bx)) by nra. nra.
  - assert (0 < (ax - bx) * (ax - bx)) by nra. nra.
Qed.

Lemma distance_Fin (ax ay bx by_ : R) :
  distance {| x := Fin ax; y := Fin ay |} {| x := Fin bx; y := Fin by_ |}
  = Fin (R_sqrt.sqrt (seg_len2 ax ay bx by_)).
Proof.
  unfold distance, Math_pow2. cbn.
  rewrite sqrt_Fin; [reflexivity|].
  pose proof (Rle_0_sqr (ax + - bx)) as Hsx. pose proof (Rle_0_sqr (ay + - by_)) as Hsy.
  unfold Rsqr in Hsx, Hsy. lra.
Qed.

(** [isPointNearLine] on finite numbers and a segment of two distinct
    points: the distance to the line is below the threshold and the point
    is in the box of the segment, widened by the threshold. *)
Lemma isPointNearLine_Fin (px py ax ay bx by_ t : R) :
  (ax, ay) <> (bx, by_) ->
  isPointNearLine {| x := Fin px; y := Fin py |} {| x := Fin ax; y := Fin ay |}
    {| x := Fin bx; y := Fin by_ |} (Fin t)
  = Rltb (Rabs (seg_cross px py ax ay bx by_) / R_sqrt.sqrt (seg_len2 ax ay bx by_)) t
    && Rleb (Rmin ax bx - t) px && Rleb px (Rmax ax bx + t)
    && Rleb (Rmin ay by_ - t) py && Rleb py (Rmax ay by_ + t).
Proof.
  intros Hne. pose proof (seg_len2_pos Hne) as Hpos.
  pose proof (sqrt_lt_R0 _ Hpos) as Hlen.
  unfold isPointNearLine. rewrite distance_Fin.
  change (Fin (R_sqrt.sqrt (seg_len2 ax ay bx by_)) === lit 0)%js
    with (Reqb (R_sqrt.sqrt (seg_len2 ax ay bx by_)) 0).
  rewrite Reqb_false by lra.
  unfold lineDistance. cbn.
  rewrite div_Fin by lra.
  rewrite !min_Fin, !max_Fin. cbn [XR.sub XR.add XR.neg XR.lt].
  rewrite !le_Fin. reflexivity.
Qed.
End NearLineExact.



(** The same scenario run in binary64. *)
Lemma hitTestElement_arrow_binary64 :
  let arrow : WhiteboardElement float :=
    Arrow {| id := "a"%string; el_x := 0%float; el_y := 0%float; rotation := None;
             strokeColor := None; fillColor := None; strokeWidth := None |}
          100%float 0%float in
  let pos : Point float := {| x := 50%float; y := 9%float |} in
  hitTestElement arrow pos 1%float = true /\ hitTestElement arrow pos 2%float = false.
Proof. split; vm_compute; reflexivity. Qed.

(** ** Triangle angles *)

Section AnglesExact.
Local Open Scope js_scope.

Lemma num_or_zero_not_NaN (v : xreal) : isNaN (num_or v (lit 0)) = false.
Proof.
  unfold num_or. destruct (truthy v) eqn:Htruthy.
  - unfold truthy in Htruthy. apply andb_true_iff in Htruthy as [_ Hnan].
    apply negb_true_iff in Hnan. exact Hnan.
  - unfold isNaN. cbn. rewrite XRFacts.Reqb_true by reflexivity. reflexivity.
Qed.

Lemma radToDeg_NaN : radToDeg (NaN : xreal) = NaN.
Proof. unfold radToDeg. cbn. destruct (XR.div (Fin 180) (Fin PI)); reflexivity. Qed.

Lemma acos_undefined_or_outside (v : xreal) :
  undefined_or_outside v = true -> Math_acos v = NaN.
Proof.
  destruct v as [r| | |]; try reflexivity.
  unfold undefined_or_outside, isNaN. cbn.
  rewrite XRFacts.Reqb_true by reflexivity. cbn.
  intros Hout. rewrite Hout. reflexivity.
Qed.

(** An angle is never NaN, and is 0 where its cosine argument is undefined
    or outside [-1, 1]. *)
Lemma angle_degrades_to_zero (v : xreal) :
  isNaN (num_or (radToDeg (Math_acos v)) (lit 0)) = false
  /\ (undefined_or_outside v = true ->
      num_or (radToDeg (Math_acos v)) (lit 0) = lit 0).
Proof.
  split; [apply num_or_zero_not_NaN|].
  intros Hout. rewrite (acos_undefined_or_outside _ Hout), radToDeg_NaN.
  reflexivity.
Qed.
End AnglesExact.

(** C8: for every three points, finite or not, collinear or coincident,
    the angles of [getTriangleAngles] are never NaN, and an angle whose
    cosine argument is undefined (NaN, as 0/0 for a side of length zero)
    or outside [-1, 1] is 0. *)
Theorem getTriangleAngles_never_NaN (p1 p2 p3 : Point xreal) :
  let r := getTriangleAngles p1 p2 p3 in
  let a2 := Math_pow2 (distance p2 p3) in
  let b2 := Math_pow2 (distance p1 p3) in
  let c2 := Math_pow2 (distance p1 p2) in
  (isNaN r.(ang_A) = false /\ isNaN r.(ang_B) = false /\ isNaN r.(ang_C) = false)
  /\ (undefined_or_outside (cosineArg a2 b2 c2 r.(side_b) r.(side_c)) = true ->
      r.(ang_A) = lit 0)
  /\ (undefined_or_outside (cosineArg b2 a2 c2 r.(side_a) r.(side_c)) = true ->
      r.(ang_B) = lit 0)
  /\ (undefined_or_outside (cosineArg c2 a2 b2 r.(side_a) r.(side_b)) = true ->
      r.(ang_C) = lit 0).
Proof.
  intros r a2 b2 c2. unfold r, getTriangleAngles.
  cbn [ang_A ang_B ang_C side_a side_b side_c].
  fold a2 b2 c2.
  repeat split;
    first [ apply (proj1 (angle_degrades_to_zero _))
          | apply (proj2 (angle_degrades_to_zero _)) ].
Qed.

(** Three coincident points: every side is 0, every cosine argument is
    0/0, and every angle is 0. *)
Lemma getTriangleAngles_coincident (px py : R) :
  let p : Point xreal := {| x := Fin px; y := Fin py |} in
  let r := getTriangleAngles p p p in
  cosineArg (Math_pow2 (distance p p)) (Math_pow2 (distance p p))
    (Math_pow2 (distance p p)) r.(side_b) r.(side_c) = NaN
  /\ r.(ang_A) = Fin 0 /\ r.(ang_B) = Fin 0 /\ r.(ang_C) = Fin 0.
Proof.
  intros p r.
  assert (Hd : distance p p = Fin 0).
  { unfold p. rewrite distance_Fin. unfold seg_len2.
    replace ((px - px) * (px - px) + (py - py) * (py - py))%R with 0%R by lra.
    rewrite sqrt_0. reflexivity. }
  assert (Harg : cosineArg (Math_pow2 (distance p p)) (Math_pow2 (distance p p))
                   (Math_pow2 (distance p p))
                   (Math_sqrt (Math_pow2 (distance p p)))
                   (Math_sqrt (Math_pow2 (distance p p))) = NaN).
  { rewrite Hd. unfold cosineArg, Math_pow2. cbn.
    rewrite XRFacts.sqrt_Fin by lra. cbn.
    replace (0 * 0)%R with 0%R by lra. rewrite sqrt_0.
    replace (0 + 0 + - 0)%R with 0%R by lra.
    replace (2 * 0 * 0)%R with 0%R by lra.
    apply XRFacts.div_zero_zero. }
  unfold r, getTriangleAngles. cbn [ang_A ang_B ang_C side_a side_b side_c].
  rewrite Harg. repeat split; reflexivity.
Qed.

(** In binary64, whatever the host's [Math.acos] and [Math.PI] are, no
    angle is NaN. *)
Lemma getTriangleAngles_never_NaN_binary64 `{JsMath float} (p1 p2 p3 : Point float) :
  let r := getTriangleAngles p1 p2 p3 in
  isNaN r.(ang_A) = false /\ isNaN r.(ang_B) = false /\ isNaN r.(ang_C) = false.
Proof.
  assert (Hor : forall v : float, isNaN (num_or v (lit 0)) = false).
  { intros v. unfold num_or. destruct (truthy v) eqn:Htruthy.
    - unfold truthy in Htruthy. apply andb_true_iff in Htruthy as [_ Hnan].
      apply negb_true_iff in Hnan. exact Hnan.
    - vm_compute. reflexivity. }
  intros r. unfold r, getTriangleAngles. cbn [ang_A ang_B ang_C].
  repeat split; apply Hor.
Qed.

(** ** Interpolation *)

Section InterpolateExact.
Local Open Scope R_scope.

(** The loop counter after [i] increments. *)
Lemma counter_succ (i : nat) : (Fin (INR i) + lit 1)%js = Fin (INR (S i)).
Proof. rewrite S_INR. reflexivity. Qed.

Lemma counter_lt (i : nat) (k : Z) :
  (Fin (INR i) < Fin (IZR k))%js = (Z.of_nat i <? k)%Z.
Proof.
  cbn. rewrite INR_IZR_INZ.
  destruct (Z.ltb_spec (Z.of_nat i) k) as [Hlt|Hge].
  - apply XRFacts.Rltb_true, IZR_lt, Hlt.
  - apply XRFacts.Rltb_false. apply Rle_not_lt, IZR_le, Hge.
Qed.

(** With a finite step count [k] the loop ends after [k - i] more rounds,
    each of which pushes one point. *)
Lemma interpolate_loop_finite (p1 p2 : Point xreal) (k : Z) (m : nat) :
  forall (i : nat) (acc : list (Point xreal)) (fuel : nat),
    m = Z.to_nat (k - Z.of_nat i) ->
    (m < fuel)%nat ->
    exists pts,
      interpolate_loop fuel p1 p2 (Fin (IZR k)) (Fin (INR i)) acc = Returned (acc ++ pts)
      /\ List.length pts = m.
Proof.
  induction m as [|m IH]; intros i acc fuel Hm Hfuel.
  - destruct fuel as [|fuel]; [lia|].
    exists []. cbn [interpolate_loop].
    rewrite counter_lt.
    destruct (Z.ltb_spec (Z.of_nat i) k); [lia|].
    rewrite app_nil_r. split; reflexivity.
  - destruct fuel as [|fuel]; [lia|].
    cbn [interpolate_loop]. rewrite counter_lt.
    destruct (Z.ltb_spec (Z.of_nat i) k); [|lia].
    rewrite counter_succ.
    edestruct (IH (S i)) as [pts [Hrun Hlen]]; [lia| |].
    2: { rewrite Hrun, <- app_assoc. eexists. split; [reflexivity|].
         simpl. rewrite Hlen. reflexivity. }
    lia.
Qed.


Lemma steps_Fin (x1 y1 x2 y2 r : R) :
  r <> 0 ->
  Math_ceil (distance {| x := Fin x1; y := Fin y1 |} {| x := Fin x2; y := Fin y2 |}
             / Fin r)%js
  = Fin (IZR (XR.Rceil (R_sqrt.sqrt (seg_len2 x1 y1 x2 y2) / r))).
Proof.
  intros Hr. rewrite distance_Fin.
  change (Math_ceil (XR.div (Fin (R_sqrt.sqrt (seg_len2 x1 y1 x2 y2))) (Fin r))
          = Fin (IZR (XR.Rceil (R_sqrt.sqrt (seg_len2 x1 y1 x2 y2) / r)))).
  rewrite (XRFacts.div_Fin _ Hr). reflexivity.
Qed.

(** Spacing 0 and twice the same point: the quotient 0/0 is NaN, the test
    [0 < NaN] fails at once and no point is returned. *)
Lemma interpolatePoints_zero_spacing_same_point (x1 y1 : R) (fuel : nat) :
  interpolatePoints (S fuel) {| x := Fin x1; y := Fin y1 |} {| x := Fin x1; y := Fin y1 |}
    (Fin 0) = Returned [].
Proof.
  unfold interpolatePoints. rewrite distance_Fin. unfold seg_len2.
  replace ((x1 - x1) * (x1 - x1) + (y1 - y1) * (y1 - y1)) with 0 by lra.
  rewrite sqrt_0.
  change (Math_ceil (Fin 0 / Fin 0)%js) with (XR.ceil (XR.div (Fin 0) (Fin 0))).
  rewrite XRFacts.div_zero_zero. reflexivity.
Qed.
End InterpolateExact.

(** In exact arithmetic, for finite points and every finite spacing other
    than 0, negative ones included, [interpolatePoints] ends: with
    [ceil(distance / spacing)] points for a positive spacing and with none
    for a negative one. *)
Lemma interpolatePoints_exact_arithmetic (x1 y1 x2 y2 r : R) :
  r <> 0%R ->
  let p1 : Point xreal := {| x := Fin x1; y := Fin y1 |} in
  let p2 : Point xreal := {| x := Fin x2; y := Fin y2 |} in
  let n := Z.to_nat (XR.Rceil (R_sqrt.sqrt (seg_len2 x1 y1 x2 y2) / r)) in
  ((r < 0)%R -> n = 0%nat)
  /\ forall fuel : nat, (n < fuel)%nat ->
       exists pts, interpolatePoints fuel p1 p2 (Fin r) = Returned pts
                   /\ List.length pts = n.
Proof.
  intros Hr p1 p2 n. split.
  - intros Hneg. unfold n.
    assert (Hq : (R_sqrt.sqrt (seg_len2 x1 y1 x2 y2) / r <= 0)%R).
    { pose proof (sqrt_pos (seg_len2 x1 y1 x2 y2)) as Hd.
      unfold Rdiv. pose proof (Rinv_lt_0_compat r Hneg) as Hinv. nra. }
    pose proof (XRFacts.Rceil_nonpos Hq). lia.
  - intros fuel Hfuel. unfold interpolatePoints, p1, p2.
    rewrite (steps_Fin _ _ _ _ Hr).
    destruct (@interpolate_loop_finite {| x := Fin x1; y := Fin y1 |}
                {| x := Fin x2; y := Fin y2 |}
                (XR.Rceil (R_sqrt.sqrt (seg_len2 x1 y1 x2 y2) / r)) n 0 [] fuel)
      as [pts [Hrun Hlen]]; [unfold n; f_equal; simpl; lia|exact Hfuel|].
    exists pts. split; [exact Hrun|exact Hlen].
Qed.

Section InterpolateLoop.
Context {N : Type} `{JsNumber N}.
Variables p1 p2 : Point N.
Variable steps : N.





(** A counter that the increment leaves as it is, and that is below
    [steps], stays there: the loop does not return. *)
Lemma interpolate_loop_stuck (c : N) :
  js_add c (lit 1) = c ->
  js_lt c steps = true ->
  forall (fuel : nat) (acc : list (Point N)),
    interpolate_loop fuel p1 p2 steps c acc = OutOfFuel.
Proof.
  intros Hfix Hbelow. induction fuel as [|fuel IH]; intros acc; [reflexivity|].
  cbn [interpolate_loop]. rewrite Hbelow, Hfix. apply IH.
Qed.
End InterpolateLoop.




(** In binary64 the same call has [steps = Infinity] and is still running
    after a thousand rounds; a negative spacing returns no point. *)
Lemma interpolatePoints_binary64_runs :
  let p1 : Point float := {| x := 0%float; y := 0%float |} in
  let p2 : Point float := {| x := 1%float; y := 0%float |} in
  Math_ceil (distance p1 p2 / 0%float)%js = PrimFloat.infinity
  /\ interpolatePoints 1000 p1 p2 0%float = OutOfFuel
  /\ interpolatePoints 1000 p1 p2 (-5)%float = Returned [].
Proof. repeat split; vm_compute; reflexivity. Qed.

(** ** The eraser *)

Section EraseMiss.
Context {N : Type} `{JsNumber N} `{JsMath N}.
Variable G : Type.
Variable generateId : G -> string * G.
Variable view : ViewState N.
Variable activeColor : string.
Variable activeStrokeWidth : N.

(** The loop passes on, untouched and in order, the shapes that the rough
    test rejects; it neither rasterizes them nor draws an id. *)
Lemma erase_loop_all_missed (fuel : nat) (worldPos : Point N) (radius : N)
    (rest : list (WhiteboardElement N)) :
  Forall (fun el => isElementRoughlyIntersecting el worldPos radius = false) rest ->
  forall (newList : list (WhiteboardElement N)) (hasChanges : bool) (g : G),
    erase_loop generateId view activeColor activeStrokeWidth fuel worldPos radius
      rest newList hasChanges g
    = Returned (newList ++ rest, hasChanges, g).
Proof.
  induction 1 as [|el rest Hmiss _ IH]; intros newList hasChanges g.
  - cbn [erase_loop]. rewrite app_nil_r. reflexivity.
  - cbn [erase_loop]. rewrite Hmiss. cbn [negb].
    rewrite IH, <- app_assoc. reflexivity.
Qed.
End EraseMiss.


(** The same on the bounds of [getElementBounds], for finite shapes in
    exact arithmetic: an eraser position outside the bounds of every shape,
    widened by [(el.strokeWidth || 2) + ERASER_RADIUS / view.scale], leaves
    the list as it is. *)
Lemma performErase_outside_bounds
    (G : Type) (generateId : G -> string * G) (view : ViewState xreal)
    (activeColor : string) (activeStrokeWidth : xreal)
    (fuel : nat) (worldPos : Point xreal) (currentList : list (WhiteboardElement xreal))
    (g : G) :
  Forall (fun el =>
            finite_element el = true /\ radius_nonneg el = true
            /\ isPointInBounds worldPos (getElementBounds el)
                 (strokeWidth_or el (lit 2) + ERASER_RADIUS / view.(scale))%js = false)
         currentList ->
  performErase generateId view activeColor activeStrokeWidth fuel worldPos currentList g
  = Returned (currentList, g).
Proof.
  intros Hout. unfold performErase.
  rewrite (@erase_loop_all_missed xreal _ _ G generateId view activeColor
             activeStrokeWidth fuel worldPos _ currentList).
  - reflexivity.
  - eapply Forall_impl; [|exact Hout].
    intros el [Hfin [Hrad Hbox]].
    rewrite (@isElementRoughlyIntersecting_bounds el worldPos _ Hfin Hrad).
    destruct el as [b w h|b r|b p1 p2 p3|b ex ey|b [|p pts]|b src w h];
      first [exact Hbox | reflexivity].
Qed.

(** Evaluate an expression of finite numbers in [xreal]. *)
Ltac xr_eval :=
  repeat (progress
            (cbn;
             rewrite ?XRFacts.le_Fin, ?XRFacts.min_Fin, ?XRFacts.max_Fin;
             try (rewrite XRFacts.div_Fin by lra);
             xr_decide)).



(** * Further properties of the code *)

(** ** The undo history: invariant, round trips, push *)

Section HistoryMore.
Variable Snapshot : Type.
Implicit Types (h : list Snapshot) (s : HistoryState Snapshot).

Lemma slice0_prefix h (i : Z) :
  (0 <= i < Z.of_nat (List.length h))%Z ->
  slice0 h (i + 1) = firstn (S (Z.to_nat i)) h.
Proof.
  intros Hi. unfold slice0.
  destruct (Z.ltb_spec (i + 1) 0); [lia|].
  f_equal. lia.
Qed.

Lemma nth_error_snoc h (e : Snapshot) : nth_error (h ++ [e]) (List.length h) = Some e.
Proof. rewrite nth_error_app2 by lia. rewrite Nat.sub_diag. reflexivity. Qed.

(** What a push computes from a well-formed state: the entries up to the
    current one, then the new one, cut to the last 50. *)
Lemma push_wf_shape (e : Snapshot) s :
  wf_history s ->
  let pre := firstn (S (Z.to_nat s.(currentIndex))) s.(history) in
  push e s = {| history := lastn 50 (pre ++ [e]);
                currentIndex := Z.of_nat (List.length (lastn 50 (pre ++ [e]))) - 1 |}
  /\ List.length pre = S (Z.to_nat s.(currentIndex)).
Proof.
  intros [Hlen Hidx] pre.
  assert (Hpre : List.length pre = S (Z.to_nat s.(currentIndex))).
  { unfold pre. rewrite length_firstn. lia. }
  split; [|exact Hpre].
  unfold push, pushToHistory. rewrite (slice0_prefix _ Hidx). fold pre.
  destruct (Nat.ltb_spec 50 (List.length (pre ++ [e]))) as [Hover|Hfit].
  - rewrite length_app in Hover; simpl in Hover.
    assert (Hcut : lastn 50 (pre ++ [e]) = tl (pre ++ [e])).
    { unfold lastn. rewrite length_app; simpl.
      replace (List.length pre + 1 - 50)%nat with 1%nat by lia. reflexivity. }
    rewrite Hcut. reflexivity.
  - rewrite lastn_short by assumption. reflexivity.
Qed.

Lemma push_keeps_wf (e : Snapshot) s : wf_history s -> wf_history (push e s).
Proof.
  intros Hwf. destruct (push_wf_shape e Hwf) as [Hpush Hpre].
  destruct Hwf as [Hlen Hidx].
  rewrite Hpush. unfold wf_history. cbn [history currentIndex].
  rewrite lastn_length, length_app, Hpre. cbn [List.length]. lia.
Qed.

Lemma undo_keeps_wf s : wf_history s -> wf_history (do_undo s).
Proof.
  intros [Hlen Hidx]. unfold do_undo, undo.
  destruct (Z.ltb_spec 0 s.(currentIndex)); cbn [fst];
    unfold wf_history; cbn [history currentIndex]; lia.
Qed.

Lemma redo_keeps_wf s : wf_history s -> wf_history (do_redo s).
Proof.
  intros [Hlen Hidx]. unfold do_redo, redo.
  destruct (Z.ltb_spec s.(currentIndex) (Z.of_nat (List.length s.(history)) - 1));
    cbn [fst]; unfold wf_history; cbn [history currentIndex]; lia.
Qed.

(** X1: with one call per render, each made on the callbacks of the
    render that follows the previous call so that the state it closes over
    is the current one, every run of pushes, undos and redos from the
    initial history keeps the stack between 1 and 50 snapshots and the
    current index inside it, so there is always a current snapshot.  (Two
    undos on the callbacks of one render can leave the index at -1: see
    [undo_twice_same_render].) *)
Theorem history_invariant (initialElements : Snapshot)
    (actions : list (HistoryAction Snapshot)) :
  let s := fold_left (@act Snapshot) actions (useHistory initialElements) in
  wf_history s /\ exists current, elements s = Some current.
Proof.
  intros s.
  assert (Hwf : wf_history s).
  { unfold s. clear s.
    assert (Hrun : forall acts s0, wf_history s0 ->
                     wf_history (fold_left (@act Snapshot) acts s0)).
    { induction acts as [|a acts IH]; intros s0 Hs0; [exact Hs0|].
      cbn [fold_left]. apply IH.
      destruct a; cbn [act];
        [apply push_keeps_wf|apply undo_keeps_wf|apply redo_keeps_wf]; exact Hs0. }
    apply Hrun. unfold wf_history; simpl. lia. }
  split; [exact Hwf|].
  destruct Hwf as [Hlen Hidx]. unfold elements, index.
  destruct (Z.ltb_spec s.(currentIndex) 0); [lia|].
  destruct (nth_error s.(history) (Z.to_nat s.(currentIndex))) as [c|] eqn:Hnth.
  - exists c. reflexivity.
  - apply nth_error_None in Hnth. lia.
Qed.

(** Two undos on the callbacks of one render, at index 1: both pass the
    guard on the index of that render, both step the index down, and no
    snapshot is current after them. *)
Lemma undo_twice_same_render (r : HistoryState Snapshot) :
  r.(currentIndex) = 1%Z ->
  let s := fst (undo r (fst (undo r r))) in
  s.(currentIndex) = (-1)%Z /\ elements s = None.
Proof.
  destruct r as [h i]. cbn [currentIndex]. intros Hidx. subst i.
  split; reflexivity.
Qed.

(** Two pushes on the callbacks of one render: the second overwrites what
    the first has set. *)
Lemma push_twice_same_render (r : HistoryState Snapshot) (e1 e2 : Snapshot) :
  pushToHistory r e2 (pushToHistory r e1 r) = pushToHistory r e2 r.
Proof. reflexivity. Qed.

(** X2: undo and redo are inverse to each other: where an undo is
    possible, a redo after it restores the state, and where a redo is
    possible, an undo after it does. *)
Theorem undo_redo_round_trip s :
  wf_history s ->
  (canUndo s = true -> do_redo (do_undo s) = s)
  /\ (canRedo s = true -> do_undo (do_redo s) = s).
Proof.
  intros [Hlen Hidx]. destruct s as [h i]. cbn [history currentIndex] in *.
  unfold canUndo, canRedo, do_redo, do_undo, undo, redo. cbn [history currentIndex].
  split; intros Hcan.
  - rewrite Hcan. cbn [fst history currentIndex].
    destruct (Z.ltb_spec (i - 1) (Z.of_nat (List.length h) - 1)); [|lia].
    cbn [fst history currentIndex]. f_equal. lia.
  - rewrite Hcan. cbn [fst history currentIndex].
    destruct (Z.ltb_spec 0 (i + 1)); [|lia].
    cbn [fst history currentIndex]. f_equal. lia.
Qed.

(** X3: what undo and redo return is the snapshot that becomes current;
    where no step is possible they return nothing and leave the state as
    it is. *)
Theorem undo_redo_return_current s :
  wf_history s ->
  (if canUndo s
   then exists snap, snd (undo s s) = Some snap /\ elements (do_undo s) = Some snap
   else undo s s = (s, None))
  /\ (if canRedo s
      then exists snap, snd (redo s s) = Some snap /\ elements (do_redo s) = Some snap
      else redo s s = (s, None)).
Proof.
  intros [Hlen Hidx]. destruct s as [h i]. cbn [history currentIndex] in *.
  unfold canUndo, canRedo, do_redo, do_undo, undo, redo, elements, index.
  cbn [history currentIndex].
  split.
  - destruct (Z.ltb_spec 0 i) as [Hpos|Hzero]; [|reflexivity].
    cbn [fst snd history currentIndex].
    destruct (Z.ltb_spec (i - 1) 0); [lia|].
    destruct (nth_error h (Z.to_nat (i - 1))) as [c|] eqn:Hnth.
    + exists c. split; reflexivity.
    + apply nth_error_None in Hnth. lia.
  - destruct (Z.ltb_spec i (Z.of_nat (List.length h) - 1)) as [Hlt|Hge]; [|reflexivity].
    cbn [fst snd history currentIndex].
    destruct (Z.ltb_spec (i + 1) 0); [lia|].
    destruct (nth_error h (Z.to_nat (i + 1))) as [c|] eqn:Hnth.
    + exists c. split; reflexivity.
    + apply nth_error_None in Hnth. lia.
Qed.

(** X4: a push, from any place of the stack, makes the pushed snapshot
    the current one, leaves nothing to redo and something to undo, and an
    undo right after it shows the snapshot that was current before the
    push, also when the push evicted the oldest entry. *)
Theorem push_then_undo (e : Snapshot) s :
  wf_history s ->
  elements (push e s) = Some e
  /\ canRedo (push e s) = false
  /\ canUndo (push e s) = true
  /\ elements (do_undo (push e s)) = elements s.
Proof.
  intros Hwf. destruct (push_wf_shape e Hwf) as [Hpush Hpre].
  destruct Hwf as [Hlen Hidx].
  set (pre := firstn (S (Z.to_nat s.(currentIndex))) s.(history)) in *.
  assert (Hcur : nth_error pre (Z.to_nat s.(currentIndex))
                 = nth_error s.(history) (Z.to_nat s.(currentIndex))).
  { unfold pre. rewrite nth_error_firstn.
    destruct (Nat.ltb_spec (Z.to_nat s.(currentIndex)) (S (Z.to_nat s.(currentIndex))));
      [reflexivity|lia]. }
  assert (Hshape : exists kept,
             lastn 50 (pre ++ [e]) = kept ++ [e]
             /\ (1 <= List.length kept)%nat
             /\ nth_error kept (List.length kept - 1)
                = nth_error s.(history) (Z.to_nat s.(currentIndex))).
  { destruct (Nat.le_gt_cases (List.length (pre ++ [e])) 50) as [Hfit|Hover].
    - exists pre. rewrite lastn_short by assumption.
      split; [reflexivity|]. split; [lia|].
      rewrite Hpre, <- Hcur. f_equal. lia.
    - rewrite length_app in Hover; simpl in Hover.
      destruct pre as [|a pre'] eqn:Epre; [simpl in Hpre; lia|].
      exists pre'. simpl in Hpre, Hover.
      split.
      { unfold lastn.
        replace (List.length ((a :: pre') ++ [e]) - 50)%nat with 1%nat
          by (rewrite length_app; simpl; lia).
        reflexivity. }
      split; [lia|].
      rewrite <- Hcur.
      replace (Z.to_nat s.(currentIndex)) with (S (List.length pre' - 1)) by lia.
      reflexivity. }
  destruct Hshape as [kept [Hkept [Hk1 Hprev]]].
  rewrite Hpush, Hkept.
  unfold elements, index, canRedo, canUndo, do_undo, undo.
  cbn [history currentIndex]. rewrite length_app. cbn [List.length].
  replace (Z.of_nat (List.length kept + 1) - 1)%Z with (Z.of_nat (List.length kept)) by lia.
  repeat split.
  - destruct (Z.ltb_spec (Z.of_nat (List.length kept)) 0); [lia|].
    rewrite Nat2Z.id. apply nth_error_snoc.
  - apply Z.ltb_irrefl.
  - apply Z.ltb_lt. lia.
  - destruct (Z.ltb_spec 0 (Z.of_nat (List.length kept))); [|lia].
    cbn [fst history currentIndex].
    destruct (Z.ltb_spec (Z.of_nat (List.length kept) - 1) 0); [lia|].
    destruct (Z.ltb_spec s.(currentIndex) 0); [lia|].
    replace (Z.to_nat (Z.of_nat (List.length kept) - 1)) with (List.length kept - 1)%nat
      by lia.
    rewrite nth_error_app1 by lia. exact Hprev.
Qed.
End HistoryMore.

Lemma undo_redo_round_trip_witness :
  let s := {| history := [1; 2; 3]%Z; currentIndex := 1 |} in
  do_redo (do_undo s) = s /\ do_undo (do_redo s) = s.
Proof.
  intros s.
  assert (Hwf : wf_history s) by (unfold wf_history; simpl; lia).
  destruct (undo_redo_round_trip Hwf) as [Hur Hru].
  split; [apply Hur|apply Hru]; reflexivity.
Defined.

Lemma undo_redo_return_current_witness :
  let s := {| history := [1; 2; 3]%Z; currentIndex := 1 |} in
  (exists snap, snd (undo s s) = Some snap /\ elements (do_undo s) = Some snap)
  /\ (exists snap, snd (redo s s) = Some snap /\ elements (do_redo s) = Some snap).
Proof.
  intros s.
  assert (Hwf : wf_history s) by (unfold wf_history; simpl; lia).
  exact (undo_redo_return_current Hwf).
Defined.

Lemma push_then_undo_witness :
  let s := {| history := map Z.of_nat (seq 0 50); currentIndex := 49 |} in
  elements (push 99%Z s) = Some 99%Z
  /\ canRedo (push 99%Z s) = false
  /\ canUndo (push 99%Z s) = true
  /\ elements (do_undo (push 99%Z s)) = Some 49%Z.
Proof.
  intros s.
  assert (Hwf : wf_history s) by (unfold wf_history; simpl; lia).
  exact (push_then_undo 99%Z Hwf).
Defined.

(** ** Properties that hold in every number model *)

Section GenericMore.
Context {N : Type} `{JsNumber N}.

(** X5: the overlap test of two bounds does not depend on their order. *)
Theorem doBoundsIntersect_symmetric (b1 b2 : Bounds N) :
  doBoundsIntersect b1 b2 = doBoundsIntersect b2 b1.
Proof.
  unfold doBoundsIntersect.
  destruct (js_lt b1.(maxX) b2.(minX)), (js_lt b2.(maxX) b1.(minX)),
    (js_lt b1.(maxY) b2.(minY)), (js_lt b2.(maxY) b1.(minY)); reflexivity.
Qed.

Lemma find_app_skip {A : Type} (f : A -> bool) (l1 l2 : list A) :
  forallb (fun a => negb (f a)) l1 = true -> find f (l1 ++ l2) = find f l2.
Proof.
  induction l1 as [|a l1 IH]; intros Hno; [reflexivity|].
  cbn [forallb] in Hno. apply andb_true_iff in Hno as [Ha Hrest].
  apply negb_true_iff in Ha. cbn [app find]. rewrite Ha. apply IH, Hrest.
Qed.

Lemma find_none_forallb {A : Type} (f : A -> bool) (l : list A) :
  find f l = None <-> forallb (fun a => negb (f a)) l = true.
Proof.
  induction l as [|a l IH]; [split; reflexivity|].
  cbn [find forallb]. destruct (f a); cbn [negb andb].
  - split; discriminate.
  - exact IH.
Qed.

(** X6: [getElementAtPosition] answers with the topmost hit: the id of an
    element that is hit while no element drawn after it is; and it answers
    nothing exactly when no element is hit.  The elements looked at are
    the tentative ones where there are some. *)
Theorem getElementAtPosition_topmost
    (tempElements : option (list (WhiteboardElement N)))
    (elements : list (WhiteboardElement N)) (view : ViewState N) (worldPos : Point N) :
  let target := match tempElements with Some t => t | None => elements end in
  let hit := fun el => hitTestElement el worldPos view.(scale) in
  (forall below el above,
      target = below ++ el :: above ->
      hit el = true ->
      forallb (fun e => negb (hit e)) above = true ->
      getElementAtPosition tempElements elements view worldPos = Some (base_of el).(id))
  /\ (getElementAtPosition tempElements elements view worldPos = None
      <-> forallb (fun e => negb (hit e)) target = true).
Proof.
  intros target hit. unfold getElementAtPosition. fold target. fold hit.
  split.
  - intros below el above Htarget Hhit Habove.
    rewrite Htarget, rev_app_distr. cbn [rev]. rewrite <- app_assoc.
    rewrite find_app_skip.
    + cbn [app find]. rewrite Hhit. reflexivity.
    + rewrite forallb_forall in *. intros e He. apply Habove.
      apply in_rev. exact He.
  - destruct (find hit (rev target)) as [el|] eqn:Hfind.
    + split; [discriminate|]. intros Hnone.
      apply find_some in Hfind as [Hin Hhit].
      rewrite forallb_forall in Hnone.
      apply in_rev in Hin. apply Hnone in Hin. rewrite Hhit in Hin. discriminate Hin.
    + split; [|reflexivity]. intros _.
      apply find_none_forallb in Hfind.
      rewrite forallb_forall in *. intros e He. apply Hfind.
      apply in_rev. rewrite rev_involutive. exact He.
Qed.
End GenericMore.

Section EraseMore.
Context {N : Type} `{JsNumber N}.

(** The walk from any state of its two variables. *)
Lemma walk_points_keeps (worldPos : Point N) (radius : N) (pts : list (Point N)) :
  forall (segs : list (list (Point N))) (cur : list (Point N)),
    Forall (fun seg => seg <> []) segs ->
    exists segs' cur',
      walk_points worldPos radius (map Some pts) segs cur = Returned (segs', cur')
      /\ List.concat segs' ++ cur'
         = List.concat segs ++ cur
           ++ filter (fun p => js_lt radius (distance p worldPos)) pts
      /\ Forall (fun seg => seg <> []) segs'.
Proof.
  induction pts as [|p pts IH]; intros segs cur Hsegs.
  - exists segs, cur. cbn [map walk_points filter]. rewrite app_nil_r.
    repeat split. exact Hsegs.
  - cbn [map walk_points filter].
    destruct (js_lt radius (distance p worldPos)) eqn:Hfar.
    + destruct (IH segs (cur ++ [p]) Hsegs) as [segs' [cur' [Hrun [Hcat Hne]]]].
      exists segs', cur'. repeat split; [exact Hrun| |exact Hne].
      rewrite Hcat, <- app_assoc. reflexivity.
    + destruct cur as [|c cur].
      * cbn [List.length Nat.ltb Nat.leb].
        destruct (IH segs [] Hsegs) as [segs' [cur' [Hrun [Hcat Hne]]]].
        exists segs', cur'. repeat split; assumption.
      * cbn [List.length Nat.ltb Nat.leb].
        destruct (IH (segs ++ [c :: cur]) []) as [segs' [cur' [Hrun [Hcat Hne]]]].
        { apply Forall_app. split; [exact Hsegs|].
          constructor; [discriminate|constructor]. }
        exists segs', cur'. repeat split; [exact Hrun| |exact Hne].
        rewrite Hcat, concat_app. cbn [List.concat]. rewrite !app_nil_r, <- !app_assoc.
        reflexivity.
Qed.
End EraseMore.

(** X7: the walk over the points of a shape loses no point that is
    farther from the eraser than its radius and keeps no other: the runs,
    put end to end, are those points in their order, and no closed run is
    empty. *)
Theorem walk_points_conserves {N : Type} `{JsNumber N}
    (worldPos : Point N) (radius : N) (pts : list (Point N)) :
  exists segs cur,
    walk_points worldPos radius (map Some pts) [] [] = Returned (segs, cur)
    /\ List.concat segs ++ cur = filter (fun p => js_lt radius (distance p worldPos)) pts
    /\ Forall (fun seg => seg <> []) segs.
Proof.
  destruct (walk_points_keeps worldPos radius pts (segs := []) [] (Forall_nil _))
    as [segs [cur [Hrun [Hcat Hne]]]].
  exists segs, cur. repeat split; assumption.
Qed.

Section EraseResult.
Context {N : Type} `{JsNumber N} `{JsMath N}.
Variable G : Type.
Variable generateId : G -> string * G.
Variable view : ViewState N.
Variable activeColor : string.
Variable activeStrokeWidth : N.
Variable currentList : list (WhiteboardElement N).

Lemma push_segments_strokes (el : WhiteboardElement N) (segs : list (list (Point N))) :
  forall (newList : list (WhiteboardElement N)) (g : G),
    Forall (kept_or_stroke currentList) newList ->
    Forall (kept_or_stroke currentList)
      (fst (push_segments generateId activeColor activeStrokeWidth el segs newList g)).
Proof.
  induction segs as [|seg segs IH]; intros newList g Hnew; [exact Hnew|].
  cbn [push_segments].
  destruct seg as [|p0 [|p1 seg]]; try (apply IH; exact Hnew).
  destruct (generateId g) as [newId g'].
  apply IH. apply Forall_app. split; [exact Hnew|].
  constructor; [|constructor]. right. reflexivity.
Qed.

Lemma erase_loop_strokes (fuel : nat) (worldPos : Point N) (radius : N)
    (rest : list (WhiteboardElement N)) :
  (forall el, In el rest -> In el currentList) ->
  forall (newList : list (WhiteboardElement N)) (hasChanges : bool) (g : G),
    Forall (kept_or_stroke currentList) newList ->
    match erase_loop generateId view activeColor activeStrokeWidth fuel worldPos radius
            rest newList hasChanges g with
    | Returned (result, _, _) => Forall (kept_or_stroke currentList) result
    | _ => True
    end.
Proof.
  induction rest as [|el rest IH]; intros Hrest newList hasChanges g Hnew.
  - exact Hnew.
  - assert (Hel : kept_or_stroke currentList el) by (left; apply Hrest; left; reflexivity).
    assert (Hrest' : forall e, In e rest -> In e currentList)
      by (intros e He; apply Hrest; right; exact He).
    assert (Hkeep : Forall (kept_or_stroke currentList) (newList ++ [el])).
    { apply Forall_app. split; [exact Hnew|]. constructor; [exact Hel|constructor]. }
    cbn [erase_loop].
    destruct (negb (isElementRoughlyIntersecting el worldPos radius)).
    + apply IH; assumption.
    + destruct (convertShapeToPoints fuel el (js_div (lit 5) view.(scale)))
        as [points| |]; cbn [bind]; try exact I.
      destruct (walk_points worldPos radius points [] []) as [[segs0 cur]| |];
        cbn [bind]; try exact I.
      set (segs := if (0 <? List.length cur)%nat then segs0 ++ [cur] else segs0).
      assert (Hpush : forall hc,
        match (let (newList', g') :=
                 push_segments generateId activeColor activeStrokeWidth el segs newList g in
               erase_loop generateId view activeColor activeStrokeWidth fuel worldPos
                 radius rest newList' hc g') with
        | Returned (result, _, _) => Forall (kept_or_stroke currentList) result
        | _ => True
        end).
      { intros hc.
        pose proof (push_segments_strokes el segs g Hnew) as Hps.
        destruct (push_segments generateId activeColor activeStrokeWidth el segs newList g)
          as [newList' g'].
        apply IH; assumption. }
      destruct segs as [|seg [|seg2 segs']]; try apply Hpush.
      destruct (List.length seg =? List.length points)%nat; [|apply Hpush].
      apply IH; assumption.
Qed.
End EraseResult.

(** X8: erasing never alters a shape in place: every element of the list
    that [performErase] returns is an element of the list it was given or
    a new Pencil of two points or more. *)
Theorem performErase_kept_or_stroke {N : Type} `{JsNumber N} `{JsMath N}
    (G : Type) (generateId : G -> string * G) (view : ViewState N)
    (activeColor : string) (activeStrokeWidth : N)
    (fuel : nat) (worldPos : Point N) (currentList : list (WhiteboardElement N)) (g : G) :
  match performErase generateId view activeColor activeStrokeWidth fuel worldPos
          currentList g with
  | Returned (result, _) =>
      Forall (fun el => In el currentList \/ is_stroke el = true) result
  | _ => True
  end.
Proof.
  unfold performErase.
  pose proof (@erase_loop_strokes N _ _ G generateId view activeColor activeStrokeWidth
                currentList fuel worldPos (js_div ERASER_RADIUS view.(scale)) currentList
                (fun el Hin => Hin) [] false g (Forall_nil _)) as Hloop.
  destruct (erase_loop generateId view activeColor activeStrokeWidth fuel worldPos
              (js_div ERASER_RADIUS view.(scale)) currentList [] false g)
    as [[[result hasChanges] g']| |]; cbn [bind]; try exact I.
  destruct hasChanges; [exact Hloop|].
  apply Forall_forall. intros el Hin. left. exact Hin.
Qed.

(** ** The geometry kernel in exact arithmetic *)

Section GeometryExact.
Import XRFacts.
Local Open Scope R_scope.

Lemma seg_len2_sym ax ay bx by_ : seg_len2 ax ay bx by_ = seg_len2 bx by_ ax ay.
Proof. unfold seg_len2. ring. Qed.

Lemma seg_len2_nonneg ax ay bx by_ : 0 <= seg_len2 ax ay bx by_.
Proof.
  unfold seg_len2.
  pose proof (Rle_0_sqr (ax - bx)) as Hx. pose proof (Rle_0_sqr (ay - by_)) as Hy.
  unfold Rsqr in Hx, Hy. lra.
Qed.

Lemma seg_len2_zero ax ay bx by_ : seg_len2 ax ay bx by_ = 0 <-> (ax, ay) = (bx, by_).
Proof.
  split.
  - intros Hz.
    destruct (Req_dec_T ax bx) as [Hx|Hx]; destruct (Req_dec_T ay by_) as [Hy|Hy];
      try (subst; reflexivity);
      (assert (Hne : (ax, ay) <> (bx, by_))
         by (intros Heq; injection Heq as Hx' Hy'; contradiction);
       pose proof (seg_len2_pos Hne); lra).
  - intros Heq. injection Heq as -> ->. unfold seg_len2. ring.
Qed.

Lemma getTriangleArea_Fin (x1 y1 x2 y2 x3 y3 : R) :
  getTriangleArea {| x := Fin x1; y := Fin y1 |} {| x := Fin x2; y := Fin y2 |}
    {| x := Fin x3; y := Fin y3 |}
  = Fin (1 / 2 * Rabs (tri_cross x1 y1 x2 y2 x3 y3)).
Proof.
  unfold getTriangleArea, half.
  change (lit 1 / lit 2)%js with (XR.div (Fin 1) (Fin 2)).
  rewrite div_Fin by lra. reflexivity.
Qed.

Lemma isPointInTriangle_Fin (px py x1 y1 x2 y2 x3 y3 : R) :
  isPointInTriangle {| x := Fin px; y := Fin py |} {| x := Fin x1; y := Fin y1 |}
    {| x := Fin x2; y := Fin y2 |} {| x := Fin x3; y := Fin y3 |}
  = XR.Rltb (Rabs (1 / 2 * Rabs (tri_cross x1 y1 x2 y2 x3 y3)
                   - (1 / 2 * Rabs (tri_cross px py x2 y2 x3 y3)
                      + 1 / 2 * Rabs (tri_cross x1 y1 px py x3 y3)
                      + 1 / 2 * Rabs (tri_cross x1 y1 x2 y2 px py)))) 1.
Proof. unfold isPointInTriangle. rewrite !getTriangleArea_Fin. reflexivity. Qed.

Lemma isPointNearLine_degenerate (px py ax ay t : R) :
  isPointNearLine {| x := Fin px; y := Fin py |} {| x := Fin ax; y := Fin ay |}
    {| x := Fin ax; y := Fin ay |} (Fin t)
  = XR.Rltb (R_sqrt.sqrt (seg_len2 px py ax ay)) t.
Proof.
  unfold isPointNearLine. rewrite !distance_Fin.
  replace (seg_len2 ax ay ax ay) with 0 by (unfold seg_len2; ring).
  rewrite sqrt_0.
  change (Fin 0 === lit 0)%js with (XR.Reqb 0 0).
  rewrite Reqb_true by reflexivity. reflexivity.
Qed.
End GeometryExact.

(** X9: [distance] between finite points is symmetric and never negative,
    and it is 0 exactly between a point and itself. *)
Theorem distance_metric (ax ay bx by_ : R) :
  let a : Point xreal := {| x := Fin ax; y := Fin ay |} in
  let b : Point xreal := {| x := Fin bx; y := Fin by_ |} in
  distance a b = distance b a
  /\ (lit 0 <= distance a b)%js = true
  /\ ((distance a b === lit 0)%js = true <-> (ax, ay) = (bx, by_)).
Proof.
  intros a b. unfold a, b. rewrite !distance_Fin.
  rewrite (seg_len2_sym bx by_ ax ay).
  split; [reflexivity|]. split.
  - change (XR.le (Fin 0) (Fin (R_sqrt.sqrt (seg_len2 ax ay bx by_))) = true).
    rewrite XRFacts.le_Fin. apply XRFacts.Rleb_true, sqrt_pos.
  - change ((Fin (R_sqrt.sqrt (seg_len2 ax ay bx by_)) === lit 0)%js)
      with (XR.Reqb (R_sqrt.sqrt (seg_len2 ax ay bx by_)) 0).
    unfold XR.Reqb.
    destruct (Req_dec_T (R_sqrt.sqrt (seg_len2 ax ay bx by_)) 0) as [Hz|Hnz].
    + split; [intros _|reflexivity].
      apply seg_len2_zero. apply sqrt_eq_0; [apply seg_len2_nonneg|exact Hz].
    + split; [discriminate|]. intros Heq. exfalso. apply Hnz.
      apply seg_len2_zero in Heq. rewrite Heq. apply sqrt_0.
Qed.

(** X10: in exact arithmetic, the area of [getTriangleArea] is never
    negative and does not depend on the order in which the three vertices
    are given.  (In binary64 the order can change the rounded area: see
    [getTriangleArea_binary64_order].) *)
Theorem getTriangleArea_order (x1 y1 x2 y2 x3 y3 : R) :
  let p1 : Point xreal := {| x := Fin x1; y := Fin y1 |} in
  let p2 : Point xreal := {| x := Fin x2; y := Fin y2 |} in
  let p3 : Point xreal := {| x := Fin x3; y := Fin y3 |} in
  (lit 0 <= getTriangleArea p1 p2 p3)%js = true
  /\ getTriangleArea p2 p3 p1 = getTriangleArea p1 p2 p3
  /\ getTriangleArea p2 p1 p3 = getTriangleArea p1 p2 p3.
Proof.
  intros p1 p2 p3. unfold p1, p2, p3. rewrite !getTriangleArea_Fin.
  split; [|split].
  - change (XR.le (Fin 0) (Fin (1 / 2 * Rabs (tri_cross x1 y1 x2 y2 x3 y3))) = true).
    rewrite XRFacts.le_Fin. apply XRFacts.Rleb_true.
    pose proof (Rabs_pos (tri_cross x1 y1 x2 y2 x3 y3)). lra.
  - do 3 f_equal. unfold tri_cross. ring.
  - do 2 f_equal.
    replace (tri_cross x2 y2 x1 y1 x3 y3) with (- tri_cross x1 y1 x2 y2 x3 y3)%R
      by (unfold tri_cross; ring).
    apply Rabs_Ropp.
Qed.

(** X11: in exact arithmetic, every point of a triangle, its vertices and
    edges included, is inside for [isPointInTriangle]: the points
    [p1 + u (p2 - p1) + v (p3 - p1)] with [u, v >= 0] and [u + v <= 1].
    (In binary64 the rounded areas of a large triangle can differ by 1 or
    more: see [isPointInTriangle_binary64_large].) *)
Theorem isPointInTriangle_inside (x1 y1 x2 y2 x3 y3 u v : R) :
  (0 <= u)%R -> (0 <= v)%R -> (u + v <= 1)%R ->
  isPointInTriangle
    ({| x := Fin (x1 + u * (x2 - x1) + v * (x3 - x1));
        y := Fin (y1 + u * (y2 - y1) + v * (y3 - y1)) |} : Point xreal)
    {| x := Fin x1; y := Fin y1 |} {| x := Fin x2; y := Fin y2 |}
    {| x := Fin x3; y := Fin y3 |}
  = true.
Proof.
  intros Hu Hv Huv. rewrite isPointInTriangle_Fin.
  set (D := tri_cross x1 y1 x2 y2 x3 y3).
  set (qx := (x1 + u * (x2 - x1) + v * (x3 - x1))%R).
  set (qy := (y1 + u * (y2 - y1) + v * (y3 - y1))%R).
  replace (tri_cross qx qy x2 y2 x3 y3) with ((1 - u - v) * D)%R
    by (unfold D, qx, qy, tri_cross; ring).
  replace (tri_cross x1 y1 qx qy x3 y3) with (u * D)%R
    by (unfold D, qx, qy, tri_cross; ring).
  replace (tri_cross x1 y1 x2 y2 qx qy) with (v * D)%R
    by (unfold D, qx, qy, tri_cross; ring).
  rewrite !Rabs_mult.
  rewrite (Rabs_pos_eq (1 - u - v)), (Rabs_pos_eq u), (Rabs_pos_eq v) by lra.
  replace (1 / 2 * Rabs D
           - (1 / 2 * ((1 - u - v) * Rabs D) + 1 / 2 * (u * Rabs D)
              + 1 / 2 * (v * Rabs D)))%R with 0%R by ring.
  rewrite Rabs_R0. apply XRFacts.Rltb_true. lra.
Qed.

Lemma isPointInTriangle_inside_witness :
  isPointInTriangle ({| x := Fin (0 + 1 / 5 * (10 - 0) + 1 / 5 * (0 - 0));
                        y := Fin (0 + 1 / 5 * (0 - 0) + 1 / 5 * (10 - 0)) |} : Point xreal)
    {| x := Fin 0; y := Fin 0 |} {| x := Fin 10; y := Fin 0 |} {| x := Fin 0; y := Fin 10 |}
  = true.
Proof. apply isPointInTriangle_inside; lra. Defined.

(** X12: in exact arithmetic, a triangle whose three vertices are one
    point is hit by every point of the plane, at every zoom: all four
    areas are 0 and their difference is within the tolerance 1.  (In
    binary64 a position whose products overflow gives the area NaN and no
    hit: see [hitTestElement_binary64_point_triangle].) *)
Theorem hitTestElement_point_triangle (base : BaseElement xreal) (ax ay px py : R)
    (zoom : xreal) :
  let a : Point xreal := {| x := Fin ax; y := Fin ay |} in
  hitTestElement (Triangle base a a a) {| x := Fin px; y := Fin py |} zoom = true.
Proof.
  intros a. unfold a. cbn [hitTestElement]. rewrite isPointInTriangle_Fin.
  replace (tri_cross ax ay ax ay ax ay) with 0%R by (unfold tri_cross; ring).
  replace (tri_cross px py ax ay ax ay) with 0%R by (unfold tri_cross; ring).
  replace (tri_cross ax ay px py ax ay) with 0%R by (unfold tri_cross; ring).
  replace (tri_cross ax ay ax ay px py) with 0%R by (unfold tri_cross; ring).
  rewrite Rabs_R0.
  replace (1 / 2 * 0 - (1 / 2 * 0 + 1 / 2 * 0 + 1 / 2 * 0))%R with 0%R by ring.
  rewrite Rabs_R0. apply XRFacts.Rltb_true. lra.
Qed.

(** X13: in exact arithmetic, [isPointNearLine] does not depend on the
    order of the two end points of the segment.  (In binary64 the two
    orders round differently and can disagree at a threshold next to the
    distance: see [isPointNearLine_binary64_direction].) *)
Theorem isPointNearLine_symmetric (px py ax ay bx by_ t : R) :
  let p : Point xreal := {| x := Fin px; y := Fin py |} in
  let a : Point xreal := {| x := Fin ax; y := Fin ay |} in
  let b : Point xreal := {| x := Fin bx; y := Fin by_ |} in
  isPointNearLine p a b (Fin t) = isPointNearLine p b a (Fin t).
Proof.
  intros p a b. unfold p, a, b.
  destruct (Req_dec_T ax bx) as [Hx|Hx]; destruct (Req_dec_T ay by_) as [Hy|Hy];
    try (subst; reflexivity);
    (assert (Hab : (ax, ay) <> (bx, by_))
       by (intros Heq; injection Heq as Hx' Hy'; contradiction);
     assert (Hba : (bx, by_) <> (ax, ay))
       by (intros Heq; injection Heq as Hx' Hy'; apply Hab; subst; reflexivity);
     rewrite (isPointNearLine_Fin _ _ _ Hab), (isPointNearLine_Fin _ _ _ Hba);
     rewrite (seg_len2_sym bx by_ ax ay);
     replace (seg_cross px py bx by_ ax ay) with (- seg_cross px py ax ay bx by_)%R
       by (unfold seg_cross; ring);
     rewrite Rabs_Ropp, (Rmin_comm bx ax), (Rmax_comm bx ax),
       (Rmin_comm by_ ay), (Rmax_comm by_ ay);
     reflexivity).
Qed.

(** X14: in exact arithmetic, for a positive threshold every point of the
    segment itself, its end points included, is near the line; also when
    the segment is a single point.  (In binary64 the computed distance of
    such a point is 0 up to rounding only: see
    [isPointNearLine_binary64_end_point].) *)
Theorem isPointNearLine_on_segment (ax ay bx by_ s t : R) :
  (0 <= s <= 1)%R -> (0 < t)%R ->
  isPointNearLine
    ({| x := Fin (ax + s * (bx - ax)); y := Fin (ay + s * (by_ - ay)) |} : Point xreal)
    {| x := Fin ax; y := Fin ay |} {| x := Fin bx; y := Fin by_ |} (Fin t)
  = true.
Proof.
  intros Hs Ht.
  assert (Hpoint : ax = bx -> ay = by_ ->
    isPointNearLine
      ({| x := Fin (ax + s * (bx - ax)); y := Fin (ay + s * (by_ - ay)) |} : Point xreal)
      {| x := Fin ax; y := Fin ay |} {| x := Fin bx; y := Fin by_ |} (Fin t) = true).
  { intros <- <-. rewrite isPointNearLine_degenerate.
    replace (seg_len2 (ax + s * (ax - ax)) (ay + s * (ay - ay)) ax ay) with 0%R
      by (unfold seg_len2; ring).
    rewrite sqrt_0. apply XRFacts.Rltb_true, Ht. }
  assert (Hseg : (ax, ay) <> (bx, by_) ->
    isPointNearLine
      ({| x := Fin (ax + s * (bx - ax)); y := Fin (ay + s * (by_ - ay)) |} : Point xreal)
      {| x := Fin ax; y := Fin ay |} {| x := Fin bx; y := Fin by_ |} (Fin t) = true).
  { intros Hne. rewrite (isPointNearLine_Fin _ _ _ Hne).
    replace (seg_cross (ax + s * (bx - ax)) (ay + s * (by_ - ay)) ax ay bx by_) with 0%R
      by (unfold seg_cross; ring).
    rewrite Rabs_R0. unfold Rdiv at 1. rewrite Rmult_0_l.
    rewrite XRFacts.Rltb_true by exact Ht.
    rewrite !XRFacts.Rleb_true; [reflexivity| | | |];
      unfold Rmin, Rmax;
      repeat match goal with |- context [Rle_dec ?a ?b] => destruct (Rle_dec a b) end;
      nra. }
  destruct (Req_dec_T ax bx) as [Hx|Hx]; destruct (Req_dec_T ay by_) as [Hy|Hy];
    [apply Hpoint; assumption| | |];
    apply Hseg; intros Heq; injection Heq as Hx' Hy'; contradiction.
Qed.

Lemma isPointNearLine_on_segment_witness :
  isPointNearLine
    ({| x := Fin (0 + 1 / 2 * (100 - 0)); y := Fin (0 + 1 / 2 * (40 - 0)) |} : Point xreal)
    {| x := Fin 0; y := Fin 0 |} {| x := Fin 100; y := Fin 40 |} (Fin 5)
  = true.
Proof. apply isPointNearLine_on_segment; lra. Defined.

Section BoundsExact.
Import XRFacts.
Local Open Scope R_scope.

Lemma Rleb_iff a b : XR.Rleb a b = true <-> a <= b.
Proof.
  unfold XR.Rleb. destruct (Rle_dec a b); split; intros Hab;
    first [assumption | reflexivity | discriminate | contradiction].
Qed.

Lemma Rltb_iff a b : XR.Rltb a b = true <-> a < b.
Proof.
  unfold XR.Rltb. destruct (Rlt_dec a b); split; intros Hab;
    first [assumption | reflexivity | discriminate | contradiction].
Qed.

(** The containment test on finite numbers. *)
Lemma isPointInBounds_Fin (px py a b c d pad : R) :
  isPointInBounds {| x := Fin px; y := Fin py |}
    {| minX := Fin a; minY := Fin b; maxX := Fin c; maxY := Fin d |} (Fin pad) = true
  <-> a - pad <= px <= c + pad /\ b - pad <= py <= d + pad.
Proof.
  unfold isPointInBounds. cbn [x y minX minY maxX maxY].
  change (Fin a - Fin pad)%js with (Fin (a - pad)).
  change (Fin b - Fin pad)%js with (Fin (b - pad)).
  change (Fin c + Fin pad)%js with (Fin (c + pad)).
  change (Fin d + Fin pad)%js with (Fin (d + pad)).
  change (@js_le xreal _) with XR.le. rewrite !le_Fin.
  rewrite !andb_true_iff, !Rleb_iff. tauto.
Qed.

(** The bounds of a finite shape are finite. *)
Lemma getElementBounds_finite (el : WhiteboardElement xreal) :
  finite_element el = true ->
  exists a b c d,
    getElementBounds el = {| minX := Fin a; minY := Fin b; maxX := Fin c; maxY := Fin d |}.
Proof.
  intros Hfin.
  destruct el as [b w h|b r|b p1 p2 p3|b ex ey|b pts|b src w h];
    cbn [finite_element] in Hfin.
  - repeat (apply andb_true_iff in Hfin as [Hfin ?]).
    destruct b as [i bx by_ rot sc fc sw]; cbn [el_x el_y] in *.
    destruct bx, by_, w, h; try discriminate.
    cbn [getElementBounds el_x el_y].
    change (@Math_min xreal _) with XR.min. cbn [js_add xreal_JsNumber XR.add].
    rewrite !min_Fin. do 4 eexists. reflexivity.
  - repeat (apply andb_true_iff in Hfin as [Hfin ?]).
    destruct b as [i bx by_ rot sc fc sw]; cbn [el_x el_y] in *.
    destruct bx, by_, r; try discriminate.
    do 4 eexists. reflexivity.
  - repeat (apply andb_true_iff in Hfin as [Hfin ?]).
    unfold finite_point in *.
    repeat match goal with
           | Hp : _ && _ = true |- _ => apply andb_true_iff in Hp as [? ?]
           end.
    destruct p1 as [x1 y1], p2 as [x2 y2], p3 as [x3 y3]; cbn [x y] in *.
    destruct x1, y1, x2, y2, x3, y3; try discriminate.
    cbn [getElementBounds x y].
    unfold Math_min_spread, Math_max_spread. cbn [fold_left].
    change (@Math_min xreal _) with XR.min. change (@Math_max xreal _) with XR.max.
    change (@Infinity xreal _) with PInf. change (- PInf)%js with NInf.
    rewrite !min_PInf_Fin, !max_NInf_Fin, !min_Fin, !max_Fin.
    do 4 eexists. reflexivity.
  - repeat (apply andb_true_iff in Hfin as [Hfin ?]).
    destruct b as [i bx by_ rot sc fc sw]; cbn [el_x el_y] in *.
    destruct bx, by_, ex, ey; try discriminate.
    cbn [getElementBounds el_x el_y].
    change (@Math_min xreal _) with XR.min. change (@Math_max xreal _) with XR.max.
    rewrite !min_Fin, !max_Fin. do 4 eexists. reflexivity.
  - destruct pts as [|p pts]; [do 4 eexists; reflexivity|].
    destruct (finite_points_xs _ Hfin) as [Hxs Hys].
    destruct (finite_list_inv _ Hxs) as [rxs Hrxs].
    destruct (finite_list_inv _ Hys) as [rys Hrys].
    cbn [getElementBounds]. rewrite Hrxs, Hrys.
    destruct rxs as [|rx rxs]; [discriminate|].
    destruct rys as [|ry rys]; [discriminate|].
    unfold Math_min_spread, Math_max_spread. cbn [map fold_left].
    change (@Math_min xreal _) with XR.min. change (@Math_max xreal _) with XR.max.
    change (@Infinity xreal _) with PInf. change (- PInf)%js with NInf.
    rewrite !min_PInf_Fin, !max_NInf_Fin, !fold_min_Fin, !fold_max_Fin.
    do 4 eexists. reflexivity.
  - repeat (apply andb_true_iff in Hfin as [Hfin ?]).
    destruct b as [i bx by_ rot sc fc sw]; cbn [el_x el_y] in *.
    destruct bx, by_, w, h; try discriminate.
    cbn [getElementBounds el_x el_y].
    change (@Math_min xreal _) with XR.min. cbn [js_add xreal_JsNumber XR.add].
    rewrite !min_Fin. do 4 eexists. reflexivity.
Qed.

(** From finite bounds the fold stays finite, only grows, and covers the
    bounds of every shape it passes. *)
Lemma common_fold_covers (rest : list (WhiteboardElement xreal)) :
  Forall (fun el => finite_element el = true) rest ->
  forall a b c d : R,
  exists a' b' c' d',
    fold_left common_step rest {| minX := Fin a; minY := Fin b; maxX := Fin c; maxY := Fin d |}
    = {| minX := Fin a'; minY := Fin b'; maxX := Fin c'; maxY := Fin d' |}
    /\ (a' <= a /\ b' <= b /\ c <= c' /\ d <= d')
    /\ forall el ea eb ec ed,
         In el rest ->
         getElementBounds el
         = {| minX := Fin ea; minY := Fin eb; maxX := Fin ec; maxY := Fin ed |} ->
         a' <= ea /\ b' <= eb /\ ec <= c' /\ ed <= d'.
Proof.
  induction 1 as [|el rest Hel _ IH]; intros a b c d.
  - exists a, b, c, d. split; [reflexivity|]. split; [lra|].
    intros e0 ea eb ec ed Hin. destruct Hin.
  - destruct (getElementBounds_finite _ Hel) as [ea [eb [ec [ed Hb]]]].
    cbn [fold_left]. unfold common_step at 2. rewrite Hb. cbn [minX minY maxX maxY].
    change (@Math_min xreal _) with XR.min. change (@Math_max xreal _) with XR.max.
    rewrite !min_Fin, !max_Fin.
    destruct (IH (Rmin a ea) (Rmin b eb) (Rmax c ec) (Rmax d ed))
      as [a' [b' [c' [d' [Hfold [[Ha [Hb' [Hc Hd]]] Hcover]]]]]].
    exists a', b', c', d'. split; [exact Hfold|].
    pose proof (Rmin_l a ea). pose proof (Rmin_r a ea).
    pose proof (Rmin_l b eb). pose proof (Rmin_r b eb).
    pose proof (Rmax_l c ec). pose proof (Rmax_r c ec).
    pose proof (Rmax_l d ed). pose proof (Rmax_r d ed).
    split; [repeat split; lra|].
    intros el' fa fb fc fd [Heq|Hin] Hbounds.
    + subst el'. rewrite Hb in Hbounds. injection Hbounds as -> -> -> ->.
      repeat split; lra.
    + apply (Hcover el'); assumption.
Qed.
End BoundsExact.

(** X15: a Rectangle is hit exactly where the point is within its bounds,
    negative width and height included; the zoom plays no part. *)
Theorem hitTestElement_rectangle_bounds
    (i : string) (rot : option xreal) (sc fc : option string) (sw : option xreal)
    (bx by_ w h px py : R) (zoom : xreal) :
  let rect : WhiteboardElement xreal :=
    Rectangle {| id := i; el_x := Fin bx; el_y := Fin by_; rotation := rot;
                 strokeColor := sc; fillColor := fc; strokeWidth := sw |}
              (Fin w) (Fin h) in
  let pos : Point xreal := {| x := Fin px; y := Fin py |} in
  hitTestElement rect pos zoom = isPointInBounds pos (getElementBounds rect) (lit 0).
Proof.
  intros rect pos. unfold rect, pos, hitTestElement, isPointInBounds, getElementBounds.
  cbn [el_x el_y x y minX minY maxX maxY].
  change (@Math_min xreal _) with XR.min. change (@js_le xreal _) with XR.le.
  cbn [js_add js_sub xreal_JsNumber XR.add XR.sub XR.neg lit Math_abs XR.abs].
  rewrite !XRFacts.min_Fin.
  cbn [XR.add XR.sub XR.neg]. rewrite !XRFacts.le_Fin.
  replace (Rmin bx (bx + w) + - 0)%R with (Rmin bx (bx + w)) by lra.
  replace (Rmin by_ (by_ + h) + - 0)%R with (Rmin by_ (by_ + h)) by lra.
  replace (Rmin bx (bx + w) + Rabs w + 0)%R with (Rmin bx (bx + w) + Rabs w)%R by lra.
  replace (Rmin by_ (by_ + h) + Rabs h + 0)%R with (Rmin by_ (by_ + h) + Rabs h)%R by lra.
  reflexivity.
Qed.

(** X16: in exact arithmetic, a Circle is hit exactly by the points of its
    disc, the rim included, with no tolerance around it; a circle of
    negative radius is hit nowhere.  (In binary64 the rim is as wide as
    the rounding of the distance: see [hitTestElement_binary64_circle_rim].) *)
Theorem hitTestElement_circle_disc
    (i : string) (rot : option xreal) (sc fc : option string) (sw : option xreal)
    (cx cy r px py : R) (zoom : xreal) :
  hitTestElement
    (Circle {| id := i; el_x := Fin cx; el_y := Fin cy; rotation := rot;
               strokeColor := sc; fillColor := fc; strokeWidth := sw |} (Fin r))
    ({| x := Fin px; y := Fin py |} : Point xreal) zoom = true
  <-> (0 <= r /\ (px - cx) * (px - cx) + (py - cy) * (py - cy) <= r * r)%R.
Proof.
  cbn [hitTestElement el_x el_y]. rewrite distance_Fin.
  change (XR.le (Fin (R_sqrt.sqrt (seg_len2 px py cx cy))) (Fin r) = true
          <-> (0 <= r /\ seg_len2 px py cx cy <= r * r)%R).
  rewrite XRFacts.le_Fin, Rleb_iff.
  pose proof (seg_len2_nonneg px py cx cy) as Hs.
  pose proof (sqrt_pos (seg_len2 px py cx cy)) as Hroot.
  pose proof (sqrt_sqrt _ Hs) as Hsq.
  split.
  - intros Hle. split; [lra|]. rewrite <- Hsq. nra.
  - intros [Hr Hle].
    rewrite <- (sqrt_square r Hr). apply sqrt_le_1; [exact Hs|nra|exact Hle].
Qed.

(** X17: two finite bounds that have a point in common intersect. *)
Theorem doBoundsIntersect_common_point (px py a1 b1 c1 d1 a2 b2 c2 d2 : R) :
  let p : Point xreal := {| x := Fin px; y := Fin py |} in
  let bd1 : Bounds xreal :=
    {| minX := Fin a1; minY := Fin b1; maxX := Fin c1; maxY := Fin d1 |} in
  let bd2 : Bounds xreal :=
    {| minX := Fin a2; minY := Fin b2; maxX := Fin c2; maxY := Fin d2 |} in
  isPointInBounds p bd1 (lit 0) = true ->
  isPointInBounds p bd2 (lit 0) = true ->
  doBoundsIntersect bd1 bd2 = true.
Proof.
  intros p bd1 bd2 H1 H2.
  apply (isPointInBounds_Fin px py a1 b1 c1 d1 0) in H1.
  apply (isPointInBounds_Fin px py a2 b2 c2 d2 0) in H2.
  unfold doBoundsIntersect, bd1, bd2. cbn [minX minY maxX maxY].
  cbn [js_lt xreal_JsNumber XR.lt].
  rewrite !XRFacts.Rltb_false by lra. reflexivity.
Qed.

Lemma doBoundsIntersect_common_point_witness :
  doBoundsIntersect
    ({| minX := Fin 0; minY := Fin 0; maxX := Fin 10; maxY := Fin 10 |} : Bounds xreal)
    {| minX := Fin 10; minY := Fin 10; maxX := Fin 20; maxY := Fin 20 |} = true.
Proof.
  apply (@doBoundsIntersect_common_point 10 10 0 0 10 10 10 10 20 20);
    apply isPointInBounds_Fin; lra.
Defined.

(** X18: the common bounds of a list of finite shapes cover the bounds of
    each of them. *)
Theorem getCommonBounds_covers (elements : list (WhiteboardElement xreal))
    (el : WhiteboardElement xreal) :
  Forall (fun e => finite_element e = true) elements ->
  In el elements ->
  exists common,
    getCommonBounds elements = Some common
    /\ (common.(minX) <= (getElementBounds el).(minX))%js = true
    /\ (common.(minY) <= (getElementBounds el).(minY))%js = true
    /\ ((getElementBounds el).(maxX) <= common.(maxX))%js = true
    /\ ((getElementBounds el).(maxY) <= common.(maxY))%js = true.
Proof.
  intros Hfin Hin.
  destruct elements as [|e0 rest]; [destruct Hin|].
  inversion Hfin as [|? ? He0 Hrest]; subst.
  destruct (getElementBounds_finite _ He0) as [a0 [b0 [c0 [d0 Hb0]]]].
  assert (Hel : finite_element el = true)
    by (rewrite Forall_forall in Hfin; apply Hfin, Hin).
  destruct (getElementBounds_finite _ Hel) as [ea [eb [ec [ed Hbel]]]].
  destruct (common_fold_covers Hrest a0 b0 c0 d0)
    as [a' [b' [c' [d' [Hfold [[Ha [Hb [Hc Hd]]] Hcover]]]]]].
  exists {| minX := Fin a'; minY := Fin b'; maxX := Fin c'; maxY := Fin d' |}.
  split.
  - unfold getCommonBounds. f_equal.
    change (fold_left common_step (e0 :: rest)
              {| minX := PInf; minY := PInf; maxX := NInf; maxY := NInf |}
            = {| minX := Fin a'; minY := Fin b'; maxX := Fin c'; maxY := Fin d' |}).
    cbn [fold_left]. unfold common_step at 2. rewrite Hb0.
    cbn [minX minY maxX maxY].
    change (@Math_min xreal _) with XR.min. change (@Math_max xreal _) with XR.max.
    rewrite !min_PInf_Fin, !max_NInf_Fin. exact Hfold.
  - rewrite Hbel. cbn [minX minY maxX maxY].
    change (@js_le xreal _) with XR.le. rewrite !XRFacts.le_Fin, !Rleb_iff.
    destruct Hin as [Heq|Hin].
    + subst el. rewrite Hb0 in Hbel. injection Hbel as <- <- <- <-.
      repeat split; assumption.
    + destruct (Hcover el ea eb ec ed Hin Hbel) as [H1 [H2 [H3 H4]]].
      repeat split; assumption.
Qed.

Lemma getCommonBounds_covers_witness :
  let base (bx by_ : R) : BaseElement xreal :=
    {| id := "e"%string; el_x := Fin bx; el_y := Fin by_; rotation := None;
       strokeColor := None; fillColor := None; strokeWidth := None |} in
  let circle := Circle (base 300%R 300%R) (Fin 10) in
  let shapes := [Rectangle (base 0%R 0%R) (Fin (-100)) (Fin 50); circle] in
  exists common,
    getCommonBounds shapes = Some common
    /\ (common.(minX) <= (getElementBounds circle).(minX))%js = true
    /\ (common.(minY) <= (getElementBounds circle).(minY))%js = true
    /\ ((getElementBounds circle).(maxX) <= common.(maxX))%js = true
    /\ ((getElementBounds circle).(maxY) <= common.(maxY))%js = true.
Proof.
  intros base circle shapes.
  apply (@getCommonBounds_covers shapes circle).
  - repeat constructor.
  - right. left. reflexivity.
Defined.

(** ** The view: zoom and pinch in exact arithmetic *)

(** Read the operators at [xreal] and compute those that are total on
    finite numbers. *)
Ltac xr_ops :=
  cbn [lit Infinity js_add js_sub js_mul js_div js_neg js_lt js_le strict_eq
       Math_sqrt Math_abs Math_ceil Math_min Math_max xreal_JsNumber];
  cbn [XR.add XR.sub XR.neg XR.mul XR.abs XR.lt XR.eq].

Ltac xr_ops_all :=
  cbn [lit Infinity js_add js_sub js_mul js_div js_neg js_lt js_le strict_eq
       Math_sqrt Math_abs Math_ceil Math_min Math_max xreal_JsNumber] in *;
  cbn [XR.add XR.sub XR.neg XR.mul XR.abs XR.lt XR.eq] in *.

Section ViewExact.
Import XRFacts.
Local Open Scope R_scope.

Lemma ZOOM_MIN_Fin : (ZOOM_MIN : xreal) = Fin (1 / 10).
Proof. unfold ZOOM_MIN. xr_ops. rewrite div_Fin by lra. reflexivity. Qed.

(** The clamp of [updateZoom] and of the pinch. *)
Lemma clamp_Fin (ns : R) :
  Math_min (Math_max (Fin ns) ZOOM_MIN) (ZOOM_MAX : xreal)
  = Fin (Rmin (Rmax ns (1 / 10)) 10)
  /\ 1 / 10 <= Rmin (Rmax ns (1 / 10)) 10 <= 10.
Proof.
  rewrite ZOOM_MIN_Fin. unfold ZOOM_MAX. xr_ops. rewrite max_Fin, min_Fin.
  split; [reflexivity|].
  unfold Rmin, Rmax.
  repeat match goal with |- context [Rle_dec ?a ?b] => destruct (Rle_dec a b) end; lra.
Qed.
End ViewExact.

(** X19: [updateZoom] keeps the scale within [ZOOM_MIN, ZOOM_MAX] and
    keeps the world point under the anchor where it is: after the zoom
    the anchor [(centerX, centerY)] of the screen shows the same world
    point as before. *)
Theorem updateZoom_anchor (vx vy s ns cx cy : R) :
  s <> 0%R ->
  let view : ViewState xreal := {| view_x := Fin vx; view_y := Fin vy; scale := Fin s |} in
  let anchor : Point xreal := {| x := Fin cx; y := Fin cy |} in
  let view' := updateZoom view (Fin ns) (Fin cx) (Fin cy) in
  (ZOOM_MIN <= view'.(scale))%js = true
  /\ (view'.(scale) <= ZOOM_MAX)%js = true
  /\ screenToWorld anchor view' = screenToWorld anchor view
  /\ worldToScreen (screenToWorld anchor view) view' = anchor.
Proof.
  intros Hs view anchor view'.
  destruct (clamp_Fin ns) as [Hclamp Hrange].
  assert (Hview : view' = {| view_x := Fin (cx - (cx - vx) / s * Rmin (Rmax ns (1 / 10)) 10);
                             view_y := Fin (cy - (cy - vy) / s * Rmin (Rmax ns (1 / 10)) 10);
                             scale := Fin (Rmin (Rmax ns (1 / 10)) 10) |}).
  { unfold view', updateZoom. rewrite Hclamp.
    unfold screenToWorld, view. cbn [x y view_x view_y scale]. xr_ops.
    rewrite !(XRFacts.div_Fin _ Hs). xr_ops. reflexivity. }
  rewrite Hview. cbn [scale]. rewrite ZOOM_MIN_Fin. unfold ZOOM_MAX.
  change (@js_le xreal _) with XR.le. cbn [lit xreal_JsNumber].
  rewrite !XRFacts.le_Fin.
  split; [apply XRFacts.Rleb_true; lra|].
  split; [apply XRFacts.Rleb_true; lra|].
  unfold screenToWorld, worldToScreen, anchor, view.
  cbn [x y view_x view_y scale]. xr_ops.
  rewrite !(XRFacts.div_Fin _ Hs). xr_ops.
  rewrite !XRFacts.div_Fin by lra.
  split; f_equal; f_equal; field; lra.
Qed.

Lemma updateZoom_anchor_witness :
  let view : ViewState xreal := {| view_x := Fin 17; view_y := Fin 3; scale := Fin 2 |} in
  let anchor : Point xreal := {| x := Fin 400; y := Fin 300 |} in
  let view' := updateZoom view (Fin 50) (Fin 400) (Fin 300) in
  (ZOOM_MIN <= view'.(scale))%js = true
  /\ (view'.(scale) <= ZOOM_MAX)%js = true
  /\ screenToWorld anchor view' = screenToWorld anchor view
  /\ worldToScreen (screenToWorld anchor view) view' = anchor.
Proof.
  apply (@updateZoom_anchor 17 3 2 50 400 300). lra.
Defined.

(** X20: in exact arithmetic, during a pinch of two fingers that started
    apart, the scale stays within [ZOOM_MIN, ZOOM_MAX] and the world point
    that was under the first midpoint of the fingers is shown under their
    current midpoint.  (In binary64 it is shown there up to rounding: see
    [pinchMove_binary64_midpoint].) *)
Theorem pinchMove_midpoint (vx vy s q0x q0y q1x q1y p0x p0y p1x p1y : R) :
  s <> 0%R ->
  (q0x, q0y) <> (q1x, q1y) ->
  let view : ViewState xreal := {| view_x := Fin vx; view_y := Fin vy; scale := Fin s |} in
  let pinch := pinchStart view {| x := Fin q0x; y := Fin q0y |} {| x := Fin q1x; y := Fin q1y |} in
  let view' := pinchMove pinch {| x := Fin p0x; y := Fin p0y |} {| x := Fin p1x; y := Fin p1y |} in
  (ZOOM_MIN <= view'.(scale))%js = true
  /\ (view'.(scale) <= ZOOM_MAX)%js = true
  /\ worldToScreen pinch.(worldMid) view'
     = {| x := Fin ((p0x + p1x) / 2); y := Fin ((p0y + p1y) / 2) |}.
Proof.
  intros Hs Hq view pinch view'.
  pose proof (sqrt_lt_R0 _ (seg_len2_pos Hq)) as Hd0.
  set (d0 := R_sqrt.sqrt (seg_len2 q0x q0y q1x q1y)) in *.
  set (d1 := R_sqrt.sqrt (seg_len2 p0x p0y p1x p1y)).
  destruct (clamp_Fin (s * (d1 / d0))) as [Hclamp Hrange].
  set (s' := Rmin (Rmax (s * (d1 / d0)) (1 / 10)) 10) in *.
  assert (Hpinch : pinch = {| initialDist := Fin d0; initialScale := Fin s;
                              worldMid := {| x := Fin (((q0x + q1x) / 2 - vx) / s);
                                             y := Fin (((q0y + q1y) / 2 - vy) / s) |} |}).
  { unfold pinch, pinchStart. rewrite distance_Fin. fold d0.
    unfold screenToWorld, view. cbn [x y view_x view_y scale]. xr_ops.
    rewrite !XRFacts.div_Fin by lra. xr_ops.
    rewrite !(XRFacts.div_Fin _ Hs). reflexivity. }
  assert (Hview : view' = {| view_x := Fin ((p0x + p1x) / 2 - ((q0x + q1x) / 2 - vx) / s * s');
                             view_y := Fin ((p0y + p1y) / 2 - ((q0y + q1y) / 2 - vy) / s * s');
                             scale := Fin s' |}).
  { unfold view', pinchMove. rewrite Hpinch.
    cbn [initialDist initialScale worldMid x y]. rewrite distance_Fin. fold d1.
    change (Fin d1 / Fin d0)%js with (XR.div (Fin d1) (Fin d0)).
    rewrite XRFacts.div_Fin by lra.
    change (Fin s * Fin (d1 / d0))%js with (Fin (s * (d1 / d0))).
    rewrite Hclamp. fold s'. xr_ops.
    rewrite !XRFacts.div_Fin by lra. xr_ops. reflexivity. }
  rewrite Hview, Hpinch. cbn [scale worldMid]. rewrite ZOOM_MIN_Fin. unfold ZOOM_MAX.
  change (@js_le xreal _) with XR.le. cbn [lit xreal_JsNumber].
  rewrite !XRFacts.le_Fin.
  split; [apply XRFacts.Rleb_true; lra|].
  split; [apply XRFacts.Rleb_true; lra|].
  unfold worldToScreen. cbn [x y view_x view_y scale]. xr_ops.
  f_equal; f_equal; ring.
Qed.

Lemma pinchMove_midpoint_witness :
  let view : ViewState xreal := {| view_x := Fin 0; view_y := Fin 0; scale := Fin 1 |} in
  let pinch := pinchStart view {| x := Fin 100; y := Fin 100 |} {| x := Fin 200; y := Fin 100 |} in
  let view' := pinchMove pinch {| x := Fin 50; y := Fin 100 |} {| x := Fin 350; y := Fin 100 |} in
  (ZOOM_MIN <= view'.(scale))%js = true
  /\ (view'.(scale) <= ZOOM_MAX)%js = true
  /\ worldToScreen pinch.(worldMid) view'
     = {| x := Fin ((50 + 350) / 2); y := Fin ((100 + 100) / 2) |}.
Proof.
  apply (@pinchMove_midpoint 0 0 1 100 100 200 100 50 100 350 100).
  - lra.
  - intros Heq. injection Heq as Hx. lra.
Defined.

(** X21: a pinch whose two pointers are on one point when it starts and
    on one point when they move has no scale: the quotient of the two
    distances is 0/0 and the view it sets is NaN in all three fields. *)
Theorem pinchMove_coincident_NaN (vx vy s qx qy px py : R) :
  s <> 0%R ->
  let view : ViewState xreal := {| view_x := Fin vx; view_y := Fin vy; scale := Fin s |} in
  let q : Point xreal := {| x := Fin qx; y := Fin qy |} in
  let p : Point xreal := {| x := Fin px; y := Fin py |} in
  pinchMove (pinchStart view q q) p p = {| view_x := NaN; view_y := NaN; scale := NaN |}.
Proof.
  intros Hs view q p. unfold pinchMove, pinchStart, q, p.
  cbn [initialDist initialScale worldMid x y]. rewrite !distance_Fin.
  replace (seg_len2 qx qy qx qy) with 0%R by (unfold seg_len2; ring).
  replace (seg_len2 px py px py) with 0%R by (unfold seg_len2; ring).
  rewrite sqrt_0.
  change (Fin 0 / Fin 0)%js with (XR.div (Fin 0) (Fin 0)).
  rewrite XRFacts.div_zero_zero.
  unfold view, screenToWorld. cbn [x y view_x view_y scale]. xr_ops.
  rewrite !XRFacts.div_Fin by lra. xr_ops.
  rewrite !(XRFacts.div_Fin _ Hs). xr_ops.
  rewrite ZOOM_MIN_Fin. reflexivity.
Qed.

Lemma pinchMove_coincident_NaN_witness :
  pinchMove (pinchStart ({| view_x := Fin 0; view_y := Fin 0; scale := Fin 1 |}
                           : ViewState xreal)
               {| x := Fin 100; y := Fin 100 |} {| x := Fin 100; y := Fin 100 |})
    {| x := Fin 120; y := Fin 80 |} {| x := Fin 120; y := Fin 80 |}
  = {| view_x := NaN; view_y := NaN; scale := NaN |}.
Proof. apply (@pinchMove_coincident_NaN 0 0 1 100 100 120 80). lra. Defined.

(** ** Drawing, dragging and importing in exact arithmetic *)

(** Equalities and inequalities between [Rmin], [Rmax] and [Rabs] terms. *)
Ltac rminmax :=
  unfold Rmin, Rmax, Rabs;
  repeat match goal with
         | |- context [Rle_dec ?a ?b] => destruct (Rle_dec a b)
         | |- context [Rcase_abs ?a] => destruct (Rcase_abs a)
         end;
  lra.

(** X22: in exact arithmetic, the rectangle under the pointer while it is
    drawn is normalized, its width and height are not negative, and its
    bounds are the box spanned by the point where the drag began and the
    pointer.  (In binary64 the far edge [x + width] is that of the box up
    to rounding: see [drawRectangle_binary64_bounds].) *)
Theorem drawRectangle_box (cur : BaseElement xreal) (ox oy px py : R) :
  let rect := drawRectangle cur {| x := Fin ox; y := Fin oy |} {| x := Fin px; y := Fin py |} in
  (exists w h,
      rect = Rectangle (with_xy cur (Fin (Rmin ox px)) (Fin (Rmin oy py))) (Fin w) (Fin h)
      /\ (0 <= w)%R /\ (0 <= h)%R)
  /\ getElementBounds rect
     = {| minX := Fin (Rmin ox px); minY := Fin (Rmin oy py);
          maxX := Fin (Rmax ox px); maxY := Fin (Rmax oy py) |}.
Proof.
  intros rect. unfold rect, drawRectangle. cbn [x y]. xr_ops.
  rewrite !XRFacts.min_Fin.
  split.
  - exists (Rabs (ox + - px)), (Rabs (oy + - py)).
    split; [reflexivity|]. split; apply Rabs_pos.
  - cbn [getElementBounds with_xy el_x el_y]. xr_ops.
    rewrite !XRFacts.min_Fin. xr_ops.
    f_equal; f_equal; rminmax.
Qed.

Section DragExact.
Import XRFacts.
Local Open Scope R_scope.

Lemma Rmin_shift (a b d : R) : Rmin (a + d) (b + d) = Rmin a b + d.
Proof. rminmax. Qed.

Lemma Rmax_shift (a b d : R) : Rmax (a + d) (b + d) = Rmax a b + d.
Proof. rminmax. Qed.

Lemma fold_Rmin_shift (d : R) (rs : list R) : forall r,
  fold_left Rmin (map (fun v => v + d) rs) (r + d) = fold_left Rmin rs r + d.
Proof.
  induction rs as [|a rs IH]; intros r; [reflexivity|].
  cbn [map fold_left].
  rewrite Rmin_shift. apply IH.
Qed.

Lemma fold_Rmax_shift (d : R) (rs : list R) : forall r,
  fold_left Rmax (map (fun v => v + d) rs) (r + d) = fold_left Rmax rs r + d.
Proof.
  induction rs as [|a rs IH]; intros r; [reflexivity|].
  cbn [map fold_left].
  rewrite Rmax_shift. apply IH.
Qed.

(** The coordinates of the dragged points of a pencil. *)
Lemma dragged_coordinates (dx dy : R) (pts : list (Point xreal)) (rxs rys : list R) :
  map (fun pt => pt.(x)) pts = map Fin rxs ->
  map (fun pt => pt.(y)) pts = map Fin rys ->
  map (fun pt => pt.(x))
    (map (fun pt : Point xreal => {| x := (pt.(x) + Fin dx)%js; y := (pt.(y) + Fin dy)%js |})
       pts)
  = map Fin (map (fun v => v + dx) rxs)
  /\ map (fun pt => pt.(y))
       (map (fun pt : Point xreal => {| x := (pt.(x) + Fin dx)%js; y := (pt.(y) + Fin dy)%js |})
          pts)
     = map Fin (map (fun v => v + dy) rys).
Proof.
  revert rxs rys. induction pts as [|p pts IH]; intros rxs rys Hxs Hys.
  - destruct rxs; [|discriminate]. destruct rys; [|discriminate]. split; reflexivity.
  - destruct rxs as [|rx rxs]; [discriminate|]. destruct rys as [|ry rys]; [discriminate|].
    cbn [map] in *. injection Hxs as Hx Hxs. injection Hys as Hy Hys.
    destruct (IH rxs rys Hxs Hys) as [IHx IHy].
    cbn [x y]. rewrite Hx, Hy, IHx, IHy. split; reflexivity.
Qed.
(** The bounds of a pencil whose points have the finite coordinates
    [rx :: rxs] and [ry :: rys]. *)
Lemma getElementBounds_pencil (base : BaseElement xreal) (pts : list (Point xreal))
    (rx ry : R) (rxs rys : list R) :
  map (fun pt => pt.(x)) pts = map Fin (rx :: rxs) ->
  map (fun pt => pt.(y)) pts = map Fin (ry :: rys) ->
  getElementBounds (Pencil base pts)
  = {| minX := Fin (fold_left Rmin rxs rx); minY := Fin (fold_left Rmin rys ry);
       maxX := Fin (fold_left Rmax rxs rx); maxY := Fin (fold_left Rmax rys ry) |}.
Proof.
  intros Hxs Hys. destruct pts as [|p pts]; [discriminate|].
  cbn [getElementBounds]. rewrite Hxs, Hys.
  unfold Math_min_spread, Math_max_spread. cbn [map fold_left]. xr_ops.
  rewrite !min_PInf_Fin, !max_NInf_Fin, !fold_min_Fin, !fold_max_Fin. reflexivity.
Qed.
End DragExact.

(** X23: in exact arithmetic, dragging a selected shape moves its bounds
    by the drag vector and changes neither their width nor their height (a
    pencil without points has nothing to move).  (In binary64 the two
    edges of a rectangle move by the vector up to rounding: see
    [dragElement_binary64_bounds].) *)
Theorem dragElement_translates_bounds (el : WhiteboardElement xreal) (dx dy a b c d : R) :
  finite_element el = true ->
  (forall base, el <> Pencil base []) ->
  getElementBounds el = {| minX := Fin a; minY := Fin b; maxX := Fin c; maxY := Fin d |} ->
  getElementBounds (dragElement (Fin dx) (Fin dy) el)
  = {| minX := Fin (a + dx); minY := Fin (b + dy); maxX := Fin (c + dx); maxY := Fin (d + dy) |}.
Proof.
  intros Hfin Hpts Hb.
  destruct el as [bs w h|bs r|bs p1 p2 p3|bs ex ey|bs pts|bs src w h];
    cbn [finite_element] in Hfin.
  - repeat (apply andb_true_iff in Hfin as [Hfin ?]).
    destruct bs as [i bx by_ rot sc fc sw]; cbn [el_x el_y] in *.
    destruct bx, by_, w, h; try discriminate.
    cbn [dragElement getElementBounds with_xy el_x el_y] in *. xr_ops_all.
    rewrite !XRFacts.min_Fin in *. xr_ops_all.
    injection Hb as <- <- <- <-. f_equal; f_equal; rminmax.
  - repeat (apply andb_true_iff in Hfin as [Hfin ?]).
    destruct bs as [i bx by_ rot sc fc sw]; cbn [el_x el_y] in *.
    destruct bx, by_, r; try discriminate.
    cbn [dragElement getElementBounds with_xy el_x el_y] in *. xr_ops_all.
    injection Hb as <- <- <- <-. f_equal; f_equal; lra.
  - repeat (apply andb_true_iff in Hfin as [Hfin ?]).
    unfold finite_point in *.
    repeat match goal with
           | Hp : _ && _ = true |- _ => apply andb_true_iff in Hp as [? ?]
           end.
    destruct p1 as [x1 y1], p2 as [x2 y2], p3 as [x3 y3]; cbn [x y] in *.
    destruct x1, y1, x2, y2, x3, y3; try discriminate.
    cbn [dragElement getElementBounds x y] in *.
    unfold Math_min_spread, Math_max_spread in *. cbn [fold_left] in *.
    xr_ops_all.
    rewrite !min_PInf_Fin, !max_NInf_Fin, !XRFacts.min_Fin, !XRFacts.max_Fin in *.
    injection Hb as <- <- <- <-. rewrite !Rmin_shift, !Rmax_shift. reflexivity.
  - repeat (apply andb_true_iff in Hfin as [Hfin ?]).
    destruct bs as [i bx by_ rot sc fc sw]; cbn [el_x el_y] in *.
    destruct bx, by_, ex, ey; try discriminate.
    cbn [dragElement getElementBounds with_xy el_x el_y] in *. xr_ops_all.
    rewrite !XRFacts.min_Fin, !XRFacts.max_Fin in *.
    injection Hb as <- <- <- <-. f_equal; f_equal; rminmax.
  - destruct pts as [|p pts]; [contradiction (Hpts bs); reflexivity|].
    destruct (finite_points_xs _ Hfin) as [Hxs Hys].
    destruct (finite_list_inv _ Hxs) as [rxs Hrxs].
    destruct (finite_list_inv _ Hys) as [rys Hrys].
    destruct (dragged_coordinates dx dy _ _ _ Hrxs Hrys) as [Hdx Hdy].
    destruct rxs as [|rx rxs]; [discriminate|].
    destruct rys as [|ry rys]; [discriminate|].
    rewrite (getElementBounds_pencil bs _ Hrxs Hrys) in Hb.
    cbn [dragElement].
    rewrite (@getElementBounds_pencil bs _ (rx + dx) (ry + dy)
               (map (fun v => v + dx) rxs) (map (fun v => v + dy) rys) Hdx Hdy)%R.
    injection Hb as <- <- <- <-.
    rewrite !fold_Rmin_shift, !fold_Rmax_shift. reflexivity.
  - repeat (apply andb_true_iff in Hfin as [Hfin ?]).
    destruct bs as [i bx by_ rot sc fc sw]; cbn [el_x el_y] in *.
    destruct bx, by_, w, h; try discriminate.
    cbn [dragElement getElementBounds with_xy el_x el_y] in *. xr_ops_all.
    rewrite !XRFacts.min_Fin in *. xr_ops_all.
    injection Hb as <- <- <- <-. f_equal; f_equal; rminmax.
Qed.

Lemma dragElement_translates_bounds_witness :
  let arrow : WhiteboardElement xreal :=
    Arrow {| id := "a"%string; el_x := Fin 0; el_y := Fin 0; rotation := None;
             strokeColor := None; fillColor := None; strokeWidth := None |}
          (Fin 10) (Fin 5) in
  getElementBounds (dragElement (Fin 3) (Fin 4) arrow)
  = {| minX := Fin (Rmin 0 10 + 3); minY := Fin (Rmin 0 5 + 4);
       maxX := Fin (Rmax 0 10 + 3); maxY := Fin (Rmax 0 5 + 4) |}.
Proof.
  intros arrow.
  apply (@dragElement_translates_bounds arrow 3 4 (Rmin 0 10) (Rmin 0 5) (Rmax 0 10)
           (Rmax 0 5)).
  - reflexivity.
  - intros base Heq. discriminate Heq.
  - unfold arrow. cbn [getElementBounds el_x el_y]. xr_ops.
    rewrite !XRFacts.min_Fin, !XRFacts.max_Fin. reflexivity.
Defined.

(** X24: in exact arithmetic, an imported image keeps its proportions, is
    no wider and no higher than the footprint [600 / view.scale], is left
    at its own size when it fits, and is placed with its center on the
    world point under the center of the window.  (In binary64 the scaled
    size can exceed the footprint by the rounding: see
    [imageSize_binary64_footprint].) *)
Theorem newImage_fits (vx vy s W H w h : R) (newId src : string) :
  (0 < s)%R -> (0 < w)%R -> (0 < h)%R ->
  let view : ViewState xreal := {| view_x := Fin vx; view_y := Fin vy; scale := Fin s |} in
  exists w' h',
    newImage view (Fin W) (Fin H) newId src (Fin w) (Fin h)
    = Image {| id := newId; el_x := Fin ((W / 2 - vx) / s - w' / 2);
               el_y := Fin ((H / 2 - vy) / s - h' / 2); rotation := None;
               strokeColor := None; fillColor := None; strokeWidth := None |}
            src (Fin w') (Fin h')
    /\ (0 < w' <= 600 / s)%R /\ (0 < h' <= 600 / s)%R
    /\ (w' * h = h' * w)%R
    /\ ((w <= 600 / s)%R -> (h <= 600 / s)%R -> w' = w /\ h' = h).
Proof.
  intros Hs Hw Hh view.
  assert (HM : (0 < 600 / s)%R) by (apply Rdiv_lt_0_compat; lra).
  assert (Hcenter : screenToWorld {| x := (Fin W / lit 2)%js; y := (Fin H / lit 2)%js |} view
                    = {| x := Fin ((W / 2 - vx) / s); y := Fin ((H / 2 - vy) / s) |}).
  { unfold screenToWorld, view. cbn [x y view_x view_y scale]. xr_ops.
    rewrite !XRFacts.div_Fin by lra. xr_ops. rewrite !XRFacts.div_Fin by lra.
    reflexivity. }
  unfold newImage. rewrite Hcenter. cbn [x y].
  unfold imageSize. cbn [scale view]. xr_ops.
  rewrite (XRFacts.div_Fin 600) by lra. xr_ops.
  destruct (Rlt_dec (600 / s) w) as [Hbigw|Hokw];
    destruct (Rlt_dec (600 / s) h) as [Hbigh|Hokh];
    rewrite ?(XRFacts.Rltb_true Hbigw), ?(XRFacts.Rltb_false Hokw),
      ?(XRFacts.Rltb_true Hbigh), ?(XRFacts.Rltb_false Hokh);
    cbn [orb].
  4: { exists w, h. xr_ops. rewrite !XRFacts.div_Fin by lra.
       split; [reflexivity|]. repeat split; lra. }
  all: rewrite !XRFacts.div_Fin by lra;
    rewrite XRFacts.min_Fin; xr_ops;
    exists (w * Rmin (600 / s / w) (600 / s / h))%R,
           (h * Rmin (600 / s / w) (600 / s / h))%R;
    rewrite !XRFacts.div_Fin by lra;
    (split; [reflexivity|]);
    assert (Hrw : (w * (600 / s / w) = 600 / s)%R) by (field; lra);
    assert (Hrh : (h * (600 / s / h) = 600 / s)%R) by (field; lra);
    assert (Hqw : (0 < 600 / s / w)%R) by (apply Rdiv_lt_0_compat; lra);
    assert (Hqh : (0 < 600 / s / h)%R) by (apply Rdiv_lt_0_compat; lra);
    pose proof (Rmin_l (600 / s / w) (600 / s / h)) as Hl;
    pose proof (Rmin_r (600 / s / w) (600 / s / h)) as Hr;
    assert (Hpos : (0 < Rmin (600 / s / w) (600 / s / h))%R)
      by (apply Rmin_glb_lt; assumption);
    repeat split; try nra.
Qed.

Lemma newImage_fits_witness :
  let view : ViewState xreal := {| view_x := Fin 0; view_y := Fin 0; scale := Fin 1 |} in
  exists w' h',
    newImage view (Fin 1000) (Fin 800) "img"%string "data:"%string (Fin 1200) (Fin 300)
    = Image {| id := "img"%string; el_x := Fin ((1000 / 2 - 0) / 1 - w' / 2);
               el_y := Fin ((800 / 2 - 0) / 1 - h' / 2); rotation := None;
               strokeColor := None; fillColor := None; strokeWidth := None |}
            "data:"%string (Fin w') (Fin h')
    /\ (0 < w' <= 600 / 1)%R /\ (0 < h' <= 600 / 1)%R
    /\ (w' * 300 = h' * 1200)%R
    /\ ((1200 <= 600 / 1)%R -> (300 <= 600 / 1)%R -> w' = 1200%R /\ h' = 300%R).
Proof.
  apply (@newImage_fits 0 0 1 1000 800 1200 300 "img"%string "data:"%string); lra.
Defined.

(** X25: in exact arithmetic, zoom-to-fit of shapes whose common bounds
    have a width and a height sets a scale between [ZOOM_MIN] and 1, never
    magnifying, and shows the center of the common bounds at the center of
    the window.  (In binary64 the center is shown there up to rounding:
    see [handleZoomToFit_binary64_center].) *)
Theorem handleZoomToFit_centers (view : ViewState xreal)
    (elements : list (WhiteboardElement xreal)) (a b c d W H : R) :
  getCommonBounds elements
  = Some {| minX := Fin a; minY := Fin b; maxX := Fin c; maxY := Fin d |} ->
  (c - a <> 0)%R -> (d - b <> 0)%R ->
  let view' := handleZoomToFit view elements (Fin W) (Fin H) in
  (ZOOM_MIN <= view'.(scale))%js = true
  /\ (view'.(scale) <= lit 1)%js = true
  /\ worldToScreen {| x := Fin ((a + c) / 2); y := Fin ((b + d) / 2) |} view'
     = {| x := Fin (W / 2); y := Fin (H / 2) |}.
Proof.
  intros Hcommon Hw Hh view'.
  set (sx := ((W - 60 * 2) / (c - a))%R).
  set (sy := ((H - 60 * 2) / (d - b))%R).
  set (fs := Rmax (Rmin (Rmin sx sy) 1) (1 / 10)).
  assert (Hview : view' = {| view_x := Fin (W / 2 - (a + c) / 2 * fs);
                             view_y := Fin (H / 2 - (b + d) / 2 * fs);
                             scale := Fin fs |}).
  { unfold view', handleZoomToFit.
    destruct elements as [|e0 rest]; [discriminate Hcommon|].
    rewrite Hcommon. cbn [minX minY maxX maxY].
    rewrite ZOOM_MIN_Fin. unfold Math_min_spread. cbn [fold_left]. xr_ops.
    rewrite !XRFacts.Reqb_false by lra. cbn [orb].
    rewrite !XRFacts.div_Fin by lra.
    rewrite min_PInf_Fin, !XRFacts.min_Fin, XRFacts.max_Fin. xr_ops.
    reflexivity. }
  assert (Hrange : (1 / 10 <= fs <= 1)%R).
  { unfold fs. split; [apply Rmax_r|].
    apply Rmax_lub; [apply Rmin_r|lra]. }
  rewrite Hview. cbn [scale]. rewrite ZOOM_MIN_Fin.
  change (@js_le xreal _) with XR.le. cbn [lit xreal_JsNumber].
  rewrite !XRFacts.le_Fin.
  split; [apply XRFacts.Rleb_true; lra|].
  split; [apply XRFacts.Rleb_true; lra|].
  unfold worldToScreen. cbn [x y view_x view_y scale]. xr_ops.
  f_equal; f_equal; ring.
Qed.

Lemma handleZoomToFit_centers_witness :
  let rect : WhiteboardElement xreal :=
    Rectangle {| id := "r"%string; el_x := Fin 0; el_y := Fin 0; rotation := None;
                 strokeColor := None; fillColor := None; strokeWidth := None |}
              (Fin 2000) (Fin 1000) in
  let view : ViewState xreal := {| view_x := Fin 5; view_y := Fin 5; scale := Fin 3 |} in
  let view' := handleZoomToFit view [rect] (Fin 1000) (Fin 800) in
  (ZOOM_MIN <= view'.(scale))%js = true
  /\ (view'.(scale) <= lit 1)%js = true
  /\ worldToScreen {| x := Fin ((Rmin 0 (0 + 2000) + (Rmin 0 (0 + 2000) + Rabs 2000)) / 2);
                      y := Fin ((Rmin 0 (0 + 1000) + (Rmin 0 (0 + 1000) + Rabs 1000)) / 2) |}
       view'
     = {| x := Fin (1000 / 2); y := Fin (800 / 2) |}.
Proof.
  intros rect view.
  apply (@handleZoomToFit_centers view [rect]
           (Rmin 0 (0 + 2000)) (Rmin 0 (0 + 1000))
           (Rmin 0 (0 + 2000) + Rabs 2000) (Rmin 0 (0 + 1000) + Rabs 1000) 1000 800).
  - unfold getCommonBounds, rect. cbn [fold_left getElementBounds el_x el_y minX minY maxX maxY].
    xr_ops. rewrite !XRFacts.min_Fin. xr_ops.
    rewrite !min_PInf_Fin, !max_NInf_Fin. reflexivity.
  - rminmax.
  - rminmax.
Defined.


(** ** Rasterization in exact arithmetic *)

Section RasterExact.
Import XRFacts.
Local Open Scope R_scope.

(** The loop of [interpolatePoints] with a finite step count [k]: from the
    counter [i] it pushes the points at [i / k], [(i + 1) / k], ... up to
    [(k - 1) / k]. *)
Lemma interpolate_loop_points (x1 y1 x2 y2 : R) (k : Z) (m : nat) :
  forall (i : nat) (acc : list (Point xreal)) (fuel : nat),
    m = Z.to_nat (k - Z.of_nat i) ->
    (m < fuel)%nat ->
    interpolate_loop fuel {| x := Fin x1; y := Fin y1 |} {| x := Fin x2; y := Fin y2 |}
      (Fin (IZR k)) (Fin (INR i)) acc
    = Returned (acc ++ map (fun j => point_at x1 y1 x2 y2 (INR j / IZR k)) (seq i m)).
Proof.
  induction m as [|m IH]; intros i acc fuel Hm Hfuel.
  - destruct fuel as [|fuel]; [lia|].
    cbn [interpolate_loop]. rewrite counter_lt.
    destruct (Z.ltb_spec (Z.of_nat i) k); [lia|].
    cbn [seq map]. rewrite app_nil_r. reflexivity.
  - destruct fuel as [|fuel]; [lia|].
    cbn [interpolate_loop]. rewrite counter_lt.
    destruct (Z.ltb_spec (Z.of_nat i) k) as [Hik|]; [|lia].
    rewrite counter_succ.
    assert (Hk : IZR k <> 0) by (apply not_0_IZR; lia).
    change (Fin (INR i) / Fin (IZR k))%js with (XR.div (Fin (INR i)) (Fin (IZR k))).
    rewrite (div_Fin _ Hk). cbn [x y]. xr_ops.
    rewrite (IH (S i)) by lia.
    rewrite <- app_assoc. reflexivity.
Qed.

(** The step count is 0 between a point and itself and positive between
    two distinct points, for a positive spacing. *)
Lemma steps_positive (x1 y1 x2 y2 r : R) :
  0 < r -> (x1, y1) <> (x2, y2) ->
  (0 < XR.Rceil (R_sqrt.sqrt (seg_len2 x1 y1 x2 y2) / r))%Z.
Proof.
  intros Hr Hne.
  pose proof (sqrt_lt_R0 _ (seg_len2_pos Hne)) as Hd.
  destruct (Rceil_bounds (R_sqrt.sqrt (seg_len2 x1 y1 x2 y2) / r)) as [_ Hup].
  apply lt_IZR.
  assert (0 < R_sqrt.sqrt (seg_len2 x1 y1 x2 y2) / r) by (apply Rdiv_lt_0_compat; lra).
  lra.
Qed.

(** [interpolatePoints] at a spacing other than 0, with enough fuel. *)
Lemma interpolatePoints_points (x1 y1 x2 y2 r : R) (fuel : nat) :
  r <> 0 ->
  let k := XR.Rceil (R_sqrt.sqrt (seg_len2 x1 y1 x2 y2) / r) in
  (Z.to_nat k < fuel)%nat ->
  interpolatePoints fuel {| x := Fin x1; y := Fin y1 |} {| x := Fin x2; y := Fin y2 |} (Fin r)
  = Returned (map (fun j => point_at x1 y1 x2 y2 (INR j / IZR k)) (seq 0 (Z.to_nat k))).
Proof.
  intros Hr k Hfuel. unfold interpolatePoints.
  rewrite (steps_Fin _ _ _ _ Hr). fold k.
  change (lit 0 : xreal) with (Fin (INR 0)).
  rewrite (@interpolate_loop_points x1 y1 x2 y2 k (Z.to_nat k) 0 [] fuel);
    [reflexivity| |exact Hfuel].
  f_equal. simpl. lia.
Qed.

Lemma point_at_start (x1 y1 x2 y2 : R) (k : Z) :
  point_at x1 y1 x2 y2 (INR 0 / IZR k) = {| x := Fin x1; y := Fin y1 |}.
Proof.
  unfold point_at. cbn [INR]. unfold Rdiv. rewrite Rmult_0_l, !Rmult_0_r, !Rplus_0_r.
  reflexivity.
Qed.
End RasterExact.

(** X26: in exact arithmetic, at a positive spacing [interpolatePoints]
    returns the [k = ceil(distance / spacing)] points at the fractions
    [0/k], [1/k], ..., [(k-1)/k] of the way from [p1] to [p2]: evenly
    spaced, starting at [p1] itself and stopping short of [p2].  (In
    binary64 the rounded quotient can give one step more: see
    [interpolatePoints_binary64_extra_step].) *)
Theorem interpolatePoints_even (x1 y1 x2 y2 r : R) (fuel : nat) :
  (0 < r)%R ->
  let k := XR.Rceil (R_sqrt.sqrt (seg_len2 x1 y1 x2 y2) / r) in
  (Z.to_nat k < fuel)%nat ->
  interpolatePoints fuel {| x := Fin x1; y := Fin y1 |} {| x := Fin x2; y := Fin y2 |} (Fin r)
  = Returned (map (fun j => point_at x1 y1 x2 y2 (INR j / IZR k)) (seq 0 (Z.to_nat k)))
  /\ (forall j, (j < Z.to_nat k)%nat -> (0 <= INR j / IZR k < 1)%R)
  /\ ((x1, y1) <> (x2, y2) ->
      exists rest,
        map (fun j => point_at x1 y1 x2 y2 (INR j / IZR k)) (seq 0 (Z.to_nat k))
        = {| x := Fin x1; y := Fin y1 |} :: rest).
Proof.
  intros Hr k Hfuel.
  split; [apply interpolatePoints_points; [lra|exact Hfuel]|].
  split.
  - intros j Hj.
    assert (Hk : (0 < IZR k)%R) by (apply IZR_lt; lia).
    assert (Hjk : (INR j < IZR k)%R) by (rewrite INR_IZR_INZ; apply IZR_lt; lia).
    pose proof (pos_INR j) as Hj0.
    split.
    + apply Rmult_le_pos; [exact Hj0|]. left. apply Rinv_0_lt_compat, Hk.
    + apply (Rmult_lt_reg_r (IZR k)); [exact Hk|].
      unfold Rdiv. rewrite Rmult_assoc, Rinv_l by lra. lra.
  - intros Hne. pose proof (steps_positive Hr Hne) as Hpos. fold k in Hpos.
    destruct (Z.to_nat k) as [|n] eqn:Hn; [lia|].
    cbn [seq map]. rewrite point_at_start. eexists. reflexivity.
Qed.

Lemma interpolatePoints_even_witness :
  let k := XR.Rceil (R_sqrt.sqrt (seg_len2 0 0 10 0) / 3) in
  interpolatePoints 5 ({| x := Fin 0; y := Fin 0 |} : Point xreal) {| x := Fin 10; y := Fin 0 |}
    (Fin 3)
  = Returned (map (fun j => point_at 0 0 10 0 (INR j / IZR k)) (seq 0 (Z.to_nat k))).
Proof.
  intros k.
  assert (Hd : R_sqrt.sqrt (seg_len2 0 0 10 0) = 10%R).
  { unfold seg_len2.
    replace ((0 - 10) * (0 - 10) + (0 - 0) * (0 - 0))%R with (10 * 10)%R by lra.
    apply sqrt_square. lra. }
  assert (Hk : (Z.to_nat k < 5)%nat).
  { unfold k. rewrite Hd. pose proof (XRFacts.Rceil_bounds (10 / 3)) as [Hlo Hhi].
    assert (H5 : (XR.Rceil (10 / 3) < 5)%Z) by (apply lt_IZR; lra). lia. }
  assert (Hr : (0 < 3)%R) by lra.
  exact (proj1 (@interpolatePoints_even 0 0 10 0 3 5 Hr Hk)).
Defined.

(** The rasterization of an Arrow, at a positive spacing, is that of its
    segment followed by its exact end point. *)
Lemma convertShapeToPoints_arrow
    (i : string) (rot : option xreal) (sc fc : option string) (sw : option xreal)
    (ax ay bx by_ r : R) (fuel : nat) :
  (0 < r)%R ->
  let k := XR.Rceil (R_sqrt.sqrt (seg_len2 ax ay bx by_) / r) in
  (Z.to_nat k < fuel)%nat ->
  convertShapeToPoints fuel
    (Arrow {| id := i; el_x := Fin ax; el_y := Fin ay; rotation := rot;
              strokeColor := sc; fillColor := fc; strokeWidth := sw |} (Fin bx) (Fin by_))
    (Fin r)
  = Returned (map Some (map (fun j => point_at ax ay bx by_ (INR j / IZR k))
                          (seq 0 (Z.to_nat k))
                        ++ [ {| x := Fin bx; y := Fin by_ |} ])).
Proof.
  intros Hr k Hfuel. cbn [convertShapeToPoints el_x el_y].
  rewrite interpolatePoints_points; [reflexivity|lra|exact Hfuel].
Qed.

Section PencilRaster.
Local Open Scope R_scope.

Lemma nth_error_last {A : Type} (l : list A) (d : A) :
  l <> [] -> nth_error l (List.length l - 1) = Some (last l d).
Proof.
  induction l as [|a l IH]; intros Hne; [contradiction|].
  destruct l as [|b l]; [reflexivity|].
  replace (List.length (a :: b :: l) - 1)%nat with (S (List.length (b :: l) - 1))
    by (simpl; lia).
  cbn [nth_error]. rewrite IH by discriminate. reflexivity.
Qed.

Lemma pencil_runs_step (fuel : nat) (p q : Point xreal) (rest : list (Point xreal))
    (spacing : xreal) :
  pencil_runs fuel (p :: q :: rest) spacing
  = bind (interpolatePoints fuel p q spacing)
      (fun s => bind (pencil_runs fuel (q :: rest) spacing) (fun r => Returned (s ++ r))).
Proof. reflexivity. Qed.

(** The runs between the recorded points of a pencil, followed by its
    last point, pass through every recorded point. *)
Lemma pencil_runs_through (r : R) (q0 : R * R) (pts : list (R * R)) :
  0 < r ->
  exists fuel0 : nat,
    forall fuel, (fuel0 <= fuel)%nat ->
      exists out,
        pencil_runs fuel (map fin_point (q0 :: pts)) (Fin r) = Returned out
        /\ forall q, In q (q0 :: pts) ->
             In (fin_point q)
                (out ++ [last (map fin_point (q0 :: pts)) (fin_point q0)]).
Proof.
  intros Hr. revert q0. induction pts as [|q1 rest IH]; intros q0.
  - exists 0%nat. intros fuel _. exists []. split; [reflexivity|].
    intros q [<-|[]]. left. reflexivity.
  - destruct (IH q1) as [fuel1 Hrest].
    destruct q0 as [x0 y0], q1 as [x1 y1].
    set (k := XR.Rceil (R_sqrt.sqrt (seg_len2 x0 y0 x1 y1) / r)).
    exists (Nat.max (S (Z.to_nat k)) fuel1). intros fuel Hfuel.
    destruct (Hrest fuel) as [out [Hrun Hin]]; [lia|].
    exists (map (fun j => point_at x0 y0 x1 y1 (INR j / IZR k)) (seq 0 (Z.to_nat k)) ++ out).
    split.
    + change (map fin_point ((x0, y0) :: (x1, y1) :: rest))
        with (fin_point (x0, y0) :: map fin_point ((x1, y1) :: rest)).
      change (map fin_point ((x1, y1) :: rest))
        with (fin_point (x1, y1) :: map fin_point rest) in Hrun |- *.
      rewrite pencil_runs_step, Hrun.
      change (fin_point (x0, y0)) with ({| x := Fin x0; y := Fin y0 |} : Point xreal).
      change (fin_point (x1, y1)) with ({| x := Fin x1; y := Fin y1 |} : Point xreal).
      rewrite interpolatePoints_points; [|lra|fold k; lia].
      fold k. reflexivity.
    + assert (Hlast : last (map fin_point ((x0, y0) :: (x1, y1) :: rest)) (fin_point (x0, y0))
                      = last (map fin_point ((x1, y1) :: rest)) (fin_point (x1, y1))).
      { cbn [map]. cbn [last].
        destruct (map fin_point rest) as [|p ps]; [reflexivity|].
        clear. revert p. induction ps as [|p' ps IHps]; intros p; [reflexivity|].
        cbn [last] in *. apply IHps. }
      rewrite Hlast, <- app_assoc.
      intros q [<-|Hq].
      * destruct (Req_dec_T x0 x1) as [Hx|Hx]; destruct (Req_dec_T y0 y1) as [Hy|Hy];
          try (subst; apply in_or_app; right; apply Hin; left; reflexivity);
          (assert (Hne : (x0, y0) <> (x1, y1))
             by (intros Heq; injection Heq as Hx' Hy'; contradiction);
           pose proof (steps_positive Hr Hne) as Hpos; fold k in Hpos;
           destruct (Z.to_nat k) as [|n] eqn:Hn; [lia|];
           cbn [seq map]; rewrite point_at_start; left; reflexivity).
      * apply in_or_app. right. apply Hin, Hq.
Qed.
End PencilRaster.

(** X27: in exact arithmetic, rasterized at a positive spacing, with
    enough fuel, a Pencil of finite points passes through every point that
    was recorded for it, its last point included.  (In binary64 a point is
    lost where the length of its segment underflows to 0: see
    [convertShapeToPoints_binary64_underflow].) *)
Theorem convertShapeToPoints_pencil_through (base : BaseElement xreal)
    (pts : list (R * R)) (r : R) :
  (0 < r)%R ->
  pts <> [] ->
  exists fuel0 : nat,
    forall fuel, (fuel0 <= fuel)%nat ->
      exists out,
        convertShapeToPoints fuel (Pencil base (map fin_point pts)) (Fin r) = Returned out
        /\ forall q, In q pts -> In (Some (fin_point q)) out.
Proof.
  intros Hr Hne. destruct pts as [|q0 pts]; [contradiction|].
  destruct (pencil_runs_through q0 pts Hr) as [fuel0 Hruns].
  exists fuel0. intros fuel Hfuel.
  destruct (Hruns fuel Hfuel) as [out [Hrun Hin]].
  exists (map Some out ++ [Some (last (map fin_point (q0 :: pts)) (fin_point q0))]).
  split.
  - cbn [convertShapeToPoints]. rewrite Hrun. cbn [bind].
    rewrite (@nth_error_last _ (map fin_point (q0 :: pts)) (fin_point q0)) by discriminate.
    reflexivity.
  - intros q Hq.
    change [Some (last (map fin_point (q0 :: pts)) (fin_point q0))]
      with (map Some [last (map fin_point (q0 :: pts)) (fin_point q0)]).
    rewrite <- map_app. apply in_map, Hin, Hq.
Qed.

Lemma convertShapeToPoints_pencil_through_witness :
  let base : BaseElement xreal :=
    {| id := "p"%string; el_x := Fin 0; el_y := Fin 0; rotation := None;
       strokeColor := None; fillColor := None; strokeWidth := None |} in
  let pts := [(0, 0); (10, 0); (10, 0); (10, 7)]%R in
  exists fuel0 : nat,
    forall fuel, (fuel0 <= fuel)%nat ->
      exists out,
        convertShapeToPoints fuel (Pencil base (map fin_point pts)) (Fin 5) = Returned out
        /\ forall q, In q pts -> In (Some (fin_point q)) out.
Proof.
  intros base pts.
  apply (@convertShapeToPoints_pencil_through base pts 5).
  - lra.
  - discriminate.
Defined.

(** ** The eraser: shapes that are let in but not touched *)

Section EraseUntouched.
Context {N : Type} `{JsNumber N} `{JsMath N}.
Variable G : Type.
Variable generateId : G -> string * G.
Variable view : ViewState N.
Variable activeColor : string.
Variable activeStrokeWidth : N.

(** Where every point is farther than the radius, the walk closes no run
    and keeps them all in the current one. *)
Lemma walk_points_all_far (worldPos : Point N) (radius : N) (pts : list (Point N)) :
  forallb (fun p => js_lt radius (distance p worldPos)) pts = true ->
  forall (segs : list (list (Point N))) (cur : list (Point N)),
    walk_points worldPos radius (map Some pts) segs cur = Returned (segs, cur ++ pts).
Proof.
  induction pts as [|p pts IH]; intros Hfar segs cur.
  - cbn [map walk_points]. rewrite app_nil_r. reflexivity.
  - cbn [forallb] in Hfar. apply andb_true_iff in Hfar as [Hp Hrest].
    cbn [map walk_points]. rewrite Hp, (IH Hrest), <- app_assoc. reflexivity.
Qed.

Lemma erase_loop_out_of_reach (fuel : nat) (worldPos : Point N)
    (rest : list (WhiteboardElement N)) :
  Forall (out_of_reach view fuel worldPos) rest ->
  forall (newList : list (WhiteboardElement N)) (hasChanges : bool) (g : G),
    erase_loop generateId view activeColor activeStrokeWidth fuel worldPos
      (js_div ERASER_RADIUS view.(scale)) rest newList hasChanges g
    = Returned (newList ++ rest, hasChanges, g).
Proof.
  induction 1 as [|el rest Hel _ IH]; intros newList hasChanges g.
  - cbn [erase_loop]. rewrite app_nil_r. reflexivity.
  - cbn [erase_loop].
    destruct (isElementRoughlyIntersecting el worldPos (js_div ERASER_RADIUS view.(scale)))
      eqn:Hrough; cbn [negb].
    + destruct Hel as [Hmiss|[pts [Hconv [Hne Hfar]]]];
        [rewrite Hrough in Hmiss; discriminate Hmiss|].
      rewrite Hconv. cbn [bind]. rewrite (walk_points_all_far _ _ _ Hfar). cbn [bind app].
      destruct pts as [|p pts]; [contradiction|].
      cbn [List.length Nat.ltb Nat.leb app].
      rewrite length_map, Nat.eqb_refl, IH, <- app_assoc. reflexivity.
    + rewrite IH, <- app_assoc. reflexivity.
Qed.
End EraseUntouched.

(** X28: [performErase] returns the list it was given, with no shape
    replaced and no id drawn, when every shape is out of reach: rejected
    by the rough test, or let in by it but with no point of its outline
    within the eraser radius. *)
Theorem performErase_out_of_reach {N : Type} `{JsNumber N} `{JsMath N}
    (G : Type) (generateId : G -> string * G) (view : ViewState N)
    (activeColor : string) (activeStrokeWidth : N)
    (fuel : nat) (worldPos : Point N) (currentList : list (WhiteboardElement N)) (g : G) :
  Forall (out_of_reach view fuel worldPos) currentList ->
  performErase generateId view activeColor activeStrokeWidth fuel worldPos currentList g
  = Returned (currentList, g).
Proof.
  intros Hout. unfold performErase.
  rewrite (@erase_loop_out_of_reach N _ _ G generateId view activeColor activeStrokeWidth
             fuel worldPos currentList Hout).
  reflexivity.
Qed.

(** An arrow from (0, 0) to (10, 0) under the view of scale 1 and the
    eraser at (5, 21): inside the box of the arrow widened by 22, but 21
    away from every point of the arrow, beyond the radius of 20. *)
Lemma performErase_out_of_reach_witness :
  let arrow : WhiteboardElement xreal :=
    Arrow {| id := "a"%string; el_x := Fin 0; el_y := Fin 0; rotation := None;
             strokeColor := Some "#000000"%string; fillColor := None;
             strokeWidth := Some (Fin 2) |} (Fin 10) (Fin 0) in
  let view : ViewState xreal := {| view_x := Fin 0; view_y := Fin 0; scale := Fin 1 |} in
  isElementRoughlyIntersecting arrow {| x := Fin 5; y := Fin 21 |}
    (js_div ERASER_RADIUS view.(scale)) = true
  /\ performErase (fun n : nat => ("id"%string, S n)) view "#000000"%string (Fin 2)
       5 {| x := Fin 5; y := Fin 21 |} [arrow] 0%nat
     = Returned ([arrow], 0%nat).
Proof.
  intros arrow view. split.
  - unfold arrow, view, isElementRoughlyIntersecting, ERASER_RADIUS,
      strokeWidth_or, num_or, truthy, isNaN.
    xr_eval; reflexivity.
  - apply (@performErase_out_of_reach xreal _ _ nat
             (fun n : nat => ("id"%string, S n)) view "#000000"%string (Fin 2)
             5 {| x := Fin 5; y := Fin 21 |} [arrow] 0%nat).
    constructor; [|constructor]. right.
    assert (Hd : R_sqrt.sqrt (seg_len2 0 0 10 0) = 10%R).
    { unfold seg_len2.
      replace ((0 - 10) * (0 - 10) + (0 - 0) * (0 - 0))%R with (10 * 10)%R by lra.
      apply sqrt_square. lra. }
    assert (Hr : (0 < 5 / 1)%R) by lra.
    assert (Hk : (Z.to_nat (XR.Rceil (R_sqrt.sqrt (seg_len2 0 0 10 0) / (5 / 1))) < 5)%nat).
    { rewrite Hd. pose proof (XRFacts.Rceil_bounds (10 / (5 / 1))) as [Hlo Hhi].
      assert (H5 : (XR.Rceil (10 / (5 / 1)) < 5)%Z) by (apply lt_IZR; lra). lia. }
    eexists. split; [|split].
    + unfold view, arrow. cbn [scale].
      change (js_div (lit 5) (Fin 1)) with (XR.div (Fin 5) (Fin 1)).
      rewrite XRFacts.div_Fin by lra.
      exact (@convertShapeToPoints_arrow "a"%string None (Some "#000000"%string) None
               (Some (Fin 2)) 0 0 10 0 (5 / 1) 5 Hr Hk).
    + intros Heq. apply app_eq_nil in Heq. destruct Heq as [_ Heq]. discriminate Heq.
    + assert (Hfar : forall px : R,
                XR.Rltb (20 / 1) (R_sqrt.sqrt (seg_len2 px 0 5 21)) = true).
      { intros px. apply XRFacts.Rltb_true.
        replace (20 / 1)%R with (R_sqrt.sqrt (20 * 20)) by (rewrite sqrt_square; lra).
        apply sqrt_lt_1_alt. unfold seg_len2.
        pose proof (Rle_0_sqr (px - 5)) as Hsq. unfold Rsqr in Hsq. lra. }
      unfold view, ERASER_RADIUS. cbn [scale].
      change (js_div (lit 20) (Fin 1)) with (XR.div (Fin 20) (Fin 1)).
      rewrite XRFacts.div_Fin by lra.
      rewrite forallb_app. apply andb_true_iff. split.
      * apply forallb_forall. intros p Hin.
        apply in_map_iff in Hin as [j [Hp _]]. subst p.
        unfold point_at. rewrite distance_Fin.
        replace (0 + (0 - 0) * (INR j / IZR (XR.Rceil (R_sqrt.sqrt (seg_len2 0 0 10 0) / (5 / 1)))))%R
          with 0%R by lra.
        apply Hfar.
      * cbn [forallb]. rewrite distance_Fin. rewrite andb_true_r. apply Hfar.
Defined.

(** * Binary64: where rounding, overflow and underflow show

    The properties above that are stated in exact arithmetic hold of the
    running program up to the rounding of binary64 only.  Each run below
    is the code at the [float] instance on one input. *)

Section Binary64Limits.
Local Open Scope float_scope.

(** The area of a sliver changes with the order of its vertices. *)
Lemma getTriangleArea_binary64_order :
  let p1 := pt64 (1 / 10) 0 in
  let p2 := pt64 (1 / 10) (7 / 10) in
  let p3 := pt64 (1 / 10) (1 / 10) in
  PrimFloat.eqb (getTriangleArea p2 p3 p1) (getTriangleArea p1 p2 p3) = false.
Proof. vm_compute. reflexivity. Qed.

(** A point well inside a triangle of large coordinates is outside for
    [isPointInTriangle]: the rounded areas differ by 1 or more. *)
Lemma isPointInTriangle_binary64_large :
  isPointInTriangle (pt64 700000008 700000012)
    (pt64 400000000 400000000) (pt64 1200000028 400000012) (pt64 800000004 1600000036)
  = false.
Proof. vm_compute. reflexivity. Qed.

(** The triangle whose vertices are all (7, 7) is not hit from a position
    whose products overflow: the area is NaN. *)
Lemma hitTestElement_binary64_point_triangle :
  hitTestElement (Triangle base64 (pt64 7 7) (pt64 7 7) (pt64 7 7))
    (pt64 0x1p1023 (- 0x1p1023)) 1 = false.
Proof. vm_compute. reflexivity. Qed.

(** [isPointNearLine] at a threshold next to the distance to the line
    tells the two directions of a segment apart
    (the threshold is 0.25187104714564545). *)
Lemma isPointNearLine_binary64_direction :
  let p := pt64 1 (9 / 10) in
  let a := pt64 (1 / 10) (3 / 10) in
  let b := pt64 2 1 in
  isPointNearLine p a b 0x1.01ea7bd933046p-2 = true
  /\ isPointNearLine p b a 0x1.01ea7bd933046p-2 = false.
Proof. split; vm_compute; reflexivity. Qed.

(** An end point of a segment is not near the line at the positive
    threshold 1e-18: its computed distance to the line is not 0. *)
Lemma isPointNearLine_binary64_end_point :
  let a := pt64 (1 / 10) (3 / 10) in
  let b := pt64 2 1 in
  isPointNearLine a a b (1 / 1000000000000000000) = false.
Proof. vm_compute. reflexivity. Qed.

(** A position just outside the circle of radius 5 is hit: its distance
    to the center rounds to 5. *)
Lemma hitTestElement_binary64_circle_rim :
  hitTestElement (Circle base64 5) (pt64 (3 + 0x1p-51) 4) 1 = true.
Proof. vm_compute. reflexivity. Qed.

(** After a pinch move the world point of the first midpoint is drawn
    next to the midpoint of the fingers, not on it. *)
Lemma pinchMove_binary64_midpoint :
  let view : ViewState float := {| view_x := 13; view_y := -7; scale := 3 / 10 |} in
  let pinch := pinchStart view (pt64 100 100) (pt64 200 130) in
  let view' := pinchMove pinch (pt64 (1 / 10) 95) (pt64 (1 / 10) 170) in
  PrimFloat.eqb (worldToScreen pinch.(worldMid) view').(x) (1 / 10) = false.
Proof. vm_compute. reflexivity. Qed.

(** The bounds of the rectangle drawn from x = 0.2 to x = 0.9 end one
    unit in the last place before 0.9. *)
Lemma drawRectangle_binary64_bounds :
  let rect := drawRectangle base64 (pt64 (2 / 10) 0) (pt64 (9 / 10) 1) in
  PrimFloat.ltb (getElementBounds rect).(maxX) (9 / 10) = true.
Proof. vm_compute. reflexivity. Qed.

(** Dragged by 0.4, the right edge of a rectangle moves a little less
    than its left edge. *)
Lemma dragElement_binary64_bounds :
  let rect := Rectangle (with_xy base64 (1 / 10) 0) (1 / 10) 1 in
  PrimFloat.ltb (getElementBounds (dragElement (4 / 10) 0 rect)).(maxX)
    ((getElementBounds rect).(maxX) + 4 / 10) = true.
Proof. vm_compute. reflexivity. Qed.

(** At the view scale 3 an image of 265 by 1 is scaled to a width above
    the footprint 600 / 3. *)
Lemma imageSize_binary64_footprint :
  let view : ViewState float := {| view_x := 0; view_y := 0; scale := 3 |} in
  PrimFloat.ltb (600 / 3) (fst (imageSize view 265 1)) = true.
Proof. vm_compute. reflexivity. Qed.

(** Zoom-to-fit draws the center of the bounds next to the center of the
    window, not on it. *)
Lemma handleZoomToFit_binary64_center :
  let view : ViewState float := {| view_x := 0; view_y := 0; scale := 1 |} in
  let rect :=
    Rectangle (with_xy base64 (-12345 / 10) (2 / 10)) (7007 / 10) (7007 / 10 / 3) in
  let view' := handleZoomToFit view [rect] 1000 800 in
  match getCommonBounds [rect] with
  | Some b =>
      PrimFloat.eqb
        (worldToScreen (pt64 ((b.(minX) + b.(maxX)) / 2) ((b.(minY) + b.(maxY)) / 2)) view').(x)
        500 = false
  | None => False
  end.
Proof. vm_compute. reflexivity. Qed.

(** From 0.1 to 0.4 at the spacing 0.1 the quotient of the doubles is 3
    in exact arithmetic; it rounds to 3.0000000000000004 and four points
    are returned. *)
Lemma interpolatePoints_binary64_extra_step :
  match interpolatePoints 10 (pt64 (1 / 10) 0) (pt64 (4 / 10) 0) (1 / 10) with
  | Returned pts => List.length pts = 4%nat
  | _ => False
  end.
Proof. vm_compute. reflexivity. Qed.

(** A recorded point of a pencil is lost where the squared length of its
    segment underflows to 0: the segment gives no point. *)
Lemma convertShapeToPoints_binary64_underflow `{JsMath float} :
  convertShapeToPoints 5 (Pencil base64 [pt64 0 0; pt64 0x1p-600 0; pt64 5 0]) 5
  = Returned [Some (pt64 0x1p-600 0); Some (pt64 5 0)].
Proof. vm_compute. reflexivity. Qed.

(** A positive spacing can give the step count Infinity as the spacing 0
    does: at the least positive number the loop is still running after a
    thousand rounds.  And a counter that has reached 2^53 is left there by
    [i++], so a loop with a step count above 2^53 does not return from
    there. *)
Lemma interpolatePoints_binary64_tiny_spacing :
  Math_ceil (js_div (distance (pt64 0 0) (pt64 1 0)) 0x1p-1074) = PrimFloat.infinity
  /\ interpolatePoints 1000 (pt64 0 0) (pt64 1 0) 0x1p-1074 = OutOfFuel
  /\ forall (fuel : nat) (acc : list (Point float)),
       interpolate_loop fuel (pt64 0 0) (pt64 1 0)
         (Math_ceil (js_div (distance (pt64 0 0) (pt64 1 0)) 0x1p-57)) 0x1p53 acc
       = OutOfFuel.
Proof.
  split; [vm_compute; reflexivity|]. split; [vm_compute; reflexivity|].
  intros fuel acc. apply interpolate_loop_stuck; vm_compute; reflexivity.
Qed.
End Binary64Limits.
